(** * books-repo: chapter-audio pipeline, verified against its TypeScript source

    Shallow embedding of the pure core of
    - [src/scripts/audio-generator.ts]  (class [UnifiedAudioGenerator]),
    - [src/scripts/generate-chapter-audio.ts] (class [ChapterAudioGenerator]),
    - the configuration manager ([ConfigManager]) and the provider tables.

    JavaScript strings are sequences of UTF-16 code units; they are modelled
    as lists of code units ([N]).  Indices and lengths are [nat].  Node
    buffers are lists of byte values ([Z]). *)

From Stdlib Require Import ZArith NArith QArith Qpower Qround Qabs Lqa Lia.
From Stdlib Require Import String Ascii.
From stdpp Require Import base option list gmap strings pretty.

Close Scope Q_scope.
Local Open Scope nat_scope.

(** ** JavaScript strings *)

Module JS.

Abbreviation char := N (only parsing).
Abbreviation jsstring := (list N) (only parsing).

(** A string literal of the source, as code units (ASCII literals only). *)
Definition str (s : string) : jsstring :=
  map N_of_ascii (list_ascii_of_string s).

(** One-character literal. *)
Definition chr (a : ascii) : char := N_of_ascii a.

Definition ch_eqb (a b : char) : bool := N.eqb a b.

(** ECMAScript [WhiteSpace] and [LineTerminator] code points: what [\s] in a
    regular expression matches and what [String.prototype.trim] strips. *)
Definition is_space (c : char) : bool :=
  ((9 <=? c) && (c <=? 13) || (c =? 32) || (c =? 160) || (c =? 5760)
   || (8192 <=? c) && (c <=? 8202) || (c =? 8232) || (c =? 8233)
   || (c =? 8239) || (c =? 8287) || (c =? 12288) || (c =? 65279))%N.

(** ECMAScript [LineTerminator]: LF, CR, LS, PS.  The dot of a regular
    expression does not match them and [^] with the [m] flag matches after
    them. *)
Definition is_line_terminator (c : char) : bool :=
  ((c =? 10) || (c =? 13) || (c =? 8232) || (c =? 8233))%N.

(** [\d] *)
Definition is_digit (c : char) : bool := ((48 <=? c) && (c <=? 57))%N.

Fixpoint takeWhile {A} (p : A -> bool) (l : list A) : list A :=
  match l with
  | [] => []
  | x :: l' => if p x then x :: takeWhile p l' else []
  end.

Fixpoint dropWhile {A} (p : A -> bool) (l : list A) : list A :=
  match l with
  | [] => []
  | x :: l' => if p x then dropWhile p l' else l
  end.

(** [s.trim()] *)
Definition trimStart (s : jsstring) : jsstring := dropWhile is_space s.
Definition trimEnd (s : jsstring) : jsstring :=
  reverse (dropWhile is_space (reverse s)).
Definition trim (s : jsstring) : jsstring := trimEnd (trimStart s).

(** [s.slice(a, b)] for [0 <= a], [0 <= b]: code units [a .. b-1], clamped
    to the string. *)
Definition slice (s : jsstring) (a b : nat) : jsstring :=
  take (b - a) (drop a s).

(** [s.startsWith(p)] *)
Fixpoint startsWith (p s : jsstring) : bool :=
  match p, s with
  | [], _ => true
  | _ :: _, [] => false
  | a :: p', b :: s' => ch_eqb a b && startsWith p' s'
  end.

(** [s.includes(p)] *)
Fixpoint includes (s p : jsstring) : bool :=
  startsWith p s ||
  match s with
  | [] => false
  | _ :: s' => includes s' p
  end.

End JS.

Import JS.

(** ** Regular expressions with the [g] flag, as [String.prototype.replace]
    runs them *)

Module Regex.

(** One attempt of a pattern at one position of the subject: [prev] is the
    code unit just before the position ([None] at index 0) and [s] the
    subject from the position on.  The result is the replacement text and
    the number of code units matched.  Every pattern of this program
    matches at least one code unit. *)
Definition matcher : Type :=
  option char -> jsstring -> option (jsstring * nat).

(** [subject.replace(/pattern/g, replacement)]: scan from the left; at a
    position where the pattern matches, emit the replacement and go on
    after the match; elsewhere copy one code unit.  The fuel is the length
    of the subject, one unit per position. *)
Fixpoint replace_all (fuel : nat) (rx : matcher) (prev : option char)
  (s : jsstring) : jsstring :=
  match fuel with
  | 0 => s
  | S fuel' =>
    match s with
    | [] => []
    | c :: s' =>
      match rx prev s with
      | Some (replacement, n) =>
        replacement ++ replace_all fuel' rx (last (take n s)) (drop n s)
      | None => c :: replace_all fuel' rx (Some c) s'
      end
    end
  end.

Definition replaceAll (rx : matcher) (s : jsstring) : jsstring :=
  replace_all (length s) rx None s.

Definition LF : char := 10%N.
Definition SP : char := 32%N.

Definition is_lf (c : char) : bool := ch_eqb c LF.

(** [/\[\d+\]/] and [/\(\d+\)/], replaced by the empty string: the opening
    bracket, one or more digits, the closing bracket. *)
Definition rx_footnote (open close : char) : matcher := fun _ s =>
  match s with
  | c :: s1 =>
    if ch_eqb c open then
      let digits := takeWhile is_digit s1 in
      match digits, dropWhile is_digit s1 with
      | _ :: _, c2 :: _ =>
        if ch_eqb c2 close then Some ([], length digits + 2) else None
      | _, _ => None
      end
    else None
  | [] => None
  end.

(** [/\s+/], replaced by one space: a maximal run of white space. *)
Definition rx_spaces : matcher := fun _ s =>
  match takeWhile is_space s with
  | [] => None
  | (_ :: _) as run => Some ([SP], length run)
  end.

(** [(.*?)] followed by a closing delimiter: the shortest run of code
    units other than line terminators after which the delimiter starts. *)
Fixpoint lazy_dot_until (delim s : jsstring) : option jsstring :=
  if startsWith delim s then Some []
  else match s with
       | [] => None
       | c :: s' =>
         if is_line_terminator c then None
         else inner ← lazy_dot_until delim s'; Some (c :: inner)
       end.

(** [/\*\*(.*?)\*\*/] ([delim = "**"]) and [/\*(.*?)\*/] ([delim = "*"]),
    replaced by [$1]. *)
Definition rx_emphasis (delim : jsstring) : matcher := fun _ s =>
  if startsWith delim s then
    inner ← lazy_dot_until delim (drop (length delim) s);
    Some (inner, 2 * length delim + length inner)
  else None.

Definition not_char (x : char) (c : char) : bool := negb (ch_eqb c x).

(** [/\[([^\]]+)\]\([^)]+\)/], replaced by [$1].  The greedy classes run
    up to the first closing bracket, which they cannot contain. *)
Definition rx_link : matcher := fun _ s =>
  match s with
  | c :: s1 =>
    if ch_eqb c (chr "[") then
      let text := takeWhile (not_char (chr "]")) s1 in
      match text, dropWhile (not_char (chr "]")) s1 with
      | _ :: _, _ :: c2 :: s2 =>
        if ch_eqb c2 (chr "(") then
          let url := takeWhile (not_char (chr ")")) s2 in
          match url, dropWhile (not_char (chr ")")) s2 with
          | _ :: _, _ :: _ => Some (text, length text + length url + 4)
          | _, _ => None
          end
        else None
      | _, _ => None
      end
    else None
  | [] => None
  end.

(** [^] with the [m] flag. *)
Definition at_line_start (prev : option char) : bool :=
  match prev with
  | None => true
  | Some c => is_line_terminator c
  end.

Definition is_list_marker (c : char) : bool :=
  ch_eqb c (chr "-") || ch_eqb c (chr "*") || ch_eqb c (chr "+").

(** [/^\s*[-*+]\s+/m], replaced by the empty string. *)
Definition rx_list_marker : matcher := fun prev s =>
  if at_line_start prev then
    let indent := takeWhile is_space s in
    match dropWhile is_space s with
    | c :: s1 =>
      if is_list_marker c then
        match takeWhile is_space s1 with
        | [] => None
        | (_ :: _) as gap => Some ([], length indent + 1 + length gap)
        end
      else None
    | [] => None
    end
  else None.

(** [/\n{3,}/], replaced by two line feeds. *)
Definition rx_blank_lines : matcher := fun _ s =>
  let run := takeWhile is_lf s in
  if 3 <=? length run then Some ([LF; LF], length run) else None.

Definition is_terminator (c : char) : bool :=
  ch_eqb c (chr ".") || ch_eqb c (chr "!") || ch_eqb c (chr "?").

(** [/([.!?])\s*\n\s*/], replaced by ["$1 "].  The two greedy [\s*] around
    the line feed together take the whole run of white space after the
    terminator, whenever that run has a line feed in it. *)
Definition rx_sentence_break : matcher := fun _ s =>
  match s with
  | c :: s1 =>
    if is_terminator c then
      let run := takeWhile is_space s1 in
      if existsb is_lf run then Some ([c; SP], 1 + length run) else None
    else None
  | [] => None
  end.

(** The number of code units of a run up to and including its last line
    feed. *)
Fixpoint through_last_lf (run : jsstring) : option nat :=
  match run with
  | [] => None
  | c :: run' =>
    match through_last_lf run' with
    | Some n => Some (S n)
    | None => if is_lf c then Some 1 else None
    end
  end.

(** [/\n\s*\n/], replaced by [". "]: a line feed, then the white space
    after it up to its last line feed (the greedy [\s*] gives back what
    follows that line feed). *)
Definition rx_paragraph_break : matcher := fun _ s =>
  match s with
  | c :: s1 =>
    if is_lf c then
      n ← through_last_lf (takeWhile is_space s1);
      Some ([chr "."; SP], 1 + n)
    else None
  | [] => None
  end.

End Regex.

(** ** Text normalizer: [UnifiedAudioGenerator.normalizeTextForTTS] *)

Module Normalizer.

Import Regex.

(** [GlobalTTSSettings.text_processing] *)
Record TextProcessing := {
  clean_markdown : bool;
  remove_footnotes : bool;
  normalize_whitespace : bool;
  sentence_splitting : bool;
  paragraph_splitting : bool
}.

(** [ConfigManager.globalSettings.text_processing] *)
Definition globalSettings_text_processing : TextProcessing := {|
  clean_markdown := true;
  remove_footnotes := true;
  normalize_whitespace := true;
  sentence_splitting := true;
  paragraph_splitting := false
|}.

(** The unconditional clean-up chain, in source order. *)
Definition cleanup (normalized : jsstring) : jsstring :=
  let s := replaceAll (rx_emphasis (str "**")) normalized in
  let s := replaceAll (rx_emphasis (str "*")) s in
  let s := replaceAll rx_link s in
  let s := replaceAll rx_list_marker s in
  let s := replaceAll rx_blank_lines s in
  let s := replaceAll rx_sentence_break s in
  let s := replaceAll rx_paragraph_break s in
  trim s.

Definition strip_footnotes (normalized : jsstring) : jsstring :=
  let s := replaceAll (rx_footnote (chr "[") (chr "]")) normalized in
  replaceAll (rx_footnote (chr "(") (chr ")")) s.

Definition normalizeTextForTTS (settings : TextProcessing) (text : jsstring)
  : jsstring :=
  if negb (clean_markdown settings) then text
  else
    let normalized := text in
    let normalized :=
      if remove_footnotes settings then strip_footnotes normalized
      else normalized in
    let normalized :=
      if normalize_whitespace settings then replaceAll rx_spaces normalized
      else normalized in
    cleanup normalized.

End Normalizer.

(** ** Chunker: [UnifiedAudioGenerator.splitTextIntoChunks] *)

Module Chunker.

(** [sentenceEnds.includes(text[i])]; [text[i]] is [undefined] out of
    range, which the array does not contain. *)
Definition is_sentence_end (text : jsstring) (i : nat) : bool :=
  match text !! i with
  | Some c => ch_eqb c (chr ".") || ch_eqb c (chr "!") || ch_eqb c (chr "?")
  | None => false
  end.

(** The inner [for (let i = end; i >= searchStart; i--)] loop, where
    [searchStart = Math.max(start + maxChunkSize * 0.8, start)].  For a
    positive [maxChunkSize] the maximum is its first argument, and for the
    integer [i] the test [i >= start + maxChunkSize * 0.8] is
    [5 * i >= 5 * start + 4 * maxChunkSize] (the double product is exact up
    to rounding that never crosses an integer for sizes below 2^50).
    Returns [bestBreak]; [None] is the initial [-1]. *)
Fixpoint search_break (text : jsstring) (start m : nat) (i : nat)
  : option nat :=
  if 5 * i <? 5 * start + 4 * m then None
  else if is_sentence_end text i then Some (i + 1)
  else match i with
       | 0 => None
       | S i' => search_break text start m i'
       end.

(** One iteration of the [while] body: the new [end]. *)
Definition next_end (text : jsstring) (m start : nat) : nat :=
  let end0 := start + m in
  if end0 <? length text then
    match search_break text start m end0 with
    | Some bestBreak => if start <? bestBreak then bestBreak else end0
    | None => end0
    end
  else end0.

(** The [while (start < text.length)] loop.  [None]: the fuel ran out,
    which for [fuel >= text.length] means that [start] no longer advances
    (the source then loops forever; this needs [maxChunkSize = 0]). *)
Fixpoint chunk_loop (fuel : nat) (text : jsstring) (m start : nat)
  (chunks : list jsstring) : option (list jsstring) :=
  if length text <=? start then Some chunks
  else match fuel with
       | 0 => None
       | S fuel' =>
         let e := next_end text m start in
         let chunk := trim (slice text start e) in
         chunk_loop fuel' text m e
           (if 0 <? length chunk then chunks ++ [chunk] else chunks)
       end.

Definition nonempty (s : jsstring) : bool := 0 <? length s.

Definition splitTextIntoChunks (text : jsstring) (maxChunkSize : nat)
  : option (list jsstring) :=
  if length text <=? maxChunkSize then Some [text]
  else
    chunks ← chunk_loop (length text) text maxChunkSize 0 [];
    Some (List.filter nonempty chunks).

End Chunker.

(** ** Chapter resolution: [ChapterAudioGenerator.findChapter] *)

Module Resolver.

Record Chapter := {
  id : jsstring;
  title : jsstring;
  order : Z;
  filename : jsstring
}.

Record BookMetadata := {
  book_title : jsstring;
  author : jsstring;
  totalChapters : Z
}.

Record TableOfContents := {
  book : BookMetadata;
  chapters : list Chapter
}.

(** The value of a code unit as a digit of the given radix. *)
Definition digit_value (radix : Z) (c : char) : option Z :=
  let v :=
    if is_digit c then Some (Z.of_N c - 48)%Z
    else if ((97 <=? c) && (c <=? 122))%N then Some (Z.of_N c - 97 + 10)%Z
    else if ((65 <=? c) && (c <=? 90))%N then Some (Z.of_N c - 65 + 10)%Z
    else None in
  d ← v; if (d <? radix)%Z then Some d else None.

(** The mathematical value of the longest prefix of digits. *)
Fixpoint parse_digits (radix : Z) (acc : Z) (s : jsstring) : Z :=
  match s with
  | [] => acc
  | c :: s' =>
    match digit_value radix c with
    | Some d => parse_digits radix (acc * radix + d)%Z s'
    | None => acc
    end
  end.

(** [parseInt(string)] without a radix (ECMAScript 19.2.5): leading white
    space is skipped, a sign is read, a [0x]/[0X] prefix selects radix 16,
    and the longest prefix of digits is the value; [None] is [NaN].  The
    value is the exact integer (a JavaScript number is exact below 2^53). *)
Definition parseInt (s : jsstring) : option Z :=
  let s := trimStart s in
  let '(sign, s) :=
    match s with
    | c :: s' =>
      if ch_eqb c (chr "-") then ((-1)%Z, s')
      else if ch_eqb c (chr "+") then (1%Z, s')
      else (1%Z, s)
    | [] => (1%Z, s)
    end in
  let '(radix, s) :=
    if startsWith (str "0x") s || startsWith (str "0X") s
    then (16%Z, drop 2 s) else (10%Z, s) in
  match s with
  | c :: _ =>
    match digit_value radix c with
    | Some _ => Some (sign * parse_digits radix 0 s)%Z
    | None => None
    end
  | [] => None
  end.

(** The ASCII part of [String.prototype.toLowerCase]: [A-Z] to [a-z].
    (The built-in also maps the upper-case letters outside ASCII.) *)
Definition ascii_toLowerCase (s : jsstring) : jsstring :=
  map (fun c => if ((65 <=? c) && (c <=? 90))%N then (c + 32)%N else c) s.

Section FindChapter.

(** [String.prototype.toLowerCase], the built-in of the host. *)
Variable toLowerCase : jsstring -> jsstring.

(** [toc.chapters.find(pred) || null] is [List.find]: the first chapter in
    table-of-contents order that satisfies the predicate, or [None]. *)
Definition findChapter (toc : TableOfContents) (identifier : jsstring)
  : option Chapter :=
  let chapterNum := parseInt identifier in
  match chapterNum with
  | Some chapterNum =>
    List.find (fun ch => (order ch =? chapterNum)%Z) (chapters toc)
  | None =>
    let lowerIdentifier := toLowerCase identifier in
    List.find (fun ch => includes (toLowerCase (title ch)) lowerIdentifier)
      (chapters toc)
  end.

(** The predicate that decides whether a chapter answers an identifier. *)
Definition answers (identifier : jsstring) (ch : Chapter) : bool :=
  match parseInt identifier with
  | Some n => (order ch =? n)%Z
  | None => includes (toLowerCase (title ch)) (toLowerCase identifier)
  end.

End FindChapter.

(** A table of contents to try the resolution on. *)
Definition chapter (n : Z) (t : string) : Chapter :=
  {| id := str "ch"; title := str t; order := n; filename := str "ch.md" |}.

Definition sample_toc : TableOfContents := {|
  book := {| book_title := str "Mythos"; author := str "S. Fry";
             totalChapters := 4 |};
  chapters := [chapter 1 "3 little pigs"; chapter 2 "Out of CHAOS";
               chapter 9 "Chaos again"; chapter 10 "The Beginning"]
|}.

End Resolver.

(** ** Provider registry and option merging: [ConfigManager] *)

Module Config.

(** [type TTSProvider = "google" | "openai" | "elevenlabs"] *)
Inductive TTSProvider := google | openai | elevenlabs.

Definition provider_name (p : TTSProvider) : string :=
  match p with
  | google => "google"
  | openai => "openai"
  | elevenlabs => "elevenlabs"
  end.

Record ProcessingLimits := {
  max_text_length : Z;
  max_chunk_size : Z;
  rate_limit_delay : Z;
  max_concurrent_requests : Z;
  retry_attempts : nat;
  retry_delay : Z
}.

Record DefaultSettings := {
  model : jsstring;
  voice : jsstring;
  format : jsstring
}.

(** The part of [TTSProviderConfig] that the synthesis pipeline reads. *)
Record TTSProviderConfig := {
  name : string;
  default_extension : jsstring;
  processing : ProcessingLimits;
  default_settings : DefaultSettings
}.

Definition googleTTSConfig : TTSProviderConfig := {|
  name := "google";
  default_extension := str "wav";
  processing := {|
    max_text_length := 5000;
    max_chunk_size := 3000;
    rate_limit_delay := 10000;
    max_concurrent_requests := 1;
    retry_attempts := 5;
    retry_delay := 30000
  |};
  default_settings := {|
    model := str "gemini-2.5-flash-preview-tts";
    voice := str "Kore";
    format := str "audio/wav"
  |}
|}.

Definition openaiTTSConfig : TTSProviderConfig := {|
  name := "openai";
  default_extension := str "mp3";
  processing := {|
    max_text_length := 4096;
    max_chunk_size := 3000;
    rate_limit_delay := 1000;
    max_concurrent_requests := 5;
    retry_attempts := 3;
    retry_delay := 2000
  |};
  default_settings := {|
    model := str "tts-1";
    voice := str "alloy";
    format := str "mp3"
  |}
|}.

(** [ConfigManager.providers] *)
Definition providers : gmap string TTSProviderConfig :=
  <["google" := googleTTSConfig]> (<["openai" := openaiTTSConfig]> ∅).

(** [getProviderConfig]; [None] is the thrown "Provider not found". *)
Definition getProviderConfig (provider : TTSProvider)
  : option TTSProviderConfig :=
  providers !! provider_name provider.

(** [interface ChapterAudioOptions]: every field optional. *)
Record ChapterAudioOptions := {
  opt_provider : option TTSProvider;
  opt_voice : option jsstring;
  opt_model : option jsstring;
  opt_format : option jsstring;
  opt_force_regenerate : option bool;
  opt_chunk_size : option Z;
  opt_rate_limit_delay : option Z
}.

(** [Required<ChapterAudioOptions>] *)
Record EffectiveOptions := {
  eff_provider : TTSProvider;
  eff_voice : jsstring;
  eff_model : jsstring;
  eff_format : jsstring;
  eff_force_regenerate : bool;
  eff_chunk_size : Z;
  eff_rate_limit_delay : Z
}.

(** [x || d] for each field type: the left operand when it is truthy.  A
    missing field is [undefined]; the empty string, [0] and [false] are
    falsy too.  (Integers stand for numbers; [NaN] is not modelled.) *)
Definition or_string (x : option jsstring) (d : jsstring) : jsstring :=
  match x with
  | Some ((_ :: _) as v) => v
  | _ => d
  end.

Definition or_number (x : option Z) (d : Z) : Z :=
  match x with
  | Some v => if (v =? 0)%Z then d else v
  | None => d
  end.

Definition or_bool (x : option bool) (d : bool) : bool :=
  match x with
  | Some true => true
  | _ => d
  end.

(** Every provider name is a non-empty string, hence truthy. *)
Definition or_provider (x : option TTSProvider) (d : TTSProvider)
  : TTSProvider :=
  match x with
  | Some v => v
  | None => d
  end.

Definition getEffectiveOptions (provider : TTSProvider)
  (options : ChapterAudioOptions) : option EffectiveOptions :=
  config ← getProviderConfig provider;
  Some {|
    eff_provider := or_provider (opt_provider options) provider;
    eff_voice :=
      or_string (opt_voice options) (voice (default_settings config));
    eff_model :=
      or_string (opt_model options) (model (default_settings config));
    eff_format :=
      or_string (opt_format options) (format (default_settings config));
    eff_force_regenerate := or_bool (opt_force_regenerate options) false;
    eff_chunk_size :=
      or_number (opt_chunk_size options) (max_chunk_size (processing config));
    eff_rate_limit_delay :=
      or_number (opt_rate_limit_delay options)
        (rate_limit_delay (processing config))
  |}.

(** The options record [{}]. *)
Definition no_options : ChapterAudioOptions := {|
  opt_provider := None; opt_voice := None; opt_model := None;
  opt_format := None; opt_force_regenerate := None;
  opt_chunk_size := None; opt_rate_limit_delay := None
|}.

End Config.

(** ** Synthesis with retries: [UnifiedAudioGenerator.generateSingleAudio] *)

Module Synthesis.

Import Config.

(** What the [catch] clause reads of a thrown value:
    [error?.response?.status] and [error?.message]. *)
Record Error := {
  response_status : option Z;
  message : option jsstring
}.

Definition isRateLimit (error : Error) : bool :=
  match response_status error with
  | Some status => (status =? 429)%Z
  | None => false
  end
  || match message error with
     | Some m => includes m (str "429")
     | None => false
     end
  || match message error with
     | Some m => includes m (str "Too Many Requests")
     | None => false
     end.

(** *** Numbers

    A JavaScript number is an IEEE 754 double.  The finite doubles are
    rationals, and the numbers of this module are modelled as rationals
    that are doubles.  A quotient is rounded to the nearest double, ties
    to even, as the division of the source rounds it.  The exponent is not
    bounded: for magnitudes between [2^-1022] and [2^1024], which the
    quotients of this program have, that is the double of the source. *)

(** The nearest integer, ties to the even one. *)
Definition round_half_even (x : Q) : Z :=
  let f := Qfloor x in
  match Qcompare (x - inject_Z f) (1 # 2) with
  | Lt => f
  | Gt => (f + 1)%Z
  | Eq => if Z.even f then f else (f + 1)%Z
  end.

(** For [0 < q], the exponent [e] of the last of the 53 bits of [q]:
    [2^52 <= q / 2^e < 2^53]. *)
Definition ulp_exponent (q : Q) : Z :=
  let e0 := (Z.log2 (Qnum q) - Z.log2 (Zpos (Qden q)) - 52)%Z in
  if Qle_bool (2 ^ (e0 + 52)) q then e0 else (e0 - 1)%Z.

Definition round_positive (q : Q) : Q :=
  let e := ulp_exponent q in
  (inject_Z (round_half_even (q / 2 ^ e)) * 2 ^ e)%Q.

(** The double nearest to a rational. *)
Definition round_double (q : Q) : Q :=
  match Qnum q with
  | Z0 => 0%Q
  | Zpos _ => round_positive q
  | Zneg _ => (- round_positive (- q))%Q
  end.

(** [a / b] on numbers. *)
Definition divide (a b : Q) : Q := round_double (a / b).

(** What a run does, in order: provider calls, the warning logged before a
    retry, and the waits. *)
Inductive event :=
| Synthesize (text : jsstring) (attempt : nat)
| LogRetry (retries maxRetries : nat) (rate_limited : bool)
| Delay (ms : Q).

Inductive outcome :=
| Returned
| Thrown (error : Error).

(** [const maxRetries = this.config.processing.retry_attempts] *)
Definition maxRetries (config : TTSProviderConfig) : nat :=
  retry_attempts (processing config).

Section Retry.

Variable config : TTSProviderConfig.
Variable settings : Normalizer.TextProcessing.

(** The provider call of the [switch] ([generateAudioWithGoogle],
    [generateAudioWithOpenAI], or the [throw] of the default case): the
    call number [n] (from 0) on the text resolves ([None]) or throws. *)
Variable synthesize : jsstring -> nat -> option Error.

(** [retry_delay / 3] is a division of numbers; the product of a number
    and [Math.pow(2, retries - 1)] is exact (below [2^1024]). *)
Definition backoffDelay (error : Error) (retries : nat) : Q :=
  let baseDelay :=
    if isRateLimit error
    then inject_Z (retry_delay (processing config))
    else divide (inject_Z (retry_delay (processing config))) 3 in
  (baseDelay * 2 ^ Z.of_nat (retries - 1))%Q.

(** The [while (retries <= maxRetries)] loop.  Before each provider call
    [retries] is the number of calls that have thrown. *)
Fixpoint retry_loop (fuel : nat) (normalizedText : jsstring) (retries : nat)
  : option (list event * outcome) :=
  let maxRetries := maxRetries config in
  if retries <=? maxRetries then
    match fuel with
    | 0 => None
    | S fuel' =>
      match synthesize normalizedText retries with
      | None => Some ([Synthesize normalizedText retries], Returned)
      | Some error =>
        let retries' := retries + 1 in
        if maxRetries <? retries'
        then Some ([Synthesize normalizedText retries], Thrown error)
        else
          '(trace, result) ← retry_loop fuel' normalizedText retries';
          Some (Synthesize normalizedText retries
                :: LogRetry retries' maxRetries (isRateLimit error)
                :: Delay (backoffDelay error retries')
                :: trace, result)
      end
    end
  else Some ([], Returned).

Definition generateSingleAudio (text : jsstring)
  : option (list event * outcome) :=
  let normalizedText := Normalizer.normalizeTextForTTS settings text in
  retry_loop (S (maxRetries config)) normalizedText 0.

End Retry.

(** [baseDelay] of the [catch] clause, for a failure. *)
Definition base_delay (config : TTSProviderConfig) (error : Error) : Q :=
  if isRateLimit error
  then inject_Z (retry_delay (processing config))
  else divide (inject_Z (retry_delay (processing config))) 3.

(** The waits of a run, in order. *)
Fixpoint delays (trace : list event) : list Q :=
  match trace with
  | [] => []
  | Delay ms :: trace' => ms :: delays trace'
  | _ :: trace' => delays trace'
  end.

(** The number of provider calls of a run. *)
Fixpoint attempts (trace : list event) : nat :=
  match trace with
  | [] => 0
  | Synthesize _ _ :: trace' => S (attempts trace')
  | _ :: trace' => attempts trace'
  end.

End Synthesis.

(** ** PCM to WAV: [UnifiedAudioGenerator.createWavFile] *)

Module Wav.

Local Open Scope Z_scope.

(** [Buffer.alloc(n)]: [n] zero bytes. *)
Definition alloc (n : nat) : list Z := replicate n 0.

Definition ascii_bytes (s : string) : list Z :=
  map (fun a => Z.of_N (N_of_ascii a)) (list_ascii_of_string s).

(** [buf.write(string, offset)] for an ASCII string. *)
Definition write (buf : list Z) (s : string) (offset : nat) : list Z :=
  list_inserts offset (ascii_bytes s) buf.

(** Byte [k] of a value, little endian. *)
Definition byte_of (value : Z) (k : Z) : Z :=
  Z.land (Z.shiftr value (8 * k)) 255.

(** [buf.writeUInt32LE(value, offset)]: Node checks the range of the value
    and throws [ERR_OUT_OF_RANGE] outside of it ([None]). *)
Definition writeUInt32LE (buf : list Z) (value : Z) (offset : nat)
  : option (list Z) :=
  if (0 <=? value) && (value <=? 4294967295) then
    Some (list_inserts offset
            [byte_of value 0; byte_of value 1; byte_of value 2;
             byte_of value 3] buf)
  else None.

(** [buf.writeUInt16LE(value, offset)] *)
Definition writeUInt16LE (buf : list Z) (value : Z) (offset : nat)
  : option (list Z) :=
  if (0 <=? value) && (value <=? 65535) then
    Some (list_inserts offset [byte_of value 0; byte_of value 1] buf)
  else None.

(** [buf.readUInt32LE(offset)] and [buf.readUInt16LE(offset)], to say what
    a field of the header holds. *)
Definition readUInt32LE (buf : list Z) (offset : nat) : option Z :=
  b0 ← buf !! offset; b1 ← buf !! (offset + 1)%nat;
  b2 ← buf !! (offset + 2)%nat; b3 ← buf !! (offset + 3)%nat;
  Some (b0 + b1 * 2 ^ 8 + b2 * 2 ^ 16 + b3 * 2 ^ 24).

Definition readUInt16LE (buf : list Z) (offset : nat) : option Z :=
  b0 ← buf !! offset; b1 ← buf !! (offset + 1)%nat;
  Some (b0 + b1 * 2 ^ 8).

(** The four bytes of a chunk tag at an offset. *)
Definition tag_at (buf : list Z) (offset : nat) (tag : string) : Prop :=
  take 4 (drop offset buf) = ascii_bytes tag.

(** The header of [createWavFile]. *)
Definition wav_header (dataLength sampleRate : Z) : option (list Z) :=
  let header := alloc 44 in
  let header := write header "RIFF" 0 in
  header ← writeUInt32LE header (36 + dataLength) 4;
  let header := write header "WAVE" 8 in
  let header := write header "fmt " 12 in
  header ← writeUInt32LE header 16 16;
  header ← writeUInt16LE header 1 20;
  header ← writeUInt16LE header 1 22;
  header ← writeUInt32LE header sampleRate 24;
  header ← writeUInt32LE header (sampleRate * 2) 28;
  header ← writeUInt16LE header 2 32;
  header ← writeUInt16LE header 16 34;
  let header := write header "data" 36 in
  header ← writeUInt32LE header dataLength 40;
  Some header.

(** [createWavFile(pcmBuffer, outputPath, sampleRate)]: the bytes written
    to [outputPath], or [None] when a write throws. *)
Definition createWavFile (pcmBuffer : list Z) (sampleRate : Z)
  : option (list Z) :=
  let dataLength := Z.of_nat (length pcmBuffer) in
  header ← wav_header dataLength sampleRate;
  let wavBuffer := header ++ pcmBuffer in
  Some wavBuffer.

(** The fields of a 44-byte header in front of the PCM bytes. *)
Definition header_fields (header : list Z) (N R : Z) : Prop :=
  length header = 44%nat /\
  tag_at header 0 "RIFF" /\
  readUInt32LE header 4 = Some (36 + N) /\
  tag_at header 8 "WAVE" /\
  tag_at header 12 "fmt " /\
  readUInt32LE header 16 = Some 16 /\
  readUInt16LE header 20 = Some 1 /\
  readUInt16LE header 22 = Some 1 /\
  readUInt32LE header 24 = Some R /\
  readUInt32LE header 28 = Some (2 * R) /\
  readUInt16LE header 32 = Some 2 /\
  readUInt16LE header 34 = Some 16 /\
  tag_at header 36 "data" /\
  readUInt32LE header 40 = Some N.

(** The container property as the specification words it, for a buffer
    and a sample rate. *)
Definition wav_as_specified (pcmBuffer : list Z) (sampleRate : Z) : Prop :=
  exists header,
    createWavFile pcmBuffer sampleRate = Some (header ++ pcmBuffer) /\
    header_fields header (Z.of_nat (length pcmBuffer)) sampleRate.

End Wav.

(** ** Several chapters in a row:
    [ChapterAudioGenerator.generateMultipleChapters] *)

Module Orchestrator.

Import Synthesis.

(** What the run does that can be observed: console lines (without the
    colours, the emoji and the leading line break of the source), the
    3-second timer, and the calls of [generateChapterAudio]. *)
Inductive event :=
| ConsoleLog (line : jsstring)
| ConsoleError (line : jsstring) (error : Error)
| Timeout (ms : Z)
| GenerateChapterAudio (identifier : jsstring).

(** The audio files on disk and what has been observed so far. *)
Record World := {
  files : list jsstring;
  console : list event
}.

Definition emit (w : World) (e : event) : World :=
  {| files := files w; console := console w ++ [e] |}.

(** A number in a template literal. *)
Definition decimal (n : nat) : jsstring := str (pretty n).

Section GenerateMultiple.

(** [this.generateChapterAudio(identifier)] on the audio files present:
    the files it leaves, and [None] when it resolves or the error when it
    throws. *)
Variable generateChapterAudio :
  jsstring -> list jsstring -> list jsstring * option Error.

(** The body of [for (let i = 0; i < chapterIdentifiers.length; i++)] on
    the identifiers from index [i] on. *)
Fixpoint chapters_loop (total i : nat) (rest : list jsstring) (w : World)
  : World :=
  match rest with
  | [] => w
  | identifier :: rest' =>
    let w := emit w (ConsoleLog
      (str "[" ++ decimal (i + 1) ++ str "/" ++ decimal total
       ++ str "] Processing chapter: " ++ identifier)) in
    let w := emit w (GenerateChapterAudio identifier) in
    let '(files', result) := generateChapterAudio identifier (files w) in
    let w := {| files := files'; console := console w |} in
    let w :=
      match result with
      | None =>
        if i <? total - 1 then
          emit (emit w (ConsoleLog
                  (str "Waiting 3 seconds before next chapter...")))
               (Timeout 3000)
        else w
      | Some error =>
        emit w (ConsoleError
          (str "Failed to generate audio for chapter " ++ identifier
           ++ str ":") error)
      end in
    chapters_loop total (i + 1) rest' w
  end.

Definition generateMultipleChapters (chapterIdentifiers : list jsstring)
  (w : World) : World :=
  let total := length chapterIdentifiers in
  let w := emit w (ConsoleLog
    (str "Generating audio for " ++ decimal total ++ str " chapters")) in
  let w := chapters_loop total 0 chapterIdentifiers w in
  emit w (ConsoleLog (str "Batch processing completed!")).

End GenerateMultiple.

(** The identifiers handed to [generateChapterAudio], in order. *)
Fixpoint calls (trace : list event) : list jsstring :=
  match trace with
  | [] => []
  | GenerateChapterAudio identifier :: trace' => identifier :: calls trace'
  | _ :: trace' => calls trace'
  end.

(** The console lines written with [console.log], in order. *)
Fixpoint logged (trace : list event) : list jsstring :=
  match trace with
  | [] => []
  | ConsoleLog line :: trace' => line :: logged trace'
  | _ :: trace' => logged trace'
  end.

Definition synthesis_failed : Error :=
  {| response_status := Some 500%Z;
     message := Some (str "Request failed with status code 500") |}.

(** A book in which the synthesis of chapter 2 fails for good while
    chapters 1 and 3 are synthesized. *)
Definition chapter_2_fails (identifier : jsstring) (present : list jsstring)
  : list jsstring * option Error :=
  if bool_decide (identifier = str "1")
  then (present ++ [str "01-one.wav"], None)
  else if bool_decide (identifier = str "2")
  then (present, Some synthesis_failed)
  else if bool_decide (identifier = str "3")
  then (present ++ [str "03-three.wav"], None)
  else (present, None).

End Orchestrator.

(** ** File names: [sanitizeFilename], the audio file of a chapter, the
    chapter files of the converter *)

Module Naming.

Import Regex Resolver.

(** [\w] *)
Definition is_word (c : char) : bool :=
  is_digit c || ((97 <=? c) && (c <=? 122))%N
  || ((65 <=? c) && (c <=? 90))%N || ch_eqb c (chr "_").

Definition HYPHEN : char := chr "-".

Definition is_hyphen (c : char) : bool := ch_eqb c HYPHEN.

(** [/[^\w\s-]/], replaced by the empty string. *)
Definition rx_special : matcher := fun _ s =>
  match s with
  | c :: _ =>
    if is_word c || is_space c || is_hyphen c then None else Some ([], 1)
  | [] => None
  end.

(** [/\s+/], replaced by a hyphen. *)
Definition rx_space_run : matcher := fun _ s =>
  match takeWhile is_space s with
  | [] => None
  | (_ :: _) as run => Some ([HYPHEN], length run)
  end.

(** [/-+/], replaced by a hyphen. *)
Definition rx_hyphens : matcher := fun _ s =>
  match takeWhile is_hyphen s with
  | [] => None
  | (_ :: _) as run => Some ([HYPHEN], length run)
  end.

Section Sanitize.

(** [String.prototype.toLowerCase], the built-in of the host. *)
Variable toLowerCase : jsstring -> jsstring.

(** [sanitizeFilename] of [UnifiedAudioGenerator], [ChapterAudioGenerator]
    and [BookProcessor] (the three copies are the same). *)
Definition sanitizeFilename (text : jsstring) : jsstring :=
  trim (replaceAll rx_hyphens
          (replaceAll rx_space_run
             (replaceAll rx_special (toLowerCase text)))).

End Sanitize.

(** [String(n)] for an integer. *)
Definition String_of_int (n : Z) : jsstring := str (pretty n).

(** [s.padStart(2, "0")] *)
Definition padStart2 (s : jsstring) : jsstring :=
  replicate (2 - length s) (chr "0") ++ s.

Section AudioFiles.

Variable toLowerCase : jsstring -> jsstring.

(** The name of the audio file of a chapter in [generateBookAudio]. *)
Definition audioFilename (chapter : Chapter) (audioExtension : jsstring)
  : jsstring :=
  padStart2 (String_of_int (order chapter)) ++ str "-"
  ++ sanitizeFilename toLowerCase (title chapter) ++ str "."
  ++ audioExtension.

(** [listChapters]: [existingAudio.some(file =>
    file.startsWith(chapterNumber))]. *)
Definition hasAudio (existingAudio : list jsstring) (chapter : Chapter)
  : bool :=
  let chapterNumber := padStart2 (String_of_int (order chapter)) in
  existsb (fun file => startsWith chapterNumber file) existingAudio.

End AudioFiles.

(** [ProcessingConfig.chapterNaming] *)
Inductive ChapterNaming := numbered | titled | both.

(** An entry of [epub.flow]: its id and its title, if any. *)
Record FlowItem := {
  flow_id : jsstring;
  flow_title : option jsstring
}.

(** [x || d] for an optional string. *)
Definition title_or (x : option jsstring) (d : jsstring) : jsstring :=
  match x with
  | Some ((_ :: _) as v) => v
  | _ => d
  end.

Section ChapterFiles.

Variable toLowerCase : jsstring -> jsstring.
Variable chapterNaming : ChapterNaming.

(** [BookProcessor.generateChapterFilename], without the extension. *)
Definition chapterFileStem (chapter : FlowItem) (index : nat) : jsstring :=
  let chapterNum := padStart2 (String_of_int (Z.of_nat (index + 1))) in
  match chapterNaming with
  | numbered => chapterNum
  | titled | both =>
    let title :=
      title_or (flow_title chapter)
        (str "chapter-" ++ String_of_int (Z.of_nat (index + 1))) in
    let sanitizedTitle := sanitizeFilename toLowerCase title in
    match chapterNaming with
    | both => chapterNum ++ str "-" ++ sanitizedTitle
    | _ => sanitizedTitle
    end
  end.

Definition generateChapterFilename (chapter : FlowItem) (index : nat)
  : jsstring :=
  chapterFileStem chapter index ++ str ".md".

(** The loop of [convertEpubToMarkdown] that fills [chapters], on the flow
    items from index [i] on. *)
Fixpoint build_chapters (i : nat) (flow : list FlowItem) : list Chapter :=
  match flow with
  | [] => []
  | chapterData :: flow' =>
    {| id := flow_id chapterData;
       title := title_or (flow_title chapterData)
                  (str "Chapter " ++ String_of_int (Z.of_nat (i + 1)));
       order := Z.of_nat (i + 1);
       filename := generateChapterFilename chapterData i |}
    :: build_chapters (i + 1) flow'
  end.

(** The table of contents that [convertEpubToMarkdown] writes. *)
Definition build_toc (metadata : BookMetadata) (flow : list FlowItem)
  : TableOfContents :=
  {| book := metadata; chapters := build_chapters 0 flow |}.

End ChapterFiles.

(** [s.replace(pattern, replacement)] with a string pattern: the first
    occurrence only. *)
Fixpoint replaceFirst (pattern replacement s : jsstring) : jsstring :=
  if startsWith pattern s then replacement ++ drop (length pattern) s
  else match s with
       | [] => []
       | c :: s' => c :: replaceFirst pattern replacement s'
       end.

(** [generateTextVersions]: [chapter.filename.replace(".md", ".txt")] *)
Definition textFilename (filename : jsstring) : jsstring :=
  replaceFirst (str ".md") (str ".txt") filename.

End Naming.

(** ** Provider validation and credentials:
    [ConfigManager.validateProviderConfig], [getAuthHeaders] *)

Module Validation.

Import Config.

(** The catalogue and credential part of [TTSProviderConfig], which the
    record [Config.TTSProviderConfig] leaves out: [auth.api_key_env],
    [auth.headers], and the ids of [voices], [models] and
    [audio.supported_formats]. *)
Record ProviderCatalog := {
  api_key_env : string;
  auth_headers : gmap string jsstring;
  voices : list jsstring;
  models : list jsstring;
  supported_formats : list jsstring
}.

Definition googleCatalog : ProviderCatalog := {|
  api_key_env := "GOOGLE_API_KEY";
  auth_headers := {[ "Content-Type" := str "application/json" ]};
  voices := [str "Kore"; str "Puck"; str "Charon"; str "Fenrir";
             str "Aoede"];
  models := [str "gemini-2.5-flash-preview-tts"];
  supported_formats := [str "audio/wav"; str "audio/mp3"; str "audio/L16"]
|}.

Definition openaiCatalog : ProviderCatalog := {|
  api_key_env := "OPENAI_API_KEY";
  auth_headers := {[ "Content-Type" := str "application/json" ]};
  voices := [str "alloy"; str "echo"; str "fable"; str "onyx"; str "nova";
             str "shimmer"];
  models := [str "tts-1"; str "tts-1-hd"];
  supported_formats := [str "mp3"; str "opus"; str "aac"; str "flac"]
|}.

(** The same keys as [Config.providers]: the two halves of one entry of
    [ConfigManager.providers]. *)
Definition catalogs : gmap string ProviderCatalog :=
  <["google" := googleCatalog]> (<["openai" := openaiCatalog]> ∅).

(** [getProviderConfig] with both halves; [None] is the thrown error. *)
Definition getFullConfig (provider : TTSProvider)
  : option (TTSProviderConfig * ProviderCatalog) :=
  config ← getProviderConfig provider;
  catalog ← catalogs !! provider_name provider;
  Some (config, catalog).

(** [process.env[name]] when it is truthy: set and not empty. *)
Definition env_key (env : gmap string jsstring) (name : string)
  : option jsstring :=
  match env !! name with
  | Some ((_ :: _) as apiKey) => Some apiKey
  | _ => None
  end.

(** The entries of [errors]; each stands for the message of the source
    with the same parameters. *)
Inductive ValidationError :=
| MissingApiKey (env_name : string)
| DefaultVoiceNotFound (voice : jsstring)
| DefaultModelNotFound (model : jsstring)
| DefaultFormatNotFound (format : jsstring)
| ConfigurationError.

(** [list.find(x => x.id === wanted)] is defined. *)
Definition has_id (ids : list jsstring) (wanted : jsstring) : bool :=
  existsb (fun x => bool_decide (x = wanted)) ids.

Record ValidationResult := {
  valid : bool;
  errors : list ValidationError
}.

Definition validateProviderConfig (env : gmap string jsstring)
  (provider : TTSProvider) : ValidationResult :=
  let errors :=
    match getFullConfig provider with
    | Some (config, catalog) =>
      let errors := [] in
      let errors :=
        match env_key env (api_key_env catalog) with
        | Some _ => errors
        | None => errors ++ [MissingApiKey (api_key_env catalog)]
        end in
      let errors :=
        if has_id (voices catalog) (voice (default_settings config))
        then errors
        else errors
             ++ [DefaultVoiceNotFound (voice (default_settings config))] in
      let errors :=
        if has_id (models catalog) (model (default_settings config))
        then errors
        else errors
             ++ [DefaultModelNotFound (model (default_settings config))] in
      let errors :=
        if has_id (supported_formats catalog)
             (format (default_settings config))
        then errors
        else errors
             ++ [DefaultFormatNotFound (format (default_settings config))]
      in
      errors
    | None => [ConfigurationError]
    end in
  {| valid := bool_decide (length errors = 0); errors := errors |}.

(** [getAuthHeaders]; [None] is a thrown error (provider not registered,
    or API key missing). *)
Definition getAuthHeaders (env : gmap string jsstring)
  (provider : TTSProvider) : option (gmap string jsstring) :=
  '(config, catalog) ← getFullConfig provider;
  apiKey ← env_key env (api_key_env catalog);
  let headers := auth_headers catalog in
  Some match provider with
       | google => <["x-goog-api-key" := apiKey]> headers
       | openai => <["Authorization" := str "Bearer " ++ apiKey]> headers
       | elevenlabs => headers
       end.

End Validation.

(** ** One text to one audio file:
    [UnifiedAudioGenerator.generateAudioForText] and
    [concatenateAudioFiles] *)

Module Pipeline.

Import Synthesis.

(** The disk: the content of each file that exists, by path.
    [fs.writeFile] is an insertion, [fs.readFile] a lookup that rejects
    for a missing file, [fs.remove] a deletion that accepts a missing
    file. *)

(** What [fs.readFile] rejects with for a missing file. *)
Definition no_such_file : Error :=
  {| response_status := None;
     message := Some (str "ENOENT: no such file or directory") |}.

Inductive result :=
| Resolved
| Rejected (error : Error).

(** What [fs.readFile] rejects with for a missing input. *)
Definition enoent_open (path : jsstring) : Error :=
  {| response_status := None;
     message := Some (str "ENOENT: no such file or directory, open '"
                      ++ path ++ str "'") |}.

(** [`${error}`] for an [Error] object: its name, and its message when it
    has one. *)
Definition error_toString (error : Error) : jsstring :=
  match message error with
  | Some ((_ :: _) as m) => str "Error: " ++ m
  | _ => str "Error"
  end.

(** The [for] loop of [concatenateAudioFiles] that reads the inputs; the
    first missing input rejects. *)
Fixpoint read_all (disk : gmap (list N) (list Z)) (inputPaths : list jsstring)
  : Error + list (list Z) :=
  match inputPaths with
  | [] => inr []
  | inputPath :: rest =>
    match disk !! inputPath with
    | None => inl (enoent_open inputPath)
    | Some chunk =>
      match read_all disk rest with
      | inl error => inl error
      | inr chunks => inr (chunk :: chunks)
      end
    end
  end.

(** The second argument of [this.log]. *)
Inductive level := level_info | level_error | level_warn.

(** [level.toUpperCase()] *)
Definition level_name (l : level) : jsstring :=
  match l with
  | level_info => str "INFO"
  | level_error => str "ERROR"
  | level_warn => str "WARN"
  end.

(** [fs.appendFile(path, data)]: the data after what the file holds, or a
    new file. *)
Definition appendFile (disk : gmap (list N) (list Z)) (path : jsstring)
  (data : list Z) : gmap (list N) (list Z) :=
  <[path := default [] (disk !! path) ++ data]> disk.

Section Logging.

(** [this.logFile], the [new Date().toISOString()] of the call, and the
    UTF-8 encoding of a string that is written to a file. *)
Variable logFile : jsstring.
Variable timestamp : jsstring.
Variable utf8 : jsstring -> list Z.

(** [this.log(message, level)], as far as files go: one line appended to
    the log file.  (It also prints the message.) *)
Definition log (disk : gmap (list N) (list Z)) (message : jsstring)
  (l : level) : gmap (list N) (list Z) :=
  let logMessage :=
    str "[" ++ timestamp ++ str "] " ++ level_name l ++ str ": "
    ++ message ++ [Regex.LF] in
  appendFile disk logFile (utf8 logMessage).

(** [concatenateAudioFiles]: [Buffer.concat] of the inputs, in order,
    written to the output, and a line in the log; a missing input
    rejects before the output is written, after a line in the log. *)
Definition concatenateAudioFiles (disk : gmap (list N) (list Z))
  (inputPaths : list jsstring) (outputPath : jsstring)
  : gmap (list N) (list Z) * result :=
  match read_all disk inputPaths with
  | inr chunks =>
    let concatenated := concat chunks in
    let disk := <[outputPath := concatenated]> disk in
    (log disk
       (str "Concatenated " ++ Orchestrator.decimal (length inputPaths)
        ++ str " audio chunks") level_info,
     Resolved)
  | inl e =>
    (log disk (str "Error concatenating audio files: " ++ error_toString e)
       level_error,
     Rejected e)
  end.

End Logging.

(** What a run does besides writing files, in order. *)
Inductive event :=
| SynthesizeChunk (text : jsstring) (outputPath : jsstring)
| RateLimitDelay (ms : Z).

Record State := {
  disk : gmap (list N) (list Z);
  trace : list event
}.

Definition emit (st : State) (e : event) : State :=
  {| disk := disk st; trace := trace st ++ [e] |}.

Section GenerateAudioForText.

(** [this.options.chunk_size] and [this.options.rate_limit_delay] *)
Variable chunk_size : nat.
Variable rate_limit_delay : Z.

(** The log file, the time of the one call of [this.log], and the
    encoding, as in [log]. *)
Variable logFile : jsstring.
Variable timestamp : jsstring.
Variable utf8 : jsstring -> list Z.

(** [this.generateSingleAudio(text, outputPath)] on a disk: the disk it
    leaves and whether it resolved. *)
Variable generateSingleAudio :
  jsstring -> jsstring -> gmap (list N) (list Z)
  -> gmap (list N) (list Z) * result.

(** The temporary file of chunk [i]:
    [path.join(tempDir, `chunk_${Date.now()}_${i}.${extension}`)]. *)
Variable chunkPath : nat -> jsstring.




End GenerateAudioForText.



End Pipeline.

(** ** A whole book: the chapter loop of
    [UnifiedAudioGenerator.generateBookAudio] *)

Module Book.

Import Resolver Pipeline.

(** What the loop does, in order: the warning for a chapter without a
    source file, the generation of a chapter into its audio file, and the
    wait after it. *)
Inductive event :=
| WarnMissing (filename : jsstring)
| GenerateChapter (chapter : Chapter) (audioFilename : jsstring)
| ChapterDelay (ms : Z).

Section GenerateBookAudio.

(** The state of the world that the generation of a chapter works on. *)
Variable World : Type.

Variable toLowerCase : jsstring -> jsstring.

(** [this.config.audio.default_format.extension] and
    [this.options.rate_limit_delay] *)
Variable audioExtension : jsstring.
Variable rate_limit_delay : Z.

(** [fs.pathExists(chapterPath)] for the source file of a chapter. *)
Variable sourceExists : Chapter -> World -> bool.

(** [this.generateChapterAudio(chapterPath, audioPath, ...)] *)
Variable generateChapterAudio :
  Chapter -> jsstring -> World -> World * result.

(** The loop [for (const chapter of toc.chapters)] that generates the
    chapter files. *)
Fixpoint chapters_loop (chapters : list Chapter) (w : World)
  (trace : list event) : World * list event * result :=
  match chapters with
  | [] => (w, trace, Resolved)
  | chapter :: rest =>
    if negb (sourceExists chapter w)
    then chapters_loop rest w (trace ++ [WarnMissing (filename chapter)])
    else
      let audioFilename :=
        Naming.audioFilename toLowerCase chapter audioExtension in
      let trace := trace ++ [GenerateChapter chapter audioFilename] in
      match generateChapterAudio chapter audioFilename w with
      | (w', Rejected error) => (w', trace, Rejected error)
      | (w', Resolved) =>
        chapters_loop rest w' (trace ++ [ChapterDelay rate_limit_delay])
      end
  end.

End GenerateBookAudio.

(** The chapters handed to [generateChapterAudio], in order. *)
Fixpoint generated (trace : list event) : list Chapter :=
  match trace with
  | [] => []
  | GenerateChapter chapter _ :: trace' => chapter :: generated trace'
  | _ :: trace' => generated trace'
  end.

(** The file names of the chapters that the loop has looked at, in
    order. *)
Fixpoint visited (trace : list event) : list jsstring :=
  match trace with
  | [] => []
  | WarnMissing name :: trace' => name :: visited trace'
  | GenerateChapter chapter _ :: trace' =>
    filename chapter :: visited trace'
  | ChapterDelay _ :: trace' => visited trace'
  end.

(** The waits after chapters, in order. *)
Fixpoint chapter_delays (trace : list event) : list Z :=
  match trace with
  | [] => []
  | ChapterDelay ms :: trace' => ms :: chapter_delays trace'
  | _ :: trace' => chapter_delays trace'
  end.

End Book.

(** ** Several books: the loops of [BatchProcessor] *)

Module Batch.

Import Regex.

(** [[a-z0-9]] *)
Definition is_lower_alnum (c : char) : bool :=
  is_digit c || ((97 <=? c) && (c <=? 122))%N.

(** [/[^a-z0-9]+/], replaced by a hyphen. *)
Definition rx_other_run : matcher := fun _ s =>
  match takeWhile (fun c => negb (is_lower_alnum c)) s with
  | [] => None
  | (_ :: _) as run => Some ([chr "-"], length run)
  end.

(** [bookName.toLowerCase().replace(/[^a-z0-9]+/g, "-")] in
    [processBook]. *)
Definition bookSlug (toLowerCase : jsstring -> jsstring)
  (bookName : jsstring) : jsstring :=
  replaceAll rx_other_run (toLowerCase bookName).

Section Sequential.

Variable World : Type.

(** [this.processBook(bookPath)]: the directory of the book, or [None]
    for [null]; it catches its own failures. *)
Variable processBook : jsstring -> World -> World * option jsstring.

Record Tally := {
  successful : nat;
  failed : nat
}.

(** The loop of [processBooksSequentially] on the books that are left;
    [processed] are the books handed to [processBook] so far. *)
Fixpoint books_loop (bookPaths : list jsstring) (w : World)
  (tally : Tally) (processed : list jsstring)
  : World * Tally * list jsstring :=
  match bookPaths with
  | [] => (w, tally, processed)
  | bookPath :: rest =>
    let '(w', result) := processBook bookPath w in
    let tally :=
      match result with
      | Some (_ :: _) =>
        {| successful := successful tally + 1; failed := failed tally |}
      | _ =>
        {| successful := successful tally; failed := failed tally + 1 |}
      end in
    books_loop rest w' tally (processed ++ [bookPath])
  end.

Definition processBooksSequentially (bookPaths : list jsstring) (w : World)
  : World * Tally * list jsstring :=
  books_loop bookPaths w {| successful := 0; failed := 0 |} [].

End Sequential.

(** [bookPaths.slice(a, b)] on an array, for [0 <= a], [0 <= b]. *)
Definition array_slice {A} (l : list A) (a b : nat) : list A :=
  take (b - a) (drop a l).

(** The batches of [processBooksConcurrently]:
    [for (let i = 0; i < bookPaths.length; i += maxConcurrent)] with
    [batch = bookPaths.slice(i, i + maxConcurrent)].  [None]: the fuel ran
    out, which for [fuel >= bookPaths.length] means that [i] does not
    advance ([maxConcurrent = 0]; the source then loops forever).
    [maxConcurrent] is a count: with a negative number or [NaN] the
    [new Array(maxConcurrent)] before the loop throws. *)
Fixpoint batches_from (fuel : nat) (bookPaths : list jsstring)
  (maxConcurrent i : nat) : option (list (list jsstring)) :=
  if length bookPaths <=? i then Some []
  else match fuel with
       | 0 => None
       | S fuel' =>
         let batch := array_slice bookPaths i (i + maxConcurrent) in
         rest ← batches_from fuel' bookPaths maxConcurrent
                  (i + maxConcurrent);
         Some (batch :: rest)
       end.

Definition batches (bookPaths : list jsstring) (maxConcurrent : nat)
  : option (list (list jsstring)) :=
  batches_from (length bookPaths) bookPaths maxConcurrent 0.

End Batch.

(** ** One chapter: [ChapterAudioGenerator.generateChapterAudio] *)

Module SingleChapter.

Import Regex Resolver Synthesis Pipeline.

(** The fields of [metadata.yml] that the function reads. *)
Record Metadata := {
  metadata_title : jsstring;
  metadata_author : jsstring
}.

Definition thrown (text : jsstring) : Error :=
  {| response_status := None; message := Some text |}.

Section GenerateChapterAudio.

(** The content of a file, and the text of it: [fs.readFile(path,
    "utf-8")] and [fs.writeFile(path, text)]. *)
Variable File : Type.
Variable utf8_decode : File -> jsstring.
Variable utf8_encode : jsstring -> File.

Variable toLowerCase : jsstring -> jsstring.

(** [this.provider] *)
Variable provider : Config.TTSProvider.

(** [YAML.parse], which throws on a malformed document, and
    [YAML.stringify]. *)
Variable YAML_parse_metadata : jsstring -> Error + Metadata.
Variable YAML_parse_toc : jsstring -> Error + TableOfContents.
Variable YAML_stringify : TableOfContents -> jsstring.

(** [this.bookDir], whether it exists, and the paths made of it:
    [metadata.yml], [toc.yml], the backup [.toc-backup-<Date.now()>.yml]
    and the source file of a chapter.  The backup and [toc.yml] are two
    paths: their names differ. *)
Variable bookDir : jsstring.
Variable bookDirExists : bool.
Variables metadataPath tocPath backupTocPath : jsstring.
Variable chapterPath : Chapter -> jsstring.

(** [new UnifiedAudioGenerator(...).generateBookAudio()] and the report
    of the generated file after it, which only reads. *)
Variable generateBookAudio :
  gmap (list N) File -> gmap (list N) File * result.

Definition pathExists (disk : gmap (list N) File) (path : jsstring)
  : bool :=
  match disk !! path with
  | Some _ => true
  | None => false
  end.

Definition validateBook (disk : gmap (list N) File) : result :=
  if negb bookDirExists
  then Rejected (thrown (str "Book directory not found: " ++ bookDir))
  else if negb (pathExists disk metadataPath)
  then Rejected (thrown
    (str "Book metadata not found: " ++ metadataPath
     ++ [LF] ++ str "Run conversion first with: npm run convert"))
  else if negb (pathExists disk tocPath)
  then Rejected (thrown
    (str "Table of contents not found: " ++ tocPath
     ++ [LF] ++ str "Run conversion first with: npm run convert"))
  else Resolved.

Definition readFile (disk : gmap (list N) File) (path : jsstring)
  : Error + jsstring :=
  match disk !! path with
  | Some file => inr (utf8_decode file)
  | None => inl no_such_file
  end.

Definition loadBookData (disk : gmap (list N) File)
  : Error + (Metadata * TableOfContents) :=
  match readFile disk metadataPath with
  | inl error => inl error
  | inr text =>
    match YAML_parse_metadata text with
    | inl error => inl error
    | inr metadata =>
      match readFile disk tocPath with
      | inl error => inl error
      | inr text =>
        match YAML_parse_toc text with
        | inl error => inl error
        | inr toc => inr (metadata, toc)
        end
      end
    end
  end.

(** The method [findChapter]: it loads the book data again and resolves
    the identifier in the table of contents. *)
Definition findChapter (disk : gmap (list N) File) (identifier : jsstring)
  : Error + option Chapter :=
  match loadBookData disk with
  | inl error => inl error
  | inr (_, toc) => inr (Resolver.findChapter toLowerCase toc identifier)
  end.

(** What [ConfigManager.getProviderConfig] throws for a provider that is
    not registered; the registered ones are listed in the order of the
    registry. *)
Definition provider_not_found : Error :=
  thrown (str "Provider '" ++ str (Config.provider_name provider)
          ++ str "' not found. Available providers: google, openai").

Definition generateChapterAudio (disk : gmap (list N) File)
  (chapterIdentifier : jsstring) : gmap (list N) File * result :=
  match validateBook disk with
  | Rejected error => (disk, Rejected error)
  | Resolved =>
  match loadBookData disk with
  | inl error => (disk, Rejected error)
  | inr (metadata, _) =>
  (* the provider line of the banner:
     ConfigManager.getProviderConfig(this.provider).provider.display_name *)
  match Config.getProviderConfig provider with
  | None => (disk, Rejected provider_not_found)
  | Some _ =>
  match findChapter disk chapterIdentifier with
  | inl error => (disk, Rejected error)
  | inr None => (disk, Resolved)
  | inr (Some chapter) =>
    if negb (pathExists disk (chapterPath chapter))
    then (disk, Rejected (thrown
            (str "Chapter content not found: " ++ chapterPath chapter)))
    else
      let singleChapterToc :=
        {| book := {| book_title := metadata_title metadata;
                      author := metadata_author metadata;
                      totalChapters := 1 |};
           chapters := [chapter] |} in
      (* fs.copy(originalTocPath, backupTocPath) *)
      match disk !! tocPath with
      | None => (disk, Rejected no_such_file)
      | Some original =>
        let disk := <[backupTocPath := original]> disk in
        let disk :=
          <[tocPath := utf8_encode (YAML_stringify singleChapterToc)]>
            disk in
        (* try *)
        let '(disk, generated) := generateBookAudio disk in
        (* finally: fs.move(backupTocPath, originalTocPath,
           { overwrite: true }) *)
        match disk !! backupTocPath with
        | None => (disk, Rejected no_such_file)
        | Some backup =>
          (<[tocPath := backup]> (delete backupTocPath disk), generated)
        end
      end
  end
  end
  end
  end.

End GenerateChapterAudio.

End SingleChapter.

(** ** The properties of the specification, and data to try them on *)

(** A text of white space only. *)
Definition all_space (s : jsstring) : Prop :=
  Forall (fun c => is_space c = true) s.

(** What "the chunks reproduce the text up to white space at the cut
    points" means: the text is the chunks, in order, separated (and
    possibly preceded and followed) by runs of white space only. *)
Inductive interleaved : jsstring -> list jsstring -> Prop :=
| interleaved_nil gap :
    all_space gap -> interleaved gap []
| interleaved_cons gap chunk rest chunks :
    all_space gap ->
    interleaved rest chunks ->
    interleaved (gap ++ chunk ++ rest) (chunk :: chunks).

(** The chunker property as the specification words it: the call returns,
    every chunk has at most [m] code units, no chunk is empty, and the
    chunks reproduce the text up to white space at the cut points. *)
Definition chunks_as_specified (t : jsstring) (m : nat) : Prop :=
  exists chunks,
    Chunker.splitTextIntoChunks t m = Some chunks /\
    Forall (fun c => length c <= m) chunks /\
    Forall (fun c => c <> []) chunks /\
    interleaved t chunks.

(** [r] is the first element of [l] that satisfies [p], or [None] when
    there is none. *)
Definition first_match {A} (p : A -> bool) (l : list A) (r : option A)
  : Prop :=
  match r with
  | Some x =>
    exists before after,
      l = before ++ x :: after /\ p x = true /\
      Forall (fun y => p y = false) before
  | None => Forall (fun y => p y = false) l
  end.

(** [sub] occurs in [s]: some code units, then [sub], then the rest. *)
Definition contains (s sub : jsstring) : Prop :=
  exists pre post, s = pre ++ sub ++ post.

(** [r] is the first element of [l] with the property [P], or [None] when
    no element has it. *)
Definition first_where {A} (P : A -> Prop) (l : list A) (r : option A)
  : Prop :=
  match r with
  | Some x =>
    exists before after,
      l = before ++ x :: after /\ P x /\ Forall (fun y => ~ P y) before
  | None => Forall (fun y => ~ P y) l
  end.

(** A chapter answers an identifier, as the specification words it: by
    its order when the identifier reads as a number, and otherwise by its
    title, which must contain the identifier, both in lower case. *)
Definition answers_to (toLowerCase : jsstring -> jsstring)
  (identifier : jsstring) (ch : Resolver.Chapter) : Prop :=
  match Resolver.parseInt identifier with
  | Some n => Resolver.order ch = n
  | None =>
    contains (toLowerCase (Resolver.title ch)) (toLowerCase identifier)
  end.

(** The option merge as the specification words it: a field missing from
    the overrides takes the provider's default, a supplied one is used as
    given. *)
Definition as_given {A} (override : option A) (default result : A) : Prop :=
  match override with
  | Some v => result = v
  | None => result = default
  end.

Definition options_as_specified (provider : Config.TTSProvider)
  (options : Config.ChapterAudioOptions) : Prop :=
  exists config eff,
    Config.getProviderConfig provider = Some config /\
    Config.getEffectiveOptions provider options = Some eff /\
    as_given (Config.opt_voice options)
      (Config.voice (Config.default_settings config)) (Config.eff_voice eff) /\
    as_given (Config.opt_model options)
      (Config.model (Config.default_settings config)) (Config.eff_model eff) /\
    as_given (Config.opt_format options)
      (Config.format (Config.default_settings config))
      (Config.eff_format eff) /\
    as_given (Config.opt_chunk_size options)
      (Config.max_chunk_size (Config.processing config))
      (Config.eff_chunk_size eff) /\
    as_given (Config.opt_rate_limit_delay options)
      (Config.rate_limit_delay (Config.processing config))
      (Config.eff_rate_limit_delay eff).

(** What the merge does: the override when it is supplied and truthy, the
    default when it is missing or falsy. *)
Definition merged {A} (truthy : A -> Prop) (override : option A)
  (default result : A) : Prop :=
  (override = None -> result = default) /\
  (forall v, override = Some v -> truthy v -> result = v) /\
  (forall v, override = Some v -> ~ truthy v -> result = default).

(** The failure of a call that was answered with HTTP 429. *)
Definition too_many_requests : Synthesis.Error := {|
  Synthesis.response_status := Some 429%Z;
  Synthesis.message := Some (str "Request failed with status code 429")
|}.






(** A provider whose every call is answered with HTTP 429. *)
Definition always_rate_limited (_ : jsstring) (_ : nat)
  : option Synthesis.Error :=
  Some too_many_requests.



(** A provider configuration with [retry_attempts = 3] and
    [retry_delay = 1000]. *)
Definition three_retries : Config.TTSProviderConfig := {|
  Config.name := "openai";
  Config.default_extension := str "mp3";
  Config.processing := {|
    Config.max_text_length := 4096;
    Config.max_chunk_size := 3000;
    Config.rate_limit_delay := 1000;
    Config.max_concurrent_requests := 5;
    Config.retry_attempts := 3;
    Config.retry_delay := 1000
  |};
  Config.default_settings := Config.default_settings Config.openaiTTSConfig
|}.

(** ** Notions used to reason about the normalizer *)

(** The characters that start a markup construct of the normalizer:
    emphasis and list markers, brackets of links and footnotes. *)
Definition is_markup (c : char) : bool :=
  ch_eqb c (chr "*") || ch_eqb c (chr "[") || ch_eqb c (chr "(")
  || ch_eqb c (chr "-") || ch_eqb c (chr "+").

(** A text without markup characters. *)
Definition plain (s : jsstring) : Prop :=
  Forall (fun c => is_markup c = false) s.

(** What the normalizer takes for markup, in words.

    A footnote marker: the opening bracket, one or more digits, the
    closing bracket. *)
Definition has_footnote (open close : char) (s : jsstring) : Prop :=
  exists pre digits post,
    digits <> [] /\ Forall (fun c => is_digit c = true) digits /\
    s = pre ++ [open] ++ digits ++ [close] ++ post.

(** Emphasis: two asterisks with no line terminator between them. *)
Definition has_emphasis (s : jsstring) : Prop :=
  exists pre inner post,
    Forall (fun c => is_line_terminator c = false) inner /\
    s = pre ++ [chr "*"] ++ inner ++ [chr "*"] ++ post.

(** A link: a bracketed text without closing bracket and, right after
    it, a parenthesized address without closing parenthesis, neither of
    them empty. *)
Definition has_link (s : jsstring) : Prop :=
  exists pre text url post,
    text <> [] /\ Forall (fun c => c <> chr "]") text /\
    url <> [] /\ Forall (fun c => c <> chr ")") url /\
    s = pre ++ [chr "["] ++ text ++ [chr "]"; chr "("] ++ url
        ++ [chr ")"] ++ post.

(** A list marker: at the start of the text or of a line, white space if
    any, one of [-], [*] and [+], and white space after it. *)
Definition has_list_marker (s : jsstring) : Prop :=
  exists pre indent marker gap post,
    (pre = [] \/
     exists c, last pre = Some c /\ is_line_terminator c = true) /\
    Forall (fun c => is_space c = true) indent /\
    (marker = chr "-" \/ marker = chr "*" \/ marker = chr "+") /\
    is_space gap = true /\
    s = pre ++ indent ++ [marker; gap] ++ post.

(** A text without markup left in it, for the settings: no footnote
    marker when footnotes are removed, no emphasis, no link and no list
    marker. *)
Definition markup_free (settings : Normalizer.TextProcessing)
  (s : jsstring) : Prop :=
  (Normalizer.remove_footnotes settings = true ->
   ~ has_footnote (chr "[") (chr "]") s /\
   ~ has_footnote (chr "(") (chr ")") s) /\
  ~ has_emphasis s /\ ~ has_link s /\ ~ has_list_marker s.



(** A pattern never matches the empty string. *)
Definition productive (rx : Regex.matcher) : Prop :=
  forall prev s replacement n, rx prev s = Some (replacement, n) -> 1 <= n.

(** The run of white space at the start of a text has a line feed. *)
Definition lf_in_run (s : jsstring) : bool :=
  existsb Regex.is_lf (takeWhile is_space s).

(** No sentence terminator is followed by white space with a line feed. *)
Fixpoint joined (s : jsstring) : Prop :=
  match s with
  | [] => True
  | c :: s1 => (Regex.is_terminator c = true -> lf_in_run s1 = false)
               /\ joined s1
  end.

(** Neither a sentence terminator nor a line feed is followed by white
    space with a line feed: the three line-break patterns match nowhere. *)
Fixpoint settled (s : jsstring) : Prop :=
  match s with
  | [] => True
  | c :: s1 =>
    ((Regex.is_terminator c || Regex.is_lf c) = true -> lf_in_run s1 = false)
    /\ settled s1
  end.

Definition starts_nonspace (s : jsstring) : Prop :=
  match s with
  | [] => True
  | c :: _ => is_space c = false
  end.

(** All white space is single spaces between other characters. *)
Fixpoint single_spaced (s : jsstring) : Prop :=
  match s with
  | [] => True
  | c :: s1 =>
    (is_space c = true -> c = Regex.SP /\ starts_nonspace s1)
    /\ single_spaced s1
  end.

(** ** Further notions *)

(** What a file name is made of: word characters and hyphens. *)
Definition is_slug_char (c : char) : bool :=
  Naming.is_word c || Naming.is_hyphen c.

Definition starts_nonhyphen (s : jsstring) : Prop :=
  match s with
  | [] => True
  | d :: _ => Naming.is_hyphen d = false
  end.

(** No two hyphens in a row. *)
Fixpoint single_hyphens (s : jsstring) : Prop :=
  match s with
  | [] => True
  | c :: s1 =>
    (Naming.is_hyphen c = true -> starts_nonhyphen s1)
    /\ single_hyphens s1
  end.

(** A text that neither starts nor ends with white space. *)
Definition trimmed (s : jsstring) : Prop :=
  starts_nonspace s /\ starts_nonspace (reverse s).

(** The sum of the waits of a run. *)
Definition total_wait (trace : list Synthesis.event) : Q :=
  fold_right Qplus 0%Q (Synthesis.delays trace).

(** A provider whose first [j] calls are rate limited and whose later
    calls succeed. *)
Definition rate_limited_until (j : nat) (_ : jsstring) (n : nat)
  : option Synthesis.Error :=
  if n <? j then Some too_many_requests else None.

(** The only white space is U+0020. *)
Definition spaces_only (s : jsstring) : Prop :=
  Forall (fun c => is_space c = true -> c = Regex.SP) s.




(** A log file, a time of day and the encoding of ASCII text. *)
Definition sample_logFile : jsstring :=
  str "processing/logs/google/audio-generation.log".

Definition sample_timestamp : jsstring := str "2025-01-01T00:00:00.000Z".

Definition ascii_utf8 (s : jsstring) : list Z := map Z.of_N s.



(** Two chunk files that are WAV containers of two PCM bytes each, at
    24000 Hz. *)
Definition sample_wav (pcm : list Z) : list Z :=
  [82; 73; 70; 70; 38; 0; 0; 0; 87; 65; 86; 69; 102; 109; 116; 32;
   16; 0; 0; 0; 1; 0; 1; 0; 192; 93; 0; 0; 128; 187; 0; 0;
   2; 0; 16; 0; 100; 97; 116; 97; 2; 0; 0; 0]%Z ++ pcm.

Definition sample_wav_disk : gmap (list N) (list Z) :=
  <[str "c0" := sample_wav [7; 8]%Z]>
    (<[str "c1" := sample_wav [9; 10]%Z]> ∅).

(** Lower-case letters, digits and hyphens. *)
Definition is_book_slug_char (c : char) : bool :=
  Batch.is_lower_alnum c || Naming.is_hyphen c.

(** A book to try the chapter loop on: every source file exists, and the
    generation of the chapter of order 2 is rejected. *)
Definition second_chapter_fails (chapter : Resolver.Chapter)
  (_ : jsstring) (w : unit) : unit * Pipeline.result :=
  if (Resolver.order chapter =? 2)%Z
  then (w, Pipeline.Rejected Orchestrator.synthesis_failed)
  else (w, Pipeline.Resolved).

Definition every_chapter_succeeds (_ : Resolver.Chapter) (_ : jsstring)
  (w : unit) : unit * Pipeline.result :=
  (w, Pipeline.Resolved).

Definition sample_book_run
  (generate : Resolver.Chapter -> jsstring -> unit -> unit * Pipeline.result)
  : unit * list Book.event * Pipeline.result :=
  Book.chapters_loop unit Resolver.ascii_toLowerCase (str "wav") 10000
    (fun _ _ => true) generate (Resolver.chapters Resolver.sample_toc) tt [].

(** What the chapter loop does for one chapter: for a chapter whose
    source file is present the generation into its audio file and then
    the wait, for another one the warning. *)
Definition chapter_steps (toLowerCase : jsstring -> jsstring)
  (audioExtension : jsstring) (rate_limit_delay : Z)
  (chapter : Resolver.Chapter) (present : bool) : list Book.event :=
  if present
  then [Book.GenerateChapter chapter
          (Naming.audioFilename toLowerCase chapter audioExtension);
        Book.ChapterDelay rate_limit_delay]
  else [Book.WarnMissing (Resolver.filename chapter)].

(** The same book without the source file of the chapter of order 9. *)
Definition sample_book_run_incomplete
  : unit * list Book.event * Pipeline.result :=
  Book.chapters_loop unit Resolver.ascii_toLowerCase (str "wav") 10000
    (fun chapter _ => negb (Resolver.order chapter =? 9)%Z)
    every_chapter_succeeds (Resolver.chapters Resolver.sample_toc) tt [].

(** A book directory to try the generation of one chapter on, with a
    generator that is rejected. *)
Definition sample_book_disk : gmap (list N) (list N) :=
  <[str "/b/metadata.yml" := str "title: Mythos"]>
    (<[str "/b/toc.yml" := str "chapters: 4"]>
       (<[str "/b/content/chapters/ch.md" := str "Chaos."]> ∅)).

Definition generation_rejected (disk : gmap (list N) (list N))
  : gmap (list N) (list N) * Pipeline.result :=
  (disk, Pipeline.Rejected Orchestrator.synthesis_failed).

Definition sample_generateChapterAudio (provider : Config.TTSProvider)
  : gmap (list N) (list N) -> jsstring
    -> gmap (list N) (list N) * Pipeline.result :=
  SingleChapter.generateChapterAudio (list N) (fun file => file)
    (fun text => text) Resolver.ascii_toLowerCase provider
    (fun _ => inr {| SingleChapter.metadata_title := str "Mythos";
                     SingleChapter.metadata_author := str "S. Fry" |})
    (fun _ => inr Resolver.sample_toc)
    (fun _ => str "chapters: 1")
    (str "/b") true (str "/b/metadata.yml") (str "/b/toc.yml")
    (str "/b/.toc-backup-1.yml")
    (fun chapter =>
       str "/b/content/chapters/" ++ Resolver.filename chapter)
    generation_rejected.



(** The shipped settings with [normalize_whitespace] off. *)
Definition whitespace_kept : Normalizer.TextProcessing := {|
  Normalizer.clean_markdown := true;
  Normalizer.remove_footnotes := true;
  Normalizer.normalize_whitespace := false;
  Normalizer.sentence_splitting := true;
  Normalizer.paragraph_splitting := false
|}.

(** A flow of two items, the second without a title, and an environment
    that holds the key of one provider. *)
Definition sample_flow : list Naming.FlowItem :=
  [{| Naming.flow_id := str "intro";
      Naming.flow_title := Some (str "Out of CHAOS") |};
   {| Naming.flow_id := str "item2"; Naming.flow_title := None |}].

Definition sample_env : gmap string jsstring :=
  {[ "OPENAI_API_KEY" := str "sk-test" ]}.
(* ================================================================== *)
(** * Theorems *)

(** ** Strings *)

Section StringFacts.

Context {A : Type} (p : A -> bool).

Lemma takeWhile_dropWhile (l : list A) :
  takeWhile p l ++ dropWhile p l = l.
Proof.
  induction l as [|x l IH]; simpl; [done|].
  destruct (p x); simpl; [by rewrite IH | done].
Qed.

Lemma takeWhile_Forall (l : list A) :
  Forall (fun x => p x = true) (takeWhile p l).
Proof.
  induction l as [|x l IH]; simpl; [constructor|].
  destruct (p x) eqn:E; [by constructor | constructor].
Qed.

Lemma dropWhile_length (l : list A) : length (dropWhile p l) <= length l.
Proof.
  induction l as [|x l IH]; simpl; [lia|].
  destruct (p x); simpl; lia.
Qed.

Lemma dropWhile_head (l : list A) x l' :
  dropWhile p l = x :: l' -> p x = false.
Proof.
  induction l as [|y l IH]; simpl; [done|].
  destruct (p y) eqn:E; [done|]. by intros [= -> _].
Qed.

Lemma dropWhile_nil_Forall (l : list A) :
  dropWhile p l = [] -> Forall (fun x => p x = true) l.
Proof.
  induction l as [|y l IH]; simpl; [constructor|].
  destruct (p y) eqn:E; [|done]. intros H. constructor; auto.
Qed.

End StringFacts.

Lemma all_space_nil : all_space [].
Proof. constructor. Qed.

Lemma all_space_app (a b : jsstring) :
  all_space a -> all_space b -> all_space (a ++ b).
Proof. intros Ha Hb. by apply Forall_app. Qed.

Lemma trim_decompose (s : jsstring) :
  exists l r, s = l ++ trim s ++ r /\ all_space l /\ all_space r.
Proof.
  exists (takeWhile is_space s),
         (reverse (takeWhile is_space (reverse (trimStart s)))).
  split; [|split].
  - unfold trim, trimEnd.
    rewrite <- reverse_app, takeWhile_dropWhile, reverse_involutive.
    unfold trimStart. by rewrite takeWhile_dropWhile.
  - apply takeWhile_Forall.
  - apply Forall_reverse, takeWhile_Forall.
Qed.

Lemma trim_length (s : jsstring) : length (trim s) <= length s.
Proof.
  unfold trim, trimEnd, trimStart. rewrite length_reverse.
  etrans; [apply dropWhile_length|]. rewrite length_reverse.
  apply dropWhile_length.
Qed.

Lemma trim_nil_all_space (s : jsstring) : trim s = [] -> all_space s.
Proof.
  intros H. destruct (trim_decompose s) as (l & r & E & Hl & Hr).
  rewrite H in E. rewrite E. simpl. by apply all_space_app.
Qed.

Lemma slice_length (s : jsstring) a b : length (slice s a b) <= b - a.
Proof. unfold slice. rewrite length_take. lia. Qed.

Lemma take_slice (s : jsstring) a b :
  a <= b -> take b s = take a s ++ slice s a b.
Proof.
  intros H. unfold slice. rewrite take_take_drop. f_equal. lia.
Qed.

(** ** Chunker *)

Section ChunkerFacts.

Import Chunker.

Lemma interleaved_gap_r text chunks gap :
  interleaved text chunks -> all_space gap ->
  interleaved (text ++ gap) chunks.
Proof.
  induction 1 as [g Hg | g c rest cs Hg Hrest IH]; intros Hgap.
  - constructor. by apply all_space_app.
  - rewrite <- !app_assoc. constructor; auto.
Qed.

Lemma interleaved_snoc text chunks gap chunk :
  interleaved text chunks -> all_space gap ->
  interleaved (text ++ gap ++ chunk) (chunks ++ [chunk]).
Proof.
  induction 1 as [g Hg | g c rest cs Hg Hrest IH]; intros Hgap.
  - simpl. rewrite app_assoc.
    replace chunk with (chunk ++ []) at 1 by apply app_nil_r.
    constructor; [by apply all_space_app|]. constructor. apply all_space_nil.
  - simpl. rewrite <- !app_assoc. constructor; auto.
Qed.

Lemma search_break_bound text start m i b :
  search_break text start m i = Some b -> b <= i + 1.
Proof.
  induction i as [|i IH]; simpl.
  - destruct (_ <? _); [done|]. destruct (is_sentence_end _ _); [|done].
    intros [= <-]. lia.
  - destruct (_ <? _); [done|]. destruct (is_sentence_end _ _).
    + intros [= <-]. lia.
    + intros H. apply IH in H. lia.
Qed.

Lemma next_end_bounds text m start :
  0 < m -> start < next_end text m start <= start + m + 1.
Proof.
  intros Hm. unfold next_end.
  destruct (_ <? length text); [|lia].
  destruct (search_break _ _ _ _) as [b|] eqn:E; [|lia].
  apply search_break_bound in E.
  destruct (start <? b) eqn:Hb; [|lia].
  apply Nat.ltb_lt in Hb. lia.
Qed.

(** The loop invariant: the chunks emitted so far interleave the prefix
    of the text that has been consumed. *)
Lemma chunk_loop_spec fuel : forall text m start chunks,
  0 < m ->
  length text - start <= fuel ->
  Forall (fun c => c <> []) chunks ->
  Forall (fun c => length c <= m + 1) chunks ->
  interleaved (take start text) chunks ->
  exists out,
    chunk_loop fuel text m start chunks = Some out /\
    Forall (fun c => c <> []) out /\
    Forall (fun c => length c <= m + 1) out /\
    interleaved text out.
Proof.
  induction fuel as [|fuel IH];
    intros text m start chunks Hm Hfuel Hne Hlen Hil;
    simpl; destruct (length text <=? start) eqn:Hdone.
  - apply Nat.leb_le in Hdone. rewrite take_ge in Hil by done. eauto.
  - apply Nat.leb_gt in Hdone. lia.
  - apply Nat.leb_le in Hdone. rewrite take_ge in Hil by done. eauto.
  - apply Nat.leb_gt in Hdone.
    pose proof (next_end_bounds text m start Hm) as [Hlo Hhi].
    set (e := next_end text m start) in *.
    pose proof (slice_length text start e) as Hsl.
    pose proof (trim_length (slice text start e)) as Htl.
    destruct (trim_decompose (slice text start e)) as (l & r & E & Hl & Hr).
    assert (Htake : take e text
                    = take start text ++ l ++ trim (slice text start e) ++ r).
    { rewrite (take_slice text start e) by lia. by rewrite <- E. }
    apply IH; [done|lia| | |].
    + destruct (0 <? _) eqn:H0; [|done]. apply Nat.ltb_lt in H0.
      apply Forall_app. split; [done|]. constructor; [|done].
      intros Hnil. rewrite Hnil in H0. simpl in H0. lia.
    + destruct (0 <? _); [|done]. apply Forall_app. split; [done|].
      constructor; [lia|done].
    + rewrite Htake. destruct (0 <? _) eqn:H0.
      * rewrite !app_assoc. apply interleaved_gap_r; [|done].
        rewrite <- app_assoc. by apply interleaved_snoc.
      * apply Nat.ltb_ge in H0.
        assert (trim (slice text start e) = []) as ->
          by (apply length_zero_iff_nil; lia).
        simpl. apply interleaved_gap_r; [|by apply all_space_app]. done.
Qed.

Lemma filter_nonempty_id (chunks : list jsstring) :
  Forall (fun c => c <> []) chunks -> List.filter nonempty chunks = chunks.
Proof.
  induction 1 as [|c cs Hc _ IH]; simpl; [done|].
  destruct c; [done|]. simpl. by rewrite IH.
Qed.

End ChunkerFacts.

Section ChunkerTheorems.

Import Chunker.

Example splitTextIntoChunks_sentence_cut :
  splitTextIntoChunks (str "abcdefgh. ijk lmn") 10
  = Some [str "abcdefgh."; str "ijk lmn"].
Proof. vm_compute. reflexivity. Qed.

Example splitTextIntoChunks_hard_cut :
  splitTextIntoChunks (str "abcdefghijklm") 5
  = Some [str "abcde"; str "fghij"; str "klm"].
Proof. vm_compute. reflexivity. Qed.

(** C8: a text no longer than the chunk size is returned as the single
    chunk, verbatim: not trimmed and not dropped when it is empty or white
    space only. *)
Theorem splitTextIntoChunks_short (t : jsstring) (m : nat) :
  length t <= m -> splitTextIntoChunks t m = Some [t].
Proof.
  intros H. unfold splitTextIntoChunks.
  apply Nat.leb_le in H. by rewrite H.
Qed.

Lemma splitTextIntoChunks_short_witness :
  splitTextIntoChunks [] 0 = Some [[]] /\
  splitTextIntoChunks (str "  ") 3000 = Some [str "  "].
Proof.
  split.
  - apply (splitTextIntoChunks_short [] 0). simpl. lia.
  - apply (splitTextIntoChunks_short (str "  ") 3000). simpl. lia.
Defined.

(** Every call with a positive chunk size returns, and every chunk has at
    most [m + 1] code units. *)
Lemma splitTextIntoChunks_total (t : jsstring) (m : nat) :
  0 < m ->
  exists chunks,
    splitTextIntoChunks t m = Some chunks /\
    Forall (fun c => length c <= m + 1) chunks.
Proof.
  intros Hm. unfold splitTextIntoChunks.
  destruct (length t <=? m) eqn:Hshort.
  - apply Nat.leb_le in Hshort. eexists. split; [done|].
    constructor; [lia|done].
  - destruct (chunk_loop_spec (length t) t m 0 [] Hm)
      as (out & Hrun & Hne & Hlen & _); [lia|done|done| |].
    + simpl. rewrite take_0. constructor. apply all_space_nil.
    + rewrite Hrun. simpl. rewrite filter_nonempty_id by done. eauto.
Qed.

(** What the chunker does guarantee: for a positive chunk size the call
    returns; the text is the chunks in order with only white space
    between, before and after them; and no chunk is empty unless the text
    itself is. *)
Theorem splitTextIntoChunks_reconstructs (t : jsstring) (m : nat) :
  0 < m ->
  exists chunks,
    splitTextIntoChunks t m = Some chunks /\
    (t <> [] -> Forall (fun c => c <> []) chunks) /\
    interleaved t chunks.
Proof.
  intros Hm. unfold splitTextIntoChunks.
  destruct (length t <=? m) eqn:Hshort.
  - eexists. split; [done|]. split.
    + intros Ht. by constructor.
    + rewrite <- (app_nil_r t) at 1.
      apply (interleaved_cons [] t [] []); [apply all_space_nil|].
      constructor. apply all_space_nil.
  - destruct (chunk_loop_spec (length t) t m 0 [] Hm)
      as (out & Hrun & Hne & _ & Hil); [lia|done|done| |].
    + simpl. rewrite take_0. constructor. apply all_space_nil.
    + rewrite Hrun. simpl. rewrite filter_nonempty_id by done. eauto.
Qed.

Lemma splitTextIntoChunks_reconstructs_witness :
  exists chunks,
    splitTextIntoChunks (str "abcdefgh. ijk lmn") 10 = Some chunks /\
    (str "abcdefgh. ijk lmn" <> [] -> Forall (fun c => c <> []) chunks) /\
    interleaved (str "abcdefgh. ijk lmn") chunks.
Proof.
  apply (splitTextIntoChunks_reconstructs (str "abcdefgh. ijk lmn") 10). lia.
Defined.

(** The short-input path does not drop an empty chunk as the loop does:
    the empty text is returned as one empty chunk. *)
Lemma splitTextIntoChunks_empty_chunk :
  ~ chunks_as_specified [] 1.
Proof.
  intros (chunks & Hrun & _ & Hne & _).
  vm_compute in Hrun. injection Hrun as <-.
  inversion Hne as [|? ? Hhd _]. by apply Hhd.
Qed.

(** C1 fails on the code: every chunk should have at most [m] code units,
    but the backward search starts at [text[end]], one past the window, so
    a sentence terminator exactly at the cut point is taken into the
    chunk, which then has [m + 1] code units.  Here [m = 5] and the first
    chunk is ["abcde."]. *)
Lemma splitTextIntoChunks_overlong_chunk :
  splitTextIntoChunks (str "abcde.fgh") 5 = Some [str "abcde."; str "fgh"]
  /\ ~ chunks_as_specified (str "abcde.fgh") 5.
Proof.
  split; [vm_compute; reflexivity|].
  intros (chunks & Hrun & Hlen & _).
  vm_compute in Hrun. injection Hrun as <-.
  inversion Hlen as [|? ? Hhd _]. simpl in Hhd. lia.
Qed.

End ChunkerTheorems.

(** ** Normalizer switched off *)

Section NormalizerOff.

Import Normalizer.

(** C9: with [clean_markdown] off the text is returned unchanged, whatever
    the other text-processing settings are. *)
Theorem normalizeTextForTTS_clean_markdown_off
  (settings : TextProcessing) (t : jsstring) :
  clean_markdown settings = false ->
  normalizeTextForTTS settings t = t.
Proof. intros H. unfold normalizeTextForTTS. by rewrite H. Qed.

Lemma normalizeTextForTTS_clean_markdown_off_witness :
  normalizeTextForTTS
    {| clean_markdown := false; remove_footnotes := true;
       normalize_whitespace := true; sentence_splitting := true;
       paragraph_splitting := false |}
    (str "  **bold**  [1]  ")
  = str "  **bold**  [1]  ".
Proof.
  apply (normalizeTextForTTS_clean_markdown_off
           {| clean_markdown := false; remove_footnotes := true;
              normalize_whitespace := true; sentence_splitting := true;
              paragraph_splitting := false |}).
  reflexivity.
Defined.

End NormalizerOff.

(** ** Chapter resolution *)

Section ResolverTheorems.

Import Resolver.

Lemma find_first_match {A} (p : A -> bool) (l : list A) :
  first_match p l (List.find p l).
Proof.
  induction l as [|x l IH]; simpl; [constructor|].
  destruct (p x) eqn:Hx.
  - exists [], l. by repeat split.
  - destruct (List.find p l) as [y|]; simpl in *.
    + destruct IH as (before & after & -> & Hy & Hb).
      exists (x :: before), after. repeat split; [done|]. by constructor.
    + by constructor.
Qed.

Lemma find_none_of_Forall {A} (p : A -> bool) (l : list A) :
  Forall (fun y => p y = false) l -> List.find p l = None.
Proof.
  induction 1 as [|x l Hx _ IH]; simpl; [done|]. by rewrite Hx.
Qed.

Example parseInt_examples :
  parseInt (str "10") = Some 10%Z /\
  parseInt (str "3 little pigs") = Some 3%Z /\
  parseInt (str "  -42abc") = Some (-42)%Z /\
  parseInt (str "0x1f") = Some 31%Z /\
  parseInt (str "chaos") = None /\
  parseInt (str "zzz-nonexistent") = None /\
  parseInt (str "") = None.
Proof. repeat split; reflexivity. Qed.

Variable toLowerCase : jsstring -> jsstring.

Lemma findChapter_find (toc : TableOfContents) (identifier : jsstring) :
  findChapter toLowerCase toc identifier
  = List.find (answers toLowerCase identifier) (chapters toc).
Proof.
  unfold findChapter, answers. by destruct (parseInt identifier).
Qed.

(** C10: an identifier that [parseInt] reads as a number is resolved by
    chapter order only: the result is the first chapter with that order,
    and [None] when no chapter has it, whatever the titles are. *)
Theorem findChapter_number_only
  (toc : TableOfContents) (identifier : jsstring) (n : Z) :
  parseInt identifier = Some n ->
  first_match (fun ch => (order ch =? n)%Z) (chapters toc)
    (findChapter toLowerCase toc identifier) /\
  (Forall (fun ch => order ch <> n) (chapters toc) ->
   findChapter toLowerCase toc identifier = None).
Proof.
  intros Hn. unfold findChapter. rewrite Hn. split.
  - apply find_first_match.
  - intros Hno. apply find_none_of_Forall.
    eapply Forall_impl; [exact Hno|]. simpl. intros ch Hch.
    by apply Z.eqb_neq.
Qed.

Lemma startsWith_prefix (p s : jsstring) :
  startsWith p s = true <-> exists post, s = p ++ post.
Proof.
  revert s. induction p as [|a p IH]; intros s; simpl.
  - split; [by exists s|done].
  - destruct s as [|b s]; simpl.
    + split; [done|]. by intros [post [=]].
    + unfold ch_eqb. rewrite andb_true_iff, N.eqb_eq, IH. split.
      * intros [-> [post ->]]. by exists post.
      * intros [post [= -> ->]]. split; [done|]. by exists post.
Qed.

(** [includes] decides containment. *)
Lemma includes_contains (s p : jsstring) :
  includes s p = true <-> contains s p.
Proof.
  induction s as [|c s IH].
  - simpl. rewrite orb_false_r, startsWith_prefix. split.
    + intros [post E]. by exists [], post.
    + intros (pre & post & E). destruct pre as [|x pre]; [|done].
      by exists post.
  - change (includes (c :: s) p)
      with (startsWith p (c :: s) || includes s p).
    rewrite orb_true_iff, startsWith_prefix, IH. split.
    + intros [[post E]|(pre & post & E)].
      * by exists [], post.
      * exists (c :: pre), post. by rewrite E.
    + intros (pre & post & E). destruct pre as [|x pre].
      * left. by exists post.
      * right. injection E as -> ->. by exists pre, post.
Qed.

Lemma find_first_where {A} (p : A -> bool) (P : A -> Prop) (l : list A) :
  (forall x, p x = true <-> P x) ->
  first_where P l (List.find p l).
Proof.
  intros Hp. induction l as [|x l IH]; simpl; [constructor|].
  destruct (p x) eqn:Hx.
  - exists [], l. split; [done|]. split; [by apply Hp|constructor].
  - assert (~ P x) as Hnx by (rewrite <- Hp; congruence).
    destruct (List.find p l) as [y|]; simpl in *.
    + destruct IH as (before & after & -> & Hy & Hb).
      exists (x :: before), after. split; [done|]. split; [done|].
      by constructor.
    + by constructor.
Qed.

(** The first element with a property is determined by the list. *)
Lemma first_where_unique {A} (P : A -> Prop) (l : list A)
  (r1 r2 : option A) :
  first_where P l r1 -> first_where P l r2 -> r1 = r2.
Proof.
  revert r1 r2. induction l as [|x l IH]; intros r1 r2 H1 H2.
  - destruct r1 as [y1|]; [destruct H1 as ([|??] & ? & ? & _); done|].
    destruct r2 as [y2|]; [destruct H2 as ([|??] & ? & ? & _); done|done].
  - assert (forall r, first_where P (x :: l) r ->
              (P x /\ r = Some x) \/ (~ P x /\ first_where P l r)) as Hcase.
    { intros [y|] H.
      - destruct H as (before & after & E & Hy & Hb).
        destruct before as [|b before]; injection E as -> ->.
        + by left.
        + right. inversion Hb; subst. split; [done|].
          by exists before, after.
      - right. by inversion H. }
    destruct (Hcase r1 H1) as [[Hx ->]|[Hx H1']],
             (Hcase r2 H2) as [[Hx' ->]|[Hx' H2']]; try done.
    by apply IH.
Qed.

Lemma answers_answers_to (identifier : jsstring) (ch : Chapter) :
  answers toLowerCase identifier ch = true
  <-> answers_to toLowerCase identifier ch.
Proof.
  unfold answers, answers_to. destruct (parseInt identifier) as [n|].
  - apply Z.eqb_eq.
  - apply includes_contains.
Qed.

Lemma findChapter_unanswered (toc : TableOfContents)
  (identifier : jsstring) :
  Forall (fun ch => ~ answers_to toLowerCase identifier ch)
    (chapters toc) ->
  findChapter toLowerCase toc identifier = None.
Proof.
  intros Hno. rewrite findChapter_find.
  apply find_none_of_Forall.
  eapply Forall_impl; [exact Hno|]. simpl. intros ch Hch.
  destruct (answers toLowerCase identifier ch) eqn:E; [|done].
  by apply answers_answers_to in E.
Qed.

(** C5: ["10"] resolves to the first chapter whose order is 10; ["chaos"]
    to the first chapter, in table-of-contents order, whose lower-cased
    title contains ["chaos"]; and an identifier that no chapter answers,
    such as ["zzz-nonexistent"], resolves to [None]. *)
Theorem findChapter_resolution (toc : TableOfContents) :
  toLowerCase (str "chaos") = str "chaos" ->
  first_where (fun ch => order ch = 10%Z) (chapters toc)
    (findChapter toLowerCase toc (str "10")) /\
  first_where
    (fun ch => contains (toLowerCase (title ch)) (str "chaos"))
    (chapters toc)
    (findChapter toLowerCase toc (str "chaos")) /\
  (Forall (fun ch =>
             ~ contains (toLowerCase (title ch))
                 (toLowerCase (str "zzz-nonexistent")))
     (chapters toc) ->
   findChapter toLowerCase toc (str "zzz-nonexistent") = None) /\
  (forall identifier,
     Forall (fun ch => ~ answers_to toLowerCase identifier ch)
       (chapters toc) ->
     findChapter toLowerCase toc identifier = None).
Proof.
  intros Hchaos. split; [|split; [|split]].
  - apply find_first_where. intros ch. apply Z.eqb_eq.
  - unfold findChapter.
    change (parseInt (str "chaos")) with (@None Z). simpl.
    rewrite Hchaos. apply find_first_where. intros ch.
    apply includes_contains.
  - intros Hno. apply findChapter_unanswered.
    eapply Forall_impl; [exact Hno|]. simpl. intros ch Hch.
    unfold answers_to.
    by change (parseInt (str "zzz-nonexistent")) with (@None Z).
  - apply findChapter_unanswered.
Qed.

End ResolverTheorems.

Section ResolverWitnesses.

Import Resolver.

Example findChapter_sample :
  findChapter ascii_toLowerCase sample_toc (str "10")
    = Some (chapter 10 "The Beginning") /\
  findChapter ascii_toLowerCase sample_toc (str "chaos")
    = Some (chapter 2 "Out of CHAOS") /\
  findChapter ascii_toLowerCase sample_toc (str "zzz-nonexistent") = None /\
  findChapter ascii_toLowerCase sample_toc (str "3 little pigs") = None.
Proof. repeat split; reflexivity. Qed.

Lemma findChapter_number_only_witness :
  parseInt (str "3 little pigs") = Some 3%Z /\
  first_match (fun ch => (order ch =? 3)%Z) (chapters sample_toc)
    (findChapter ascii_toLowerCase sample_toc (str "3 little pigs")) /\
  (Forall (fun ch => order ch <> 3%Z) (chapters sample_toc) ->
   findChapter ascii_toLowerCase sample_toc (str "3 little pigs") = None).
Proof.
  split; [reflexivity|].
  apply (findChapter_number_only ascii_toLowerCase sample_toc
           (str "3 little pigs") 3).
  reflexivity.
Defined.

Lemma findChapter_resolution_witness :
  ascii_toLowerCase (str "chaos") = str "chaos" /\
  findChapter ascii_toLowerCase sample_toc (str "10")
  = Some (chapter 10 "The Beginning") /\
  findChapter ascii_toLowerCase sample_toc (str "chaos")
  = Some (chapter 2 "Out of CHAOS") /\
  findChapter ascii_toLowerCase sample_toc (str "zzz-nonexistent") = None.
Proof.
  split; [reflexivity|].
  destruct (findChapter_resolution ascii_toLowerCase sample_toc eq_refl)
    as (H10 & Hchaos & Hnone & _).
  assert (forall s p : jsstring, includes s p = false -> ~ contains s p)
    as Hnot.
  { intros s p E H. apply includes_contains in H. congruence. }
  split; [|split].
  - eapply first_where_unique; [exact H10|].
    exists [chapter 1 "3 little pigs"; chapter 2 "Out of CHAOS";
            chapter 9 "Chaos again"], [].
    split; [reflexivity|]. split; [reflexivity|].
    repeat constructor; discriminate.
  - eapply first_where_unique; [exact Hchaos|].
    exists [chapter 1 "3 little pigs"],
           [chapter 9 "Chaos again"; chapter 10 "The Beginning"].
    split; [reflexivity|]. split.
    + exists (str "out of "), []. reflexivity.
    + repeat constructor. apply Hnot. vm_compute. reflexivity.
  - apply Hnone. repeat constructor; apply Hnot; vm_compute; reflexivity.
Defined.

End ResolverWitnesses.

(** ** Option merging *)

Section ConfigTheorems.

Import Config.

Lemma or_string_merged (x : option jsstring) (d : jsstring) :
  merged (fun v => v <> []) x d (or_string x d).
Proof.
  unfold merged. repeat split.
  - by intros ->.
  - intros v -> Hv. by destruct v.
  - intros v -> Hv. destruct v; [done|]. by destruct Hv.
Qed.

Lemma or_number_merged (x : option Z) (d : Z) :
  merged (fun v => v <> 0%Z) x d (or_number x d).
Proof.
  unfold merged. repeat split.
  - by intros ->.
  - intros v -> Hv. simpl. by apply Z.eqb_neq in Hv as ->.
  - intros v -> Hv. simpl. destruct (Z.eqb_spec v 0); [done|]. by destruct Hv.
Qed.

Lemma or_bool_merged (x : option bool) (d : bool) :
  merged (fun v => v = true) x d (or_bool x d).
Proof.
  unfold merged. repeat split.
  - by intros ->.
  - by intros v -> ->.
  - intros v -> Hv. by destruct v.
Qed.

Lemma registered_providers
  (provider : TTSProvider) (config : TTSProviderConfig) :
  getProviderConfig provider = Some config <->
  (provider = google /\ config = googleTTSConfig) \/
  (provider = openai /\ config = openaiTTSConfig).
Proof.
  unfold getProviderConfig, providers.
  destruct provider; simpl; split.
  - rewrite lookup_insert_eq. intros [= <-]. by left.
  - intros [[_ ->]|[[=] _]]. by rewrite lookup_insert_eq.
  - rewrite lookup_insert_ne by done. rewrite lookup_insert_eq.
    intros [= <-]. by right.
  - intros [[[=] _]|[_ ->]]. rewrite lookup_insert_ne by done.
    by rewrite lookup_insert_eq.
  - rewrite !lookup_insert_ne by done. by rewrite lookup_empty.
  - by intros [[[=] _]|[[=] _]].
Qed.

(** C6, as the code has it: for a registered provider the merge returns
    options in which each field is the override when that is supplied and
    truthy (a non-empty string, a non-zero number, [true]) and the
    provider's declared default when it is missing or falsy. *)
Theorem getEffectiveOptions_merge
  (provider : TTSProvider) (config : TTSProviderConfig)
  (options : ChapterAudioOptions) :
  getProviderConfig provider = Some config ->
  exists eff,
    getEffectiveOptions provider options = Some eff /\
    merged (fun v => v <> []) (opt_voice options)
      (voice (default_settings config)) (eff_voice eff) /\
    merged (fun v => v <> []) (opt_model options)
      (model (default_settings config)) (eff_model eff) /\
    merged (fun v => v <> []) (opt_format options)
      (format (default_settings config)) (eff_format eff) /\
    merged (fun v => v <> 0%Z) (opt_chunk_size options)
      (max_chunk_size (processing config)) (eff_chunk_size eff) /\
    merged (fun v => v <> 0%Z) (opt_rate_limit_delay options)
      (rate_limit_delay (processing config)) (eff_rate_limit_delay eff) /\
    merged (fun v => v = true) (opt_force_regenerate options) false
      (eff_force_regenerate eff).
Proof.
  intros Hcfg. unfold getEffectiveOptions. rewrite Hcfg. simpl.
  eexists. split; [reflexivity|]. simpl.
  repeat split;
    first [apply or_string_merged | apply or_number_merged
          | apply or_bool_merged].
Qed.

Lemma getEffectiveOptions_merge_witness :
  getProviderConfig openai = Some openaiTTSConfig /\
  exists eff,
    getEffectiveOptions openai
      {| opt_provider := None; opt_voice := Some (str "nova");
         opt_model := None; opt_format := Some [];
         opt_force_regenerate := None; opt_chunk_size := Some 0%Z;
         opt_rate_limit_delay := Some 250%Z |} = Some eff /\
    eff_voice eff = str "nova" /\ eff_model eff = str "tts-1" /\
    eff_format eff = str "mp3" /\ eff_chunk_size eff = 3000%Z /\
    eff_rate_limit_delay eff = 250%Z /\ eff_force_regenerate eff = false.
Proof.
  split; [reflexivity|].
  destruct (getEffectiveOptions_merge openai openaiTTSConfig
    {| opt_provider := None; opt_voice := Some (str "nova");
       opt_model := None; opt_format := Some [];
       opt_force_regenerate := None; opt_chunk_size := Some 0%Z;
       opt_rate_limit_delay := Some 250%Z |} eq_refl)
    as (eff & Hrun & _).
  exists eff. split; [exact Hrun|].
  vm_compute in Hrun. injection Hrun as <-. repeat split.
Defined.

(** An override of [0] for the rate-limit delay is replaced by the
    provider's default. *)
Lemma getEffectiveOptions_zero_override :
  ~ options_as_specified google
      {| opt_provider := None; opt_voice := None; opt_model := None;
         opt_format := None; opt_force_regenerate := None;
         opt_chunk_size := None; opt_rate_limit_delay := Some 0%Z |}.
Proof.
  intros (config & eff & Hcfg & Hrun & _ & _ & _ & _ & Hdelay).
  vm_compute in Hrun. injection Hrun as <-. simpl in Hdelay. done.
Qed.

Example effective_rate_limit_delay_of_zero :
  eff_rate_limit_delay <$>
    getEffectiveOptions google
      {| opt_provider := None; opt_voice := None; opt_model := None;
         opt_format := None; opt_force_regenerate := None;
         opt_chunk_size := None; opt_rate_limit_delay := Some 0%Z |}
  = Some 10000%Z.
Proof. reflexivity. Qed.

End ConfigTheorems.

(** ** Numbers: the division of the source *)

Section NumberFacts.

Import Synthesis.
Local Open Scope Q_scope.

















End NumberFacts.

(** ** Retries and backoff *)

Section RetryTheorems.

Import Config Synthesis.

Variable config : TTSProviderConfig.
Variable settings : Normalizer.TextProcessing.
Variable synthesize : jsstring -> nat -> option Error.

Lemma retry_loop_all_fail (text : jsstring) (err : nat -> Error) :
  (forall k, k <= maxRetries config -> synthesize text k = Some (err k)) ->
  forall fuel retries,
    retries <= maxRetries config ->
    maxRetries config - retries < fuel ->
    exists trace,
      retry_loop config synthesize fuel text retries
        = Some (trace, Thrown (err (maxRetries config))) /\
      attempts trace = maxRetries config + 1 - retries /\
      delays trace
        = map (fun k => (base_delay config (err (k - 1)%nat)
                         * 2 ^ Z.of_nat (k - 1)%nat)%Q)
            (seq (retries + 1) (maxRetries config - retries)).
Proof.
  intros Hfail. induction fuel as [|fuel IH]; intros retries Hle Hfuel; [lia|].
  simpl.
  destruct (retries <=? maxRetries config) eqn:Hc;
    [|apply Nat.leb_gt in Hc; lia].
  rewrite (Hfail retries Hle).
  destruct (maxRetries config <? retries + 1) eqn:Hlast.
  - apply Nat.ltb_lt in Hlast.
    assert (retries = maxRetries config) as -> by lia.
    eexists. split; [reflexivity|]. simpl.
    replace (maxRetries config - maxRetries config) with 0 by lia.
    split; [lia|done].
  - apply Nat.ltb_ge in Hlast.
    destruct (IH (retries + 1)) as (trace & Hrun & Hatt & Hdel); [lia|lia|].
    rewrite Hrun. simpl. eexists. split; [reflexivity|]. simpl.
    split; [lia|].
    replace (maxRetries config - retries)
      with (S (maxRetries config - (retries + 1))) by lia.
    simpl. rewrite Hdel. f_equal.
    + unfold backoffDelay, base_delay.
      by replace (retries + 1 - 1) with retries by lia.
    + by replace (S (retries + 1)) with (retries + 1 + 1) by lia.
Qed.



End RetryTheorems.


Example generateSingleAudio_other_failure :
  Synthesis.delays <$> (fst <$>
    Synthesis.generateSingleAudio Config.openaiTTSConfig
      Normalizer.globalSettings_text_processing
      (fun _ _ => Some {| Synthesis.response_status := Some 500%Z;
                          Synthesis.message := Some (str "Server error") |})
      (str "Hello."))
  = Some [5864062014805333 # 8796093022208;
          11728124029610666 # 8796093022208;
          23456248059221332 # 8796093022208]%Q.
Proof. vm_compute. reflexivity. Qed.

(** ** WAV header *)

Section WavTheorems.

Import Wav.
Local Open Scope Z_scope.

Lemma byte_of_div_mod (v k : Z) :
  0 <= k -> byte_of v k = (v / 2 ^ (8 * k)) mod 256.
Proof.
  intros Hk. unfold byte_of.
  change 255 with (Z.ones 8). rewrite Z.land_ones by lia.
  rewrite Z.shiftr_div_pow2 by lia. reflexivity.
Qed.

Lemma uint32_bytes (v : Z) :
  0 <= v <= 4294967295 ->
  byte_of v 0 + byte_of v 1 * 2 ^ 8 + byte_of v 2 * 2 ^ 16
  + byte_of v 3 * 2 ^ 24 = v.
Proof.
  intros Hv. rewrite !byte_of_div_mod by lia.
  change (2 ^ (8 * 0)) with 1. change (2 ^ (8 * 1)) with 256.
  change (2 ^ (8 * 2)) with 65536. change (2 ^ (8 * 3)) with 16777216.
  change (2 ^ 8) with 256. change (2 ^ 16) with 65536.
  change (2 ^ 24) with 16777216.
  Z.to_euclidean_division_equations. lia.
Qed.

Lemma uint32_range_check (v : Z) :
  0 <= v <= 4294967295 -> (0 <=? v) && (v <=? 4294967295) = true.
Proof. intros Hv. apply andb_true_iff. split; apply Z.leb_le; lia. Qed.

(** The header, byte by byte. *)
Lemma wav_header_bytes (N R : Z) :
  0 <= 36 + N <= 4294967295 -> 0 <= N ->
  0 <= R -> R * 2 <= 4294967295 ->
  wav_header N R = Some
    [82; 73; 70; 70;
     byte_of (36 + N) 0; byte_of (36 + N) 1; byte_of (36 + N) 2;
     byte_of (36 + N) 3;
     87; 65; 86; 69; 102; 109; 116; 32;
     16; 0; 0; 0; 1; 0; 1; 0;
     byte_of R 0; byte_of R 1; byte_of R 2; byte_of R 3;
     byte_of (R * 2) 0; byte_of (R * 2) 1; byte_of (R * 2) 2;
     byte_of (R * 2) 3;
     2; 0; 16; 0; 100; 97; 116; 97;
     byte_of N 0; byte_of N 1; byte_of N 2; byte_of N 3].
Proof.
  intros HN1 HN2 HR1 HR2. unfold wav_header, writeUInt32LE, writeUInt16LE.
  rewrite !uint32_range_check by lia. reflexivity.
Qed.

(** C3, as the code has it: when [36 + N] and [2 R] fit an unsigned 32-bit
    field, the container is a 44-byte header in front of the PCM bytes,
    with the RIFF size [36 + N], the format chunk size 16, format tag 1,
    one channel, sample rate [R], byte rate [2 R], block align 2, 16 bits
    per sample and data size [N]. *)
Theorem createWavFile_header (pcmBuffer : list Z) (sampleRate : Z) :
  0 <= sampleRate ->
  2 * sampleRate <= 4294967295 ->
  36 + Z.of_nat (length pcmBuffer) <= 4294967295 ->
  wav_as_specified pcmBuffer sampleRate.
Proof.
  intros HR1 HR2 HN. unfold wav_as_specified, createWavFile.
  set (N := Z.of_nat (length pcmBuffer)) in *.
  assert (0 <= N) by lia.
  rewrite wav_header_bytes by lia. cbn [mbind option_bind].
  eexists. split; [reflexivity|].
  unfold header_fields, tag_at, readUInt32LE, readUInt16LE.
  cbn [lookup list_lookup Nat.add mbind option_bind take drop length].
  rewrite !uint32_bytes by lia.
  replace (2 * sampleRate) with (sampleRate * 2) by lia.
  repeat split; reflexivity.
Qed.

Lemma createWavFile_header_witness :
  wav_as_specified [0; 1; 255; 127] 24000.
Proof.
  apply (createWavFile_header [0; 1; 255; 127] 24000); simpl; lia.
Defined.

Example createWavFile_24000 :
  createWavFile [0; 1; 255; 127] 24000 = Some
    [82; 73; 70; 70; 40; 0; 0; 0; 87; 65; 86; 69; 102; 109; 116; 32;
     16; 0; 0; 0; 1; 0; 1; 0; 192; 93; 0; 0; 128; 187; 0; 0;
     2; 0; 16; 0; 100; 97; 116; 97; 4; 0; 0; 0;
     0; 1; 255; 127].
Proof. vm_compute. reflexivity. Qed.

(** Outside the range of the fields a write throws and nothing is
    produced. *)
Lemma createWavFile_out_of_range (pcmBuffer : list Z) (sampleRate : Z) :
  sampleRate < 0 \/ 4294967295 < sampleRate * 2 \/
  4294967295 < 36 + Z.of_nat (length pcmBuffer) ->
  createWavFile pcmBuffer sampleRate = None.
Proof.
  intros Hrange. unfold createWavFile, wav_header, writeUInt32LE.
  set (N := Z.of_nat (length pcmBuffer)) in *.
  destruct (Z.leb_spec (36 + N) 4294967295) as [HN|HN].
  - replace (0 <=? 36 + N) with true by (symmetry; apply Z.leb_le; lia).
    simpl. unfold writeUInt16LE. simpl.
    destruct (Z.leb_spec 0 sampleRate) as [HR|HR]; simpl; [|done].
    destruct (Z.leb_spec sampleRate 4294967295) as [HR'|HR']; simpl; [|done].
    replace (0 <=? sampleRate * 2) with true by (symmetry; apply Z.leb_le; lia).
    destruct (Z.leb_spec (sampleRate * 2) 4294967295) as [HB|HB]; [lia|done].
  - by rewrite andb_false_r.
Qed.

(** A sample rate of 2^31 has a byte rate that does not fit its field. *)
Lemma createWavFile_byte_rate_overflow :
  ~ wav_as_specified [] 2147483648.
Proof.
  intros (header & Hrun & _). vm_compute in Hrun. discriminate.
Qed.

End WavTheorems.

(** ** Several chapters in a row *)

Section OrchestratorTheorems.

Import Synthesis Orchestrator.

Lemma calls_app (a b : list event) : calls (a ++ b) = calls a ++ calls b.
Proof.
  induction a as [|e a IH]; simpl; [done|]. destruct e; simpl; by rewrite IH.
Qed.

(** Every identifier is handed to [generateChapterAudio], in the order
    given, whether or not earlier ones failed. *)
Lemma chapters_loop_calls
  (gen : jsstring -> list jsstring -> list jsstring * option Error)
  (total : nat) (ids : list jsstring) :
  forall i w,
    calls (console (chapters_loop gen total i ids w))
    = calls (console w) ++ ids.
Proof.
  induction ids as [|identifier ids IH]; intros i w; simpl.
  - by rewrite app_nil_r.
  - destruct (gen identifier (files w)) as [files' [error|]];
      rewrite IH; simpl.
    + rewrite !calls_app. simpl. by rewrite !app_nil_r, <- app_assoc.
    + destruct (i <? total - 1); simpl;
        rewrite !calls_app; simpl; by rewrite ?app_nil_r, <- app_assoc.
Qed.

(** Every identifier is handed to [generateChapterAudio], in the order
    given and whatever the outcomes of the calls before it are: a chapter
    that fails does not stop the run, and none is tried twice. *)
Lemma generateMultipleChapters_in_order
  (gen : jsstring -> list jsstring -> list jsstring * option Error)
  (ids : list jsstring) (w : World) :
  calls (console (generateMultipleChapters gen ids w))
  = calls (console w) ++ ids.
Proof.
  unfold generateMultipleChapters. simpl.
  rewrite calls_app, chapters_loop_calls. simpl.
  rewrite calls_app. simpl. by rewrite !app_nil_r.
Qed.

(** C7, on the run of the claim: the three chapters are handled in order,
    the failure of chapter 2 is written to the console and chapter 3 is
    still generated, the files of chapters 1 and 3 exist at the end, and
    the last thing the run prints is the completion line: no count of
    successes and failures is printed. *)
Theorem generateMultipleChapters_chapter_2_fails :
  generateMultipleChapters chapter_2_fails [str "1"; str "2"; str "3"]
    {| files := []; console := [] |}
  = {| files := [str "01-one.wav"; str "03-three.wav"];
       console :=
         [ConsoleLog (str "Generating audio for 3 chapters");
          ConsoleLog (str "[1/3] Processing chapter: 1");
          GenerateChapterAudio (str "1");
          ConsoleLog (str "Waiting 3 seconds before next chapter...");
          Timeout 3000;
          ConsoleLog (str "[2/3] Processing chapter: 2");
          GenerateChapterAudio (str "2");
          ConsoleError (str "Failed to generate audio for chapter 2:")
            synthesis_failed;
          ConsoleLog (str "[3/3] Processing chapter: 3");
          GenerateChapterAudio (str "3");
          ConsoleLog (str "Batch processing completed!")] |}.
Proof. vm_compute. reflexivity. Qed.

End OrchestratorTheorems.

(** ** Global replacement *)

Section ReplaceAllFacts.

Import Regex.

Variable rx : matcher.

(** Induction along a run of [replace_all] with enough fuel. *)
Lemma replace_all_ind (Q : jsstring -> jsstring -> Prop) :
  productive rx ->
  Q [] [] ->
  (forall prev c s' out,
     rx prev (c :: s') = None -> Q s' out -> Q (c :: s') (c :: out)) ->
  (forall prev c s' replacement n out,
     rx prev (c :: s') = Some (replacement, n) ->
     Q (drop n (c :: s')) out -> Q (c :: s') (replacement ++ out)) ->
  forall fuel s prev, length s <= fuel -> Q s (replace_all fuel rx prev s).
Proof.
  intros Hprod Hnil Hcopy Hrepl.
  induction fuel as [|fuel IH]; intros s prev Hlen.
  - destruct s; simpl in *; [exact Hnil|lia].
  - destruct s as [|c s']; simpl; [exact Hnil|].
    destruct (rx prev (c :: s')) as [[replacement n]|] eqn:E.
    + apply (Hrepl prev c s' replacement n); [exact E|]. apply IH.
      apply Hprod in E. rewrite length_drop. simpl in *. lia.
    + apply (Hcopy prev); [exact E|]. apply IH. simpl in Hlen. lia.
Qed.

Lemma replaceAll_ind (Q : jsstring -> jsstring -> Prop) :
  productive rx ->
  Q [] [] ->
  (forall prev c s' out,
     rx prev (c :: s') = None -> Q s' out -> Q (c :: s') (c :: out)) ->
  (forall prev c s' replacement n out,
     rx prev (c :: s') = Some (replacement, n) ->
     Q (drop n (c :: s')) out -> Q (c :: s') (replacement ++ out)) ->
  forall s, Q s (replaceAll rx s).
Proof.
  intros Hprod Hnil Hcopy Hrepl s. unfold replaceAll.
  by apply replace_all_ind.
Qed.

(** The fuel does not matter once it covers the subject. *)
Lemma replace_all_fuel :
  productive rx ->
  forall fuel1 fuel2 s prev,
    length s <= fuel1 -> length s <= fuel2 ->
    replace_all fuel1 rx prev s = replace_all fuel2 rx prev s.
Proof.
  intros Hprod. induction fuel1 as [|fuel1 IH]; intros fuel2 s prev H1 H2.
  - destruct s; simpl in *; [by destruct fuel2|lia].
  - destruct fuel2 as [|fuel2]; [destruct s; simpl in *; [done|lia]|].
    destruct s as [|c s']; simpl; [done|].
    destruct (rx prev (c :: s')) as [[replacement n]|] eqn:E.
    + f_equal. apply IH; apply Hprod in E; rewrite length_drop;
        simpl in *; lia.
    + f_equal. apply IH; simpl in *; lia.
Qed.

(** Where the pattern matches nowhere, the subject is returned as it is. *)
Lemma replace_all_quiet (P : jsstring -> Prop) :
  (forall prev s, P s -> rx prev s = None) ->
  (forall c s, P (c :: s) -> P s) ->
  forall fuel prev s, P s -> replace_all fuel rx prev s = s.
Proof.
  intros Hnone Htail. induction fuel as [|fuel IH]; intros prev s HP;
    simpl; [done|].
  destruct s as [|c s']; [done|]. rewrite (Hnone prev _ HP).
  f_equal. apply IH. by apply Htail in HP.
Qed.

Lemma replaceAll_quiet (P : jsstring -> Prop) :
  (forall prev s, P s -> rx prev s = None) ->
  (forall c s, P (c :: s) -> P s) ->
  forall s, P s -> replaceAll rx s = s.
Proof. intros Hnone Htail s HP. by apply (replace_all_quiet P). Qed.

(** Replacing keeps a property of the code units that the replacement
    texts have. *)
Lemma replaceAll_Forall (R : char -> Prop) :
  productive rx ->
  (forall prev s replacement n,
     Forall R s -> rx prev s = Some (replacement, n) ->
     Forall R replacement) ->
  forall s, Forall R s -> Forall R (replaceAll rx s).
Proof.
  intros Hprod Hrep.
  apply (replaceAll_ind (fun s out => Forall R s -> Forall R out));
    [done|done| |].
  - intros prev c s' out _ IH Hs. inversion Hs; subst.
    constructor; auto.
  - intros prev c s' replacement n out E IH Hs.
    apply Forall_app. split; [by apply (Hrep prev _ _ n Hs)|].
    apply IH. by apply Forall_drop.
Qed.

End ReplaceAllFacts.

(** ** The patterns of the normalizer *)

Section PatternFacts.

Import Regex.

Lemma is_lf_eq (c : char) : is_lf c = true -> c = LF.
Proof. unfold is_lf, ch_eqb. by intros ?%N.eqb_eq. Qed.

Lemma is_lf_space (c : char) : is_lf c = true -> is_space c = true.
Proof. by intros ->%is_lf_eq. Qed.

Lemma is_terminator_cases (c : char) :
  is_terminator c = true -> c = chr "." \/ c = chr "!" \/ c = chr "?".
Proof.
  unfold is_terminator, ch_eqb.
  intros [[?%N.eqb_eq|?%N.eqb_eq]%orb_true_iff|?%N.eqb_eq]%orb_true_iff; auto.
Qed.

Lemma is_terminator_nonspace (c : char) :
  is_terminator c = true -> is_space c = false.
Proof. by intros [->|[->| ->]]%is_terminator_cases. Qed.

Lemma is_terminator_not_markup (c : char) :
  is_terminator c = true -> is_markup c = false.
Proof. by intros [->|[->| ->]]%is_terminator_cases. Qed.

Lemma plain_tail c s : plain (c :: s) -> plain s.
Proof. intros H. by inversion H. Qed.

Lemma plain_head_not (c x : char) s :
  is_markup x = true -> plain (c :: s) -> ch_eqb c x = false.
Proof.
  intros Hx H. inversion H as [|? ? Hc _]; subst.
  destruct (ch_eqb c x) eqn:E; [|done].
  apply N.eqb_eq in E. subst. congruence.
Qed.

Lemma dropWhile_Forall {A} (p : A -> bool) (R : A -> Prop) (l : list A) :
  Forall R l -> Forall R (dropWhile p l).
Proof.
  induction 1 as [|x l Hx Hl IH]; simpl; [constructor|].
  destruct (p x); [done|by constructor].
Qed.

Lemma takeWhile_sub {A} (p : A -> bool) (R : A -> Prop) (l : list A) :
  Forall R l -> Forall R (takeWhile p l).
Proof.
  induction 1 as [|x l Hx Hl IH]; simpl; [constructor|].
  destruct (p x); [by constructor|constructor].
Qed.

Lemma drop_takeWhile {A} (p : A -> bool) (l : list A) :
  drop (length (takeWhile p l)) l = dropWhile p l.
Proof.
  induction l as [|x l IH]; simpl; [done|]. destruct (p x); simpl; done.
Qed.

(** *** Patterns that need a markup character match nowhere in a plain
    text *)

Lemma rx_footnote_plain (open close : char) prev s :
  is_markup open = true -> plain s -> rx_footnote open close prev s = None.
Proof.
  intros Hopen Hs. destruct s as [|c s]; simpl; [done|].
  by rewrite (plain_head_not c open s Hopen Hs).
Qed.

Lemma startsWith_star_plain (delim : jsstring) s :
  plain s -> startsWith (chr "*" :: delim) s = false.
Proof.
  intros Hs. destruct s as [|c s]; [done|].
  assert (ch_eqb c (chr "*") = false) as Hc by by eapply plain_head_not.
  change (startsWith (chr "*" :: delim) (c :: s))
    with (ch_eqb (chr "*") c && startsWith delim s).
  unfold ch_eqb in *. by rewrite N.eqb_sym, Hc.
Qed.

Lemma rx_emphasis_plain (delim : jsstring) prev s :
  plain s -> rx_emphasis (chr "*" :: delim) prev s = None.
Proof.
  intros Hs. unfold rx_emphasis. by rewrite startsWith_star_plain.
Qed.

Lemma rx_link_plain prev s : plain s -> rx_link prev s = None.
Proof.
  intros Hs. destruct s as [|c s]; [done|]. unfold rx_link.
  by rewrite (plain_head_not c (chr "[") s eq_refl Hs).
Qed.

Lemma rx_list_marker_plain prev s : plain s -> rx_list_marker prev s = None.
Proof.
  intros Hs. unfold rx_list_marker. destruct (at_line_start prev); [|done].
  pose proof (dropWhile_Forall is_space _ s Hs) as Hd.
  destruct (dropWhile is_space s) as [|c s1]; [done|].
  assert (is_list_marker c = false) as ->; [|done].
  inversion Hd as [|? ? Hc _]; subst. unfold is_markup in Hc.
  unfold is_list_marker.
  destruct (ch_eqb c (chr "*")), (ch_eqb c (chr "-")), (ch_eqb c (chr "+"));
    simpl in *; try done; by rewrite ?orb_true_r in Hc.
Qed.

(** *** The four patterns that can match in a plain text *)

Lemma rx_spaces_productive : productive rx_spaces.
Proof.
  intros prev s r n. unfold rx_spaces.
  destruct (takeWhile is_space s); [done|]. intros [= _ <-]. simpl. lia.
Qed.

Lemma rx_blank_lines_productive : productive rx_blank_lines.
Proof.
  intros prev s r n. unfold rx_blank_lines.
  destruct (3 <=? _) eqn:E; [|done]. apply Nat.leb_le in E.
  intros [= _ <-]. lia.
Qed.

Lemma rx_sentence_break_productive : productive rx_sentence_break.
Proof.
  intros prev s r n. unfold rx_sentence_break. destruct s as [|c s]; [done|].
  destruct (is_terminator c); [|done]. destruct (existsb _ _); [|done].
  intros [= _ <-]. lia.
Qed.

Lemma rx_paragraph_break_productive : productive rx_paragraph_break.
Proof.
  intros prev s r n. unfold rx_paragraph_break. destruct s as [|c s]; [done|].
  destruct (is_lf c); [|done].
  destruct (through_last_lf _); simpl; [|done]. intros [= _ <-]. lia.
Qed.

Lemma rx_spaces_plain prev s r n :
  plain s -> rx_spaces prev s = Some (r, n) -> plain r.
Proof.
  intros _. unfold rx_spaces. destruct (takeWhile is_space s); [done|].
  intros [= <- _]. by repeat constructor.
Qed.

Lemma rx_blank_lines_plain prev s r n :
  plain s -> rx_blank_lines prev s = Some (r, n) -> plain r.
Proof.
  intros _. unfold rx_blank_lines. destruct (3 <=? _); [|done].
  intros [= <- _]. by repeat constructor.
Qed.

Lemma rx_sentence_break_plain prev s r n :
  plain s -> rx_sentence_break prev s = Some (r, n) -> plain r.
Proof.
  intros Hs. unfold rx_sentence_break. destruct s as [|c s]; [done|].
  destruct (is_terminator c) eqn:Hc; [|done]. destruct (existsb _ _); [|done].
  intros [= <- _]. constructor; [by apply is_terminator_not_markup|].
  by repeat constructor.
Qed.

Lemma rx_paragraph_break_plain prev s r n :
  plain s -> rx_paragraph_break prev s = Some (r, n) -> plain r.
Proof.
  intros _. unfold rx_paragraph_break. destruct s as [|c s]; [done|].
  destruct (is_lf c); [|done].
  destruct (through_last_lf _); simpl; [|done].
  intros [= <- _]. by repeat constructor.
Qed.

End PatternFacts.

(** ** White space and line breaks *)

Section LineBreakFacts.

Import Regex.

Lemma lf_in_run_cons (c : char) (s : jsstring) :
  lf_in_run (c :: s) = is_space c && (is_lf c || lf_in_run s).
Proof. unfold lf_in_run. simpl. by destruct (is_space c). Qed.

Lemma lf_in_run_nonspace (s : jsstring) :
  starts_nonspace s -> lf_in_run s = false.
Proof.
  destruct s as [|c s]; [done|]. simpl. intros Hc.
  by rewrite lf_in_run_cons, Hc.
Qed.

Lemma lf_in_run_app (s r : jsstring) :
  lf_in_run s = true -> lf_in_run (s ++ r) = true.
Proof.
  induction s as [|c s IH]; [done|]. simpl. rewrite !lf_in_run_cons.
  destruct (is_space c); [|done]. simpl. destruct (is_lf c); [done|].
  simpl. exact IH.
Qed.

Lemma starts_nonspace_dropWhile (s : jsstring) :
  starts_nonspace (dropWhile is_space s).
Proof.
  destruct (dropWhile is_space s) as [|c s1] eqn:E; [done|].
  simpl. by eapply dropWhile_head.
Qed.

Lemma takeWhile_nonspace (s : jsstring) :
  starts_nonspace s -> takeWhile is_space s = [].
Proof. destruct s as [|c s]; [done|]. simpl. by intros ->. Qed.

Lemma dropWhile_nonspace (s : jsstring) :
  starts_nonspace s -> dropWhile is_space s = s.
Proof. destruct s as [|c s]; [done|]. simpl. by intros ->. Qed.

(** *** [\s+] *)

Lemma rx_spaces_none prev c s :
  rx_spaces prev (c :: s) = None -> is_space c = false.
Proof. unfold rx_spaces. simpl. by destruct (is_space c). Qed.

Lemma rx_spaces_some prev s r n :
  rx_spaces prev s = Some (r, n) ->
  r = [SP] /\ ~ starts_nonspace s /\ drop n s = dropWhile is_space s.
Proof.
  unfold rx_spaces.
  destruct (takeWhile is_space s) as [|c run] eqn:E; [done|].
  intros [= <- <-]. split; [done|]. split.
  - intros Hs. by rewrite takeWhile_nonspace in E.
  - by rewrite <- (drop_takeWhile is_space s), E.
Qed.

Lemma replaceAll_spaces_single_spaced (s : jsstring) :
  single_spaced (replaceAll rx_spaces s).
Proof.
  cut (single_spaced (replaceAll rx_spaces s) /\
       (starts_nonspace s -> starts_nonspace (replaceAll rx_spaces s)));
    [tauto|].
  apply (replaceAll_ind rx_spaces
    (fun s out => single_spaced out /\
                  (starts_nonspace s -> starts_nonspace out)));
    [apply rx_spaces_productive|done| |].
  - intros prev c s' out Hnone [IH1 IH2].
    apply rx_spaces_none in Hnone. simpl. rewrite Hnone. by repeat split.
  - intros prev c s' r n out Hsome [IH1 IH2].
    apply rx_spaces_some in Hsome as (-> & Hc & Hdrop). simpl.
    rewrite Hdrop in IH2. split; [|done]. split; [|done].
    intros _. split; [done|]. apply IH2, starts_nonspace_dropWhile.
Qed.

Lemma single_spaced_tail c s : single_spaced (c :: s) -> single_spaced s.
Proof. by intros [_ H]. Qed.

Lemma replaceAll_spaces_fixed (s : jsstring) :
  single_spaced s -> replaceAll rx_spaces s = s.
Proof.
  apply (replaceAll_ind rx_spaces (fun s out => single_spaced s -> out = s));
    [apply rx_spaces_productive|done| |].
  - intros prev c s' out _ IH [_ Hs]. f_equal. auto.
  - intros prev c s' r n out Hsome IH [Hc Hs].
    unfold rx_spaces in Hsome. simpl in Hsome.
    destruct (is_space c) eqn:Ec; [|done].
    destruct (Hc eq_refl) as [-> Hnext].
    rewrite takeWhile_nonspace in Hsome by done.
    injection Hsome as <- <-. simpl in *. rewrite drop_0 in IH.
    f_equal. auto.
Qed.

Lemma single_spaced_lf_in_run (s : jsstring) :
  single_spaced s -> lf_in_run s = false.
Proof.
  destruct s as [|c s]; [done|]. intros [Hc _]. rewrite lf_in_run_cons.
  destruct (is_space c); [|done]. destruct (Hc eq_refl) as [-> Hnext].
  simpl. by apply lf_in_run_nonspace.
Qed.

Lemma single_spaced_settled (s : jsstring) : single_spaced s -> settled s.
Proof.
  induction s as [|c s IH]; [done|]. intros [Hc Hs]. simpl. split; [|auto].
  intros _. by apply single_spaced_lf_in_run.
Qed.

(** *** [([.!?])\s*\n\s*] *)

Lemma joined_drop n s : joined s -> joined (drop n s).
Proof.
  revert s. induction n as [|n IH]; intros [|c s]; simpl; try done.
  intros [_ H]. auto.
Qed.

Lemma replaceAll_sentence_break_joined (s : jsstring) :
  joined (replaceAll rx_sentence_break s).
Proof.
  cut (takeWhile is_space (replaceAll rx_sentence_break s)
       = takeWhile is_space s /\
       joined (replaceAll rx_sentence_break s)); [tauto|].
  apply (replaceAll_ind rx_sentence_break
    (fun s out => takeWhile is_space out = takeWhile is_space s /\
                  joined out));
    [apply rx_sentence_break_productive|done| |].
  - intros prev c s' out Hnone [IH1 IH2]. simpl. split.
    + by rewrite IH1.
    + split; [|done]. intros Hc. unfold rx_sentence_break in Hnone.
      rewrite Hc in Hnone. unfold lf_in_run. rewrite IH1.
      by destruct (existsb _ _).
  - intros prev c s' r n out Hsome [IH1 IH2].
    unfold rx_sentence_break in Hsome.
    destruct (is_terminator c) eqn:Hc; [|done].
    destruct (existsb _ _); [|done]. injection Hsome as <- <-.
    cbn [drop] in IH1. rewrite drop_takeWhile in IH1.
    rewrite (takeWhile_nonspace (dropWhile is_space s')) in IH1
      by apply starts_nonspace_dropWhile.
    simpl. rewrite (is_terminator_nonspace c Hc). split; [done|].
    split; [|split; [done|done]].
    intros _. unfold lf_in_run. simpl. by rewrite IH1.
Qed.

(** *** [\n\s*\n] *)

Lemma through_last_lf_none (run : jsstring) :
  through_last_lf run = None <-> existsb is_lf run = false.
Proof.
  induction run as [|c run IH]; simpl; [done|].
  destruct (through_last_lf run) as [n|].
  - split; [done|]. intros [_ H]%orb_false_iff. apply IH in H. done.
  - destruct IH as [IH _]. rewrite (IH eq_refl), orb_false_r.
    by destruct (is_lf c).
Qed.

Lemma through_last_lf_some (run : jsstring) n :
  through_last_lf run = Some n ->
  n <= length run /\ existsb is_lf (drop n run) = false.
Proof.
  revert n. induction run as [|c run IH]; intros n; simpl; [done|].
  destruct (through_last_lf run) as [m|] eqn:E.
  - intros [= <-]. destruct (IH m eq_refl). simpl. split; [lia|done].
  - destruct (is_lf c); [|done]. intros [= <-]. simpl. rewrite drop_0.
    split; [lia|]. by apply through_last_lf_none.
Qed.

Lemma takeWhile_drop {A} (p : A -> bool) (l : list A) n :
  n <= length (takeWhile p l) ->
  takeWhile p (drop n l) = drop n (takeWhile p l).
Proof.
  revert l. induction n as [|n IH]; intros l Hn; [by rewrite !drop_0|].
  destruct l as [|x l]; simpl in *; [done|].
  destruct (p x); simpl in *; [|lia]. apply IH. lia.
Qed.

Lemma settled_tail c s : settled (c :: s) -> settled s.
Proof. by intros [_ H]. Qed.

Lemma replaceAll_paragraph_break_settled (s : jsstring) :
  joined s -> settled (replaceAll rx_paragraph_break s).
Proof.
  cut ((lf_in_run (replaceAll rx_paragraph_break s) = true ->
        lf_in_run s = true) /\
       (joined s -> settled (replaceAll rx_paragraph_break s))); [tauto|].
  apply (replaceAll_ind rx_paragraph_break
    (fun s out => (lf_in_run out = true -> lf_in_run s = true) /\
                  (joined s -> settled out)));
    [apply rx_paragraph_break_productive|done| |].
  - intros prev c s' out Hnone [IH1 IH2]. split.
    + rewrite !lf_in_run_cons. destruct (is_space c); [|done]. simpl.
      destruct (is_lf c); [done|]. simpl. exact IH1.
    + intros [Hc Hs]. simpl. split; [|auto].
      intros Hterm. destruct (lf_in_run out) eqn:Hout; [|done].
      specialize (IH1 eq_refl).
      destruct (is_terminator c) eqn:Ht; [by rewrite Hc in IH1|].
      simpl in Hterm. unfold rx_paragraph_break in Hnone.
      rewrite Hterm in Hnone.
      destruct (through_last_lf (takeWhile is_space s')) eqn:E; [done|].
      apply through_last_lf_none in E. unfold lf_in_run in IH1. congruence.
  - intros prev c s' r n out Hsome [IH1 IH2].
    unfold rx_paragraph_break in Hsome.
    destruct (is_lf c) eqn:Hc; [|done].
    destruct (through_last_lf (takeWhile is_space s')) as [m|] eqn:E;
      [|done].
    simpl in Hsome. injection Hsome as <- <-.
    cbn [drop] in IH1, IH2.
    apply through_last_lf_some in E as [Hm Hrest].
    assert (lf_in_run (drop m s') = false) as Hquiet.
    { unfold lf_in_run. by rewrite takeWhile_drop. }
    assert (lf_in_run out = false) as Hout.
    { destruct (lf_in_run out); [|done]. rewrite IH1 in Hquiet; done. }
    split; [done|].
    intros [_ Hs]. simpl. split; [|split; [done|]].
    + intros _. by rewrite lf_in_run_cons, Hout.
    + apply IH2. by apply joined_drop.
Qed.

(** *** Where the three line-break patterns match nowhere *)

Lemma rx_blank_lines_settled prev s :
  settled s -> rx_blank_lines prev s = None.
Proof.
  intros Hs. unfold rx_blank_lines.
  destruct (3 <=? _) eqn:E; [|done]. apply Nat.leb_le in E.
  destruct s as [|c [|c2 s]]; simpl in E; try lia.
  - destruct (is_lf c); simpl in E; lia.
  - destruct (is_lf c) eqn:Hc; [|simpl in E; lia].
    destruct (is_lf c2) eqn:Hc2; [|simpl in E; lia].
    destruct Hs as [Hs _]. rewrite Hc, orb_true_r in Hs.
    specialize (Hs eq_refl). rewrite lf_in_run_cons, Hc2 in Hs.
    by rewrite (is_lf_space c2 Hc2) in Hs.
Qed.

Lemma rx_sentence_break_settled prev s :
  settled s -> rx_sentence_break prev s = None.
Proof.
  intros Hs. unfold rx_sentence_break. destruct s as [|c s]; [done|].
  destruct (is_terminator c) eqn:Hc; [|done].
  destruct Hs as [Hs _]. rewrite Hc in Hs. specialize (Hs eq_refl).
  unfold lf_in_run in Hs. by rewrite Hs.
Qed.

Lemma rx_paragraph_break_settled prev s :
  settled s -> rx_paragraph_break prev s = None.
Proof.
  intros Hs. unfold rx_paragraph_break. destruct s as [|c s]; [done|].
  destruct (is_lf c) eqn:Hc; [|done].
  destruct Hs as [Hs _]. rewrite Hc, orb_true_r in Hs. specialize (Hs eq_refl).
  apply through_last_lf_none in Hs. by rewrite Hs.
Qed.

(** *** [trim] *)

Lemma settled_app_r (l s : jsstring) : settled (l ++ s) -> settled s.
Proof. induction l as [|c l IH]; [done|]. intros [_ H]. auto. Qed.

Lemma settled_app_l (s r : jsstring) : settled (s ++ r) -> settled s.
Proof.
  induction s as [|c s IH]; [done|]. simpl. intros [Hc Hs]. split; [|auto].
  intros Hterm. specialize (Hc Hterm).
  destruct (lf_in_run s) eqn:E; [|done].
  by rewrite (lf_in_run_app s r E) in Hc.
Qed.

Lemma single_spaced_app_r (l s : jsstring) :
  single_spaced (l ++ s) -> single_spaced s.
Proof. induction l as [|c l IH]; [done|]. intros [_ H]. auto. Qed.

Lemma single_spaced_app_l (s r : jsstring) :
  single_spaced (s ++ r) -> single_spaced s.
Proof.
  induction s as [|c s IH]; [done|]. simpl. intros [Hc Hs]. split; [|auto].
  intros Hsp. destruct (Hc Hsp) as [-> Hnext]. split; [done|].
  by destruct s.
Qed.

Lemma trim_settled (s : jsstring) : settled s -> settled (trim s).
Proof.
  destruct (trim_decompose s) as (l & r & E & _). rewrite E at 1.
  intros H. by apply settled_app_r, settled_app_l in H.
Qed.

Lemma trim_single_spaced (s : jsstring) :
  single_spaced s -> single_spaced (trim s).
Proof.
  destruct (trim_decompose s) as (l & r & E & _). rewrite E at 1.
  intros H. by apply single_spaced_app_r, single_spaced_app_l in H.
Qed.

Lemma trim_plain (s : jsstring) : plain s -> plain (trim s).
Proof.
  destruct (trim_decompose s) as (l & r & E & _). rewrite E at 1.
  unfold plain. rewrite !Forall_app. tauto.
Qed.

Lemma trimEnd_prefix (s : jsstring) : exists r, s = trimEnd s ++ r.
Proof.
  exists (reverse (takeWhile is_space (reverse s))). unfold trimEnd.
  by rewrite <- reverse_app, takeWhile_dropWhile, reverse_involutive.
Qed.

Lemma trim_fixed (s : jsstring) :
  starts_nonspace s -> starts_nonspace (reverse s) -> trim s = s.
Proof.
  intros Hs Hr. unfold trim, trimStart, trimEnd.
  rewrite (dropWhile_nonspace s Hs), (dropWhile_nonspace _ Hr).
  apply reverse_involutive.
Qed.

Lemma trim_idempotent (s : jsstring) : trim (trim s) = trim s.
Proof.
  apply trim_fixed.
  - unfold trim.
    pose proof (starts_nonspace_dropWhile s) as Hu. fold (trimStart s) in Hu.
    destruct (trimEnd_prefix (trimStart s)) as [r E].
    destruct (trimEnd (trimStart s)) as [|c u]; [done|].
    rewrite E in Hu. exact Hu.
  - unfold trim, trimEnd. rewrite reverse_involutive.
    apply starts_nonspace_dropWhile.
Qed.

End LineBreakFacts.

(** ** Normalizer *)

Section NormalizerTheorems.

Import Regex Normalizer.

Example normalizeTextForTTS_sample :
  normalizeTextForTTS globalSettings_text_processing
    (str "  This is **bold** and *it* [1] see [link](http://x) (2).  ")
  = str "This is bold and it see link .".
Proof. vm_compute. reflexivity. Qed.

Lemma strip_footnotes_plain (s : jsstring) : plain s -> strip_footnotes s = s.
Proof.
  intros Hs. unfold strip_footnotes.
  rewrite (replaceAll_quiet (rx_footnote (chr "[") (chr "]")) plain) by
    (done || apply plain_tail || (intros; by apply rx_footnote_plain)).
  by rewrite (replaceAll_quiet (rx_footnote (chr "(") (chr ")")) plain) by
    (done || apply plain_tail || (intros; by apply rx_footnote_plain)).
Qed.

Lemma cleanup_plain (s : jsstring) :
  plain s ->
  cleanup s
  = trim (replaceAll rx_paragraph_break
            (replaceAll rx_sentence_break (replaceAll rx_blank_lines s))).
Proof.
  intros Hs. unfold cleanup.
  rewrite (replaceAll_quiet (rx_emphasis (str "**")) plain) by
    (done || apply plain_tail || (intros; by apply rx_emphasis_plain)).
  rewrite (replaceAll_quiet (rx_emphasis (str "*")) plain) by
    (done || apply plain_tail || (intros; by apply rx_emphasis_plain)).
  rewrite (replaceAll_quiet rx_link plain) by
    (done || apply plain_tail || (intros; by apply rx_link_plain)).
  by rewrite (replaceAll_quiet rx_list_marker plain) by
    (done || apply plain_tail || (intros; by apply rx_list_marker_plain)).
Qed.

Lemma line_breaks_settled (s : jsstring) :
  settled s ->
  replaceAll rx_paragraph_break
    (replaceAll rx_sentence_break (replaceAll rx_blank_lines s)) = s.
Proof.
  intros Hs.
  rewrite (replaceAll_quiet rx_blank_lines settled) by
    (done || apply settled_tail || (intros; by apply rx_blank_lines_settled)).
  rewrite (replaceAll_quiet rx_sentence_break settled) by
    (done || apply settled_tail
     || (intros; by apply rx_sentence_break_settled)).
  by rewrite (replaceAll_quiet rx_paragraph_break settled) by
    (done || apply settled_tail
     || (intros; by apply rx_paragraph_break_settled)).
Qed.

Lemma line_breaks_plain (s : jsstring) :
  plain s ->
  plain (replaceAll rx_paragraph_break
           (replaceAll rx_sentence_break (replaceAll rx_blank_lines s))).
Proof.
  intros Hs.
  apply replaceAll_Forall;
    [apply rx_paragraph_break_productive|apply rx_paragraph_break_plain|].
  apply replaceAll_Forall;
    [apply rx_sentence_break_productive|apply rx_sentence_break_plain|].
  apply replaceAll_Forall;
    [apply rx_blank_lines_productive|apply rx_blank_lines_plain|done].
Qed.

(** A plain, trimmed text in which no line-break pattern matches (and
    whose white space is single spaces when white space is normalized) is
    left as it is. *)
Lemma normalizeTextForTTS_fixed (settings : TextProcessing) (v : jsstring) :
  plain v -> settled v -> trim v = v ->
  (normalize_whitespace settings = true -> single_spaced v) ->
  normalizeTextForTTS settings v = v.
Proof.
  intros Hplain Hsettled Htrim Hsingle. unfold normalizeTextForTTS.
  destruct (clean_markdown settings); [|done]. simpl.
  assert ((if remove_footnotes settings then strip_footnotes v else v) = v)
    as -> by (destruct (remove_footnotes settings);
              [by apply strip_footnotes_plain|done]).
  assert ((if normalize_whitespace settings
           then replaceAll rx_spaces v else v) = v) as ->
    by (destruct (normalize_whitespace settings);
        [by apply replaceAll_spaces_fixed, Hsingle|done]).
  by rewrite cleanup_plain, line_breaks_settled.
Qed.

(** What the normalizer returns for a plain text. *)
Lemma normalizeTextForTTS_plain_result
  (settings : TextProcessing) (t : jsstring) :
  clean_markdown settings = true -> plain t ->
  let v := normalizeTextForTTS settings t in
  plain v /\ settled v /\ trim v = v /\
  (normalize_whitespace settings = true -> single_spaced v).
Proof.
  intros Hclean Hplain. unfold normalizeTextForTTS. rewrite Hclean. simpl.
  assert ((if remove_footnotes settings then strip_footnotes t else t) = t)
    as -> by (destruct (remove_footnotes settings);
              [by apply strip_footnotes_plain|done]).
  destruct (normalize_whitespace settings).
  - pose proof (replaceAll_spaces_single_spaced t) as Hsingle.
    assert (plain (replaceAll rx_spaces t)) as Hp.
    { apply replaceAll_Forall;
        [apply rx_spaces_productive|apply rx_spaces_plain|done]. }
    rewrite cleanup_plain by done.
    rewrite line_breaks_settled by by apply single_spaced_settled.
    split; [by apply trim_plain|].
    split; [by apply trim_settled, single_spaced_settled|].
    split; [apply trim_idempotent|]. intros _. by apply trim_single_spaced.
  - rewrite cleanup_plain by done.
    split; [by apply trim_plain, line_breaks_plain|].
    split; [|split; [apply trim_idempotent|done]].
    apply trim_settled, replaceAll_paragraph_break_settled,
      replaceAll_sentence_break_joined.
Qed.

(** On a text without the markup characters [*], [[], [(], [-] and [+]
    the normalizer is idempotent, under every text-processing
    configuration. *)
Theorem normalizeTextForTTS_idempotent_plain
  (settings : TextProcessing) (t : jsstring) :
  plain t ->
  normalizeTextForTTS settings (normalizeTextForTTS settings t)
  = normalizeTextForTTS settings t.
Proof.
  intros Hplain. destruct (clean_markdown settings) eqn:Hclean.
  - destruct (normalizeTextForTTS_plain_result settings t Hclean Hplain)
      as (Hp & Hs & Ht & Hw).
    by apply normalizeTextForTTS_fixed.
  - unfold normalizeTextForTTS. by rewrite Hclean.
Qed.

Lemma normalizeTextForTTS_idempotent_plain_witness :
  plain [97; 46; 10; 32; 10; 98; 32; 32; 99; 10]%N /\
  normalizeTextForTTS globalSettings_text_processing
    (normalizeTextForTTS globalSettings_text_processing
       [97; 46; 10; 32; 10; 98; 32; 32; 99; 10]%N)
  = normalizeTextForTTS globalSettings_text_processing
      [97; 46; 10; 32; 10; 98; 32; 32; 99; 10]%N.
Proof.
  assert (plain [97; 46; 10; 32; 10; 98; 32; 32; 99; 10]%N) as Hplain
    by (repeat constructor).
  split; [exact Hplain|].
  exact (normalizeTextForTTS_idempotent_plain globalSettings_text_processing
           [97; 46; 10; 32; 10; 98; 32; 32; 99; 10]%N Hplain).
Defined.


Example normalizeTextForTTS_passes :
  normalizeTextForTTS globalSettings_text_processing (str "[[1]2]")
    = str "[2]" /\
  normalizeTextForTTS globalSettings_text_processing (str "[2]") = [] /\
  normalizeTextForTTS globalSettings_text_processing (str "a **** b")
    = str "a  b" /\
  normalizeTextForTTS globalSettings_text_processing (str "a  b")
    = str "a b" /\
  normalizeTextForTTS globalSettings_text_processing (str "- - a")
    = str "- a" /\
  normalizeTextForTTS globalSettings_text_processing (str "- a") = str "a".
Proof. repeat split; vm_compute; reflexivity. Qed.

End NormalizerTheorems.

(** ** Normalizer: texts without markup left in them *)

Section MatchFacts.

Import Regex.







(** *** Footnote markers *)



(** *** Emphasis *)






(** *** Links *)





(** *** List markers *)






(** A text without the markup characters has no markup. *)
Lemma plain_markup_free (settings : Normalizer.TextProcessing)
  (s : jsstring) :
  plain s -> markup_free settings s.
Proof.
  intros Hplain.
  assert (forall pre c post,
            is_markup c = true -> s <> pre ++ c :: post) as Hno.
  { intros pre c post Hc ->. apply Forall_app in Hplain as [_ H].
    inversion H; congruence. }
  split; [|split; [|split]].
  - intros _. split.
    + intros (pre & ds & post & _ & _ & E). by refine (Hno pre _ _ _ E).
    + intros (pre & ds & post & _ & _ & E). by refine (Hno pre _ _ _ E).
  - intros (pre & inner & post & _ & E). by refine (Hno pre _ _ _ E).
  - intros (pre & text & url & post & _ & _ & _ & _ & E).
    by refine (Hno pre _ _ _ E).
  - intros (pre & indent & m & g & post & _ & _ & Hm & _ & E).
    rewrite app_assoc in E.
    apply (Hno (pre ++ indent) m (g :: post)); [|exact E].
    by destruct Hm as [->|[->| ->]].
Qed.

End MatchFacts.

Section NormalizerClean.

Import Regex Normalizer.





(** Each kind of markup can be left by a pass: a link by a link in
    brackets, and, with the line breaks kept, emphasis by a paragraph
    break between two asterisks, which the pass turns into a period. *)
Example normalizeTextForTTS_leftovers :
  normalizeTextForTTS globalSettings_text_processing (str "[[a](b)](c)")
    = str "[a](c)" /\
  normalizeTextForTTS globalSettings_text_processing (str "[a](c)")
    = str "a" /\
  normalizeTextForTTS whitespace_kept [97; 42; 10; 10; 42; 98]%N
    = str "a*. *b" /\
  normalizeTextForTTS whitespace_kept (str "a*. *b") = str "a. b".
Proof. repeat split; vm_compute; reflexivity. Qed.

End NormalizerClean.

(* ================================================================== *)
(** * Further properties of the code *)

(** ** Chunker: what every chunk looks like *)

Section ChunkerShape.

Import Chunker.

Lemma trim_trimmed (s : jsstring) : trimmed (trim s).
Proof.
  split.
  - unfold trim.
    pose proof (starts_nonspace_dropWhile s) as Hu. fold (trimStart s) in Hu.
    destruct (trimEnd_prefix (trimStart s)) as [r E].
    destruct (trimEnd (trimStart s)) as [|c u]; [done|].
    rewrite E in Hu. exact Hu.
  - unfold trim, trimEnd. rewrite reverse_involutive.
    apply starts_nonspace_dropWhile.
Qed.

Lemma chunk_loop_trimmed (fuel : nat) :
  forall text m start chunks out,
    Forall trimmed chunks ->
    chunk_loop fuel text m start chunks = Some out ->
    Forall trimmed out.
Proof.
  induction fuel as [|fuel IH]; intros text m start chunks out Hc; simpl;
    destruct (length text <=? start).
  - by intros [= <-].
  - done.
  - by intros [= <-].
  - apply IH. destruct (0 <? _); [|done].
    apply Forall_app. split; [done|].
    constructor; [apply trim_trimmed|done].
Qed.

(** A text longer than the chunk size is cut into chunks that are not
    empty and neither start nor end with white space. *)
Theorem splitTextIntoChunks_long_trimmed (t : jsstring) (m : nat) :
  0 < m -> m < length t ->
  exists chunks,
    splitTextIntoChunks t m = Some chunks /\
    Forall (fun c => c <> [] /\ trimmed c) chunks.
Proof.
  intros Hm Hlong. unfold splitTextIntoChunks.
  destruct (length t <=? m) eqn:E; [apply Nat.leb_le in E; lia|].
  destruct (chunk_loop_spec (length t) t m 0 [] Hm)
    as (out & Hrun & Hne & _ & _); [lia|done|done| |].
  { simpl. rewrite take_0. constructor. apply all_space_nil. }
  rewrite Hrun. simpl. rewrite filter_nonempty_id by done.
  exists out. split; [done|].
  apply chunk_loop_trimmed in Hrun; [|constructor].
  apply Forall_forall. intros c Hin. split.
  - by eapply Forall_forall in Hne.
  - by eapply Forall_forall in Hrun.
Qed.

Lemma splitTextIntoChunks_long_trimmed_witness :
  exists chunks,
    splitTextIntoChunks (str "  One.   Two and three.  ") 8 = Some chunks /\
    Forall (fun c => c <> [] /\ trimmed c) chunks.
Proof.
  apply (splitTextIntoChunks_long_trimmed (str "  One.   Two and three.  ") 8);
    simpl; lia.
Defined.

Lemma splitTextIntoChunks_total_witness :
  exists chunks,
    splitTextIntoChunks (str "abcde.fgh") 5 = Some chunks /\
    Forall (fun c => length c <= 5 + 1) chunks.
Proof. apply (splitTextIntoChunks_total (str "abcde.fgh") 5). lia. Defined.

End ChunkerShape.

(** ** Retries: every run, and the time it can take *)

Section RetryBounds.

Import Config Synthesis.

Variable config : TTSProviderConfig.
Variable settings : Normalizer.TextProcessing.
Variable synthesize : jsstring -> nat -> option Error.




Lemma pow2_succ (n : nat) :
  (2 ^ Z.of_nat (S n) == 2 * 2 ^ Z.of_nat n)%Q.
Proof.
  rewrite Nat2Z.inj_succ, <- Z.add_1_l.
  rewrite Qpower_plus by discriminate. reflexivity.
Qed.

Lemma geometric_waits (d : Q) (n : nat) :
  forall a,
    (fold_right Qplus 0
       (map (fun k => d * 2 ^ Z.of_nat (k - 1)%nat) (seq (S a) n))
     == d * 2 ^ Z.of_nat a * (2 ^ Z.of_nat n - 1))%Q.
Proof.
  induction n as [|n IH]; intros a.
  - simpl. ring.
  - cbn [seq map fold_right]. rewrite IH, !pow2_succ.
    replace (S a - 1)%nat with a by lia. ring.
Qed.

(** When every call is answered with a rate-limit failure, the waits of
    the run add up to [retry_delay * (2^retry_attempts - 1)]
    milliseconds before the last error is thrown. *)
Theorem generateSingleAudio_total_wait
  (text : jsstring) (err : nat -> Error) :
  (forall k, k <= maxRetries config ->
     synthesize (Normalizer.normalizeTextForTTS settings text) k
       = Some (err k)) ->
  (forall k, isRateLimit (err k) = true) ->
  exists trace,
    generateSingleAudio config settings synthesize text
      = Some (trace, Thrown (err (maxRetries config))) /\
    (total_wait trace
     == inject_Z (retry_delay (processing config))
        * (2 ^ Z.of_nat (maxRetries config) - 1))%Q.
Proof.
  intros Hfail Hrate. unfold generateSingleAudio.
  destruct (retry_loop_all_fail config synthesize _ err Hfail
              (S (maxRetries config)) 0)
    as (trace & Hrun & _ & Hdel); [lia|lia|].
  exists trace. split; [exact Hrun|].
  unfold total_wait. rewrite Hdel, Nat.sub_0_r.
  rewrite (map_ext _
             (fun k => (inject_Z (retry_delay (processing config))
                        * 2 ^ Z.of_nat (k - 1)%nat)%Q)).
  - change (0 + 1)%nat with 1%nat. rewrite geometric_waits. simpl. ring.
  - intros k. unfold base_delay. by rewrite Hrate.
Qed.

End RetryBounds.


Lemma generateSingleAudio_total_wait_witness :
  exists trace,
    Synthesis.generateSingleAudio three_retries
      Normalizer.globalSettings_text_processing always_rate_limited
      (str "Hello.")
    = Some (trace, Synthesis.Thrown too_many_requests) /\
    (total_wait trace == 7000)%Q.
Proof.
  destruct (generateSingleAudio_total_wait three_retries
              Normalizer.globalSettings_text_processing always_rate_limited
              (str "Hello.") (fun _ => too_many_requests))
    as (trace & Hrun & Hwait).
  - intros k _. reflexivity.
  - intros k. reflexivity.
  - exists trace. split; [exact Hrun|]. rewrite Hwait. reflexivity.
Defined.

(** ** File names *)

Section NamingFacts.

Import Regex Naming.

Lemma replaceAll_Forall2 (rx : matcher) (R R' : char -> Prop) :
  productive rx ->
  (forall prev c s, R c -> rx prev (c :: s) = None -> R' c) ->
  (forall prev s replacement n,
     Forall R s -> rx prev s = Some (replacement, n) ->
     Forall R' replacement) ->
  forall s, Forall R s -> Forall R' (replaceAll rx s).
Proof.
  intros Hprod Hcopy Hrep.
  apply (replaceAll_ind rx (fun s out => Forall R s -> Forall R' out));
    [done|done| |].
  - intros prev c s' out Hnone IH Hs. inversion Hs; subst.
    constructor; [by eapply Hcopy|auto].
  - intros prev c s' replacement n out E IH Hs.
    apply Forall_app. split; [by apply (Hrep prev _ _ n Hs)|].
    apply IH. by apply Forall_drop.
Qed.

Lemma is_space_cases (c : char) :
  is_space c = true -> (c <= 32 \/ 160 <= c)%N.
Proof.
  unfold is_space.
  rewrite !orb_true_iff, !andb_true_iff, !N.leb_le, !N.eqb_eq. lia.
Qed.

Lemma is_slug_char_range (c : char) :
  is_slug_char c = true -> (45 <= c <= 122)%N.
Proof.
  unfold is_slug_char, is_word, is_hyphen, is_digit, ch_eqb, HYPHEN.
  change (chr "_") with 95%N. change (chr "-") with 45%N.
  rewrite !orb_true_iff, !andb_true_iff, !N.leb_le, !N.eqb_eq. lia.
Qed.

Lemma is_slug_char_nonspace (c : char) :
  is_slug_char c = true -> is_space c = false.
Proof.
  intros Hc%is_slug_char_range. destruct (is_space c) eqn:E; [|done].
  apply is_space_cases in E. lia.
Qed.

Lemma trim_nonspace (s : jsstring) :
  Forall (fun c => is_space c = false) s -> trim s = s.
Proof.
  intros Hs. apply trim_fixed.
  - by destruct Hs.
  - apply Forall_reverse in Hs. by destruct Hs.
Qed.

Lemma rx_special_productive : productive rx_special.
Proof.
  intros prev s r n. unfold rx_special. destruct s as [|c s]; [done|].
  destruct (_ || _); [done|]. intros [= _ <-]. lia.
Qed.

Lemma rx_space_run_productive : productive rx_space_run.
Proof.
  intros prev s r n. unfold rx_space_run.
  destruct (takeWhile is_space s); [done|]. intros [= _ <-]. simpl. lia.
Qed.

Lemma rx_hyphens_productive : productive rx_hyphens.
Proof.
  intros prev s r n. unfold rx_hyphens.
  destruct (takeWhile is_hyphen s); [done|]. intros [= _ <-]. simpl. lia.
Qed.

Lemma replaceAll_special_chars (s : jsstring) :
  Forall (fun c => is_word c || is_space c || is_hyphen c = true)
    (replaceAll rx_special s).
Proof.
  apply (replaceAll_Forall2 rx_special (fun _ => True));
    [apply rx_special_productive| | |by apply Forall_true].
  - intros prev c s' _. unfold rx_special. by destruct (_ || _).
  - intros prev s' r n _. unfold rx_special. destruct s' as [|c s']; [done|].
    destruct (_ || _); [done|]. by intros [= <- _].
Qed.

Lemma replaceAll_space_run_chars (s : jsstring) :
  Forall (fun c => is_word c || is_space c || is_hyphen c = true) s ->
  Forall (fun c => is_slug_char c = true) (replaceAll rx_space_run s).
Proof.
  apply replaceAll_Forall2; [apply rx_space_run_productive| |].
  - intros prev c s' Hc. unfold rx_space_run. simpl.
    destruct (is_space c) eqn:E; [done|]. intros _.
    unfold is_slug_char. rewrite orb_false_r in Hc. exact Hc.
  - intros prev s' r n _. unfold rx_space_run.
    destruct (takeWhile is_space s'); [done|]. intros [= <- _].
    by repeat constructor.
Qed.

Lemma replaceAll_hyphens_chars (s : jsstring) :
  Forall (fun c => is_slug_char c = true) s ->
  Forall (fun c => is_slug_char c = true) (replaceAll rx_hyphens s).
Proof.
  apply replaceAll_Forall; [apply rx_hyphens_productive|].
  intros prev s' r n _. unfold rx_hyphens.
  destruct (takeWhile is_hyphen s'); [done|]. intros [= <- _].
  by repeat constructor.
Qed.

Lemma rx_hyphens_some prev s r n :
  rx_hyphens prev s = Some (r, n) ->
  r = [HYPHEN] /\ ~ starts_nonhyphen s /\ drop n s = dropWhile is_hyphen s.
Proof.
  unfold rx_hyphens.
  destruct (takeWhile is_hyphen s) as [|c run] eqn:E; [done|].
  intros [= <- <-]. split; [done|]. split.
  - intros Hs. destruct s as [|d s]; [done|]. simpl in *.
    by rewrite Hs in E.
  - by rewrite <- (drop_takeWhile is_hyphen s), E.
Qed.

Lemma replaceAll_hyphens_single (s : jsstring) :
  single_hyphens (replaceAll rx_hyphens s).
Proof.
  cut (single_hyphens (replaceAll rx_hyphens s) /\
       (starts_nonhyphen s -> starts_nonhyphen (replaceAll rx_hyphens s)));
    [tauto|].
  apply (replaceAll_ind rx_hyphens
    (fun s out => single_hyphens out /\
                  (starts_nonhyphen s -> starts_nonhyphen out)));
    [apply rx_hyphens_productive|done| |].
  - intros prev c s' out Hnone [IH1 IH2].
    assert (is_hyphen c = false) as Hc.
    { unfold rx_hyphens in Hnone. simpl in Hnone.
      by destruct (is_hyphen c). }
    simpl. rewrite Hc. by repeat split.
  - intros prev c s' r n out Hsome [IH1 IH2].
    apply rx_hyphens_some in Hsome as (-> & Hc & Hdrop).
    rewrite Hdrop in IH2.
    assert (starts_nonhyphen out) as Hout.
    { apply IH2. destruct (dropWhile is_hyphen (c :: s')) as [|d u] eqn:Ed;
        [done|]. simpl. by eapply dropWhile_head. }
    simpl. split; [split; [|done]|done].
    intros _. by destruct out.
Qed.

Variable toLowerCase : jsstring -> jsstring.

Lemma sanitizeFilename_slug_chars (text : jsstring) :
  Forall (fun c => is_slug_char c = true)
    (sanitizeFilename toLowerCase text).
Proof.
  unfold sanitizeFilename.
  set (s := replaceAll rx_hyphens _).
  assert (Forall (fun c => is_slug_char c = true) s) as Hs.
  { apply replaceAll_hyphens_chars, replaceAll_space_run_chars,
      replaceAll_special_chars. }
  rewrite trim_nonspace; [exact Hs|].
  eapply Forall_impl; [exact Hs|]. apply is_slug_char_nonspace.
Qed.

(** The result of [sanitizeFilename] is made of word characters
    ([A-Za-z0-9_]) and hyphens only, with no two hyphens in a row: no
    white space, no dot, no path separator, whatever the text was. *)
Theorem sanitizeFilename_shape (text : jsstring) :
  Forall (fun c => is_slug_char c = true)
    (sanitizeFilename toLowerCase text) /\
  single_hyphens (sanitizeFilename toLowerCase text).
Proof.
  unfold sanitizeFilename.
  set (s := replaceAll rx_hyphens _).
  assert (Forall (fun c => is_slug_char c = true) s) as Hs.
  { apply replaceAll_hyphens_chars, replaceAll_space_run_chars,
      replaceAll_special_chars. }
  rewrite trim_nonspace.
  - split; [exact Hs|apply replaceAll_hyphens_single].
  - eapply Forall_impl; [exact Hs|]. apply is_slug_char_nonspace.
Qed.

(** The hyphens that replace white space at the two ends of a title stay:
    the final [trim] never removes anything. *)
Theorem sanitizeFilename_trim_idle (text : jsstring) :
  sanitizeFilename toLowerCase text
  = replaceAll rx_hyphens
      (replaceAll rx_space_run (replaceAll rx_special (toLowerCase text))).
Proof.
  unfold sanitizeFilename. apply trim_nonspace.
  eapply Forall_impl; [|apply is_slug_char_nonspace].
  apply replaceAll_hyphens_chars, replaceAll_space_run_chars,
    replaceAll_special_chars.
Qed.

End NamingFacts.

Section FileNameFacts.

Import Regex Naming Resolver.

Lemma startsWith_app (p rest : jsstring) : startsWith p (p ++ rest) = true.
Proof.
  induction p as [|c p IH]; [done|]. simpl.
  unfold ch_eqb. by rewrite N.eqb_refl.
Qed.

Lemma startsWith_app_r (p q rest : jsstring) :
  startsWith p q = true -> startsWith p (q ++ rest) = true.
Proof.
  revert q. induction p as [|c p IH]; intros q; [done|].
  destruct q as [|d q]; [done|]. simpl.
  intros [-> Hq]%andb_true_iff. simpl. auto.
Qed.

Lemma pretty_N_char_digit (d : N) :
  is_digit (N_of_ascii (pretty_N_char d)) = true.
Proof. unfold pretty_N_char. by repeat case_match. Qed.

Lemma pretty_N_go_digits (x : N) :
  forall s,
    Forall (fun c => is_digit c = true) (str s) ->
    Forall (fun c => is_digit c = true) (str (pretty_N_go x s)).
Proof.
  induction (N.lt_wf_0 x) as [x _ IH]. intros s Hs.
  destruct (decide (x = 0)%N) as [->|Hx]; [by rewrite pretty_N_go_0|].
  rewrite pretty_N_go_step by lia. apply IH.
  - apply N.div_lt; lia.
  - constructor; [apply pretty_N_char_digit|exact Hs].
Qed.

Lemma String_of_int_digits (n : Z) :
  (0 <= n)%Z -> Forall (fun c => is_digit c = true) (String_of_int n).
Proof.
  intros Hn. unfold String_of_int, pretty, pretty_Z.
  destruct n as [|p|p]; [by repeat constructor| |lia].
  unfold pretty, pretty_N. simpl. apply pretty_N_go_digits. constructor.
Qed.

Lemma padStart2_Forall (R : char -> Prop) (s : jsstring) :
  R (chr "0") -> Forall R s -> Forall R (padStart2 s).
Proof.
  intros H0 Hs. unfold padStart2. apply Forall_app. split; [|done].
  by apply Forall_replicate.
Qed.

Lemma padStart2_length (s : jsstring) :
  length (padStart2 s) = max 2 (length s).
Proof. unfold padStart2. rewrite length_app, length_replicate. lia. Qed.

Lemma digit_slug (c : char) : is_digit c = true -> is_slug_char c = true.
Proof. unfold is_slug_char, is_word. by intros ->. Qed.

Lemma chapter_number_slug (n : Z) :
  (0 <= n)%Z ->
  Forall (fun c => is_slug_char c = true) (padStart2 (String_of_int n)).
Proof.
  intros Hn. apply padStart2_Forall; [done|].
  eapply Forall_impl; [by apply String_of_int_digits|]. apply digit_slug.
Qed.

Variable toLowerCase : jsstring -> jsstring.

(** The chapter list of [listChapters] recognises the name that
    [generateBookAudio] gives the audio file of a chapter: if a file of
    that name is among the directory entries that the list reads, the
    chapter is shown as having audio. *)
Theorem hasAudio_of_generated
  (existingAudio : list jsstring) (chapter : Chapter) (ext : jsstring) :
  In (audioFilename toLowerCase chapter ext) existingAudio ->
  hasAudio existingAudio chapter = true.
Proof.
  intros Hin. unfold hasAudio. apply existsb_exists.
  exists (audioFilename toLowerCase chapter ext). split; [exact Hin|].
  unfold audioFilename. apply startsWith_app.
Qed.

(** The mark is by prefix only: a chapter whose zero-padded number starts
    the number of another chapter is shown as having audio as soon as the
    other chapter's file exists. *)
Theorem hasAudio_by_prefix
  (existingAudio : list jsstring) (chapter other : Chapter)
  (ext : jsstring) :
  startsWith (padStart2 (String_of_int (order chapter)))
    (padStart2 (String_of_int (order other))) = true ->
  In (audioFilename toLowerCase other ext) existingAudio ->
  hasAudio existingAudio chapter = true.
Proof.
  intros Hprefix Hin. unfold hasAudio. apply existsb_exists.
  exists (audioFilename toLowerCase other ext). split; [exact Hin|].
  unfold audioFilename. by apply startsWith_app_r.
Qed.

(** The audio file name of a chapter with a non-negative order is made of
    word characters, hyphens and dots only, when the extension is: so it
    has no path separator and no white space, whatever the title. *)
Theorem audioFilename_chars (chapter : Chapter) (ext : jsstring) :
  (0 <= order chapter)%Z ->
  Forall (fun c => is_slug_char c = true) ext ->
  Forall (fun c => is_slug_char c = true \/ c = chr ".")
    (audioFilename toLowerCase chapter ext) /\
  ~ In (chr "/") (audioFilename toLowerCase chapter ext).
Proof.
  intros Horder Hext.
  assert (Forall (fun c => is_slug_char c = true \/ c = chr ".")
            (audioFilename toLowerCase chapter ext)) as Hchars.
  { unfold audioFilename.
    apply Forall_app; split; [|apply Forall_app; split;
      [|apply Forall_app; split; [|apply Forall_app; split]]].
    - eapply Forall_impl; [by apply chapter_number_slug|]. by left.
    - constructor; [by left|constructor].
    - eapply Forall_impl; [apply sanitizeFilename_slug_chars|]. by left.
    - constructor; [by right|constructor].
    - eapply Forall_impl; [exact Hext|]. by left. }
  split; [exact Hchars|].
  intros Hin. apply list_elem_of_In in Hin.
  eapply Forall_forall in Hchars; [|exact Hin].
  by destruct Hchars.
Qed.

Lemma replaceFirst_extension (stem replacement : jsstring) :
  Forall (fun c => c <> chr ".") stem ->
  replaceFirst (str ".md") replacement (stem ++ str ".md")
  = stem ++ replacement.
Proof.
  induction 1 as [|c stem Hc _ IH].
  - simpl. by rewrite app_nil_r.
  - cbn [app replaceFirst].
    assert (startsWith (str ".md") (c :: stem ++ str ".md") = false) as ->.
    { change (startsWith (str ".md") (c :: stem ++ str ".md"))
        with (ch_eqb (chr ".") c
              && startsWith (str "md") (stem ++ str ".md")).
      unfold ch_eqb. destruct (N.eqb_spec (chr ".") c); [by subst|done]. }
    by rewrite IH.
Qed.

Lemma slug_not_dot (c : char) : is_slug_char c = true -> c <> chr ".".
Proof. by intros Hc ->. Qed.

Variable chapterNaming : ChapterNaming.

Lemma chapterFileStem_chars (chapter : FlowItem) (index : nat) :
  Forall (fun c => is_slug_char c = true)
    (chapterFileStem toLowerCase chapterNaming chapter index).
Proof.
  unfold chapterFileStem.
  assert (Forall (fun c => is_slug_char c = true)
            (padStart2 (String_of_int (Z.of_nat (index + 1))))) as Hnum
    by (apply chapter_number_slug; lia).
  destruct chapterNaming; [done|apply sanitizeFilename_slug_chars|].
  apply Forall_app; split; [done|]. apply Forall_app; split;
    [by repeat constructor|apply sanitizeFilename_slug_chars].
Qed.

(** The plain-text copy of a chapter file differs from it in the
    extension only: in a name made by [generateChapterFilename] the first
    [".md"] that [replace] finds is the extension, under every naming
    scheme and for every title. *)
Theorem textFilename_of_generated (chapter : FlowItem) (index : nat) :
  textFilename
    (generateChapterFilename toLowerCase chapterNaming chapter index)
  = chapterFileStem toLowerCase chapterNaming chapter index ++ str ".txt".
Proof.
  unfold textFilename, generateChapterFilename.
  apply replaceFirst_extension.
  eapply Forall_impl; [apply chapterFileStem_chars|]. apply slug_not_dot.
Qed.

Lemma build_chapters_lookup (flow : list FlowItem) :
  forall i k item,
    flow !! k = Some item ->
    build_chapters toLowerCase chapterNaming i flow !! k
    = Some {| id := flow_id item;
              title := title_or (flow_title item)
                (str "Chapter " ++ String_of_int (Z.of_nat (i + k + 1)));
              order := Z.of_nat (i + k + 1);
              filename := generateChapterFilename toLowerCase chapterNaming
                            item (i + k) |}.
Proof.
  induction flow as [|d flow IH]; intros i k item; [done|].
  destruct k as [|k]; simpl.
  - intros [= ->]. by rewrite !Nat.add_0_r.
  - intros Hk. rewrite (IH (i + 1) k item Hk).
    by replace (i + 1 + k) with (i + S k) by lia.
Qed.

Lemma build_chapters_find (flow : list FlowItem) :
  forall i k,
    k < length flow ->
    List.find (fun ch => (order ch =? Z.of_nat (i + k + 1))%Z)
      (build_chapters toLowerCase chapterNaming i flow)
    = build_chapters toLowerCase chapterNaming i flow !! k.
Proof.
  induction flow as [|d flow IH]; intros i k Hk; simpl in *; [lia|].
  destruct k as [|k]; simpl.
  - rewrite Nat.add_0_r. by rewrite Z.eqb_refl.
  - destruct (Z.eqb_spec (Z.of_nat (i + 1)) (Z.of_nat (i + S k + 1)));
      [lia|].
    replace (i + S k + 1) with (i + 1 + k + 1) by lia. apply IH. lia.
Qed.

(** The converter numbers the chapters 1, 2, ..., n in flow order. *)
Theorem build_chapters_orders (flow : list FlowItem) (i : nat) :
  map order (build_chapters toLowerCase chapterNaming i flow)
  = map Z.of_nat (seq (i + 1) (length flow)).
Proof.
  revert i. induction flow as [|d flow IH]; intros i; [done|].
  simpl. f_equal. rewrite IH. by replace (i + 1 + 1) with (S (i + 1)) by lia.
Qed.

(** On a table of contents written by the converter, an identifier that
    [parseInt] reads as a number [k] between 1 and the number of chapters
    resolves to the [k]-th item of the flow. *)
Theorem findChapter_of_converted
  (metadata : BookMetadata) (flow : list FlowItem)
  (identifier : jsstring) (k : nat) (item : FlowItem) :
  parseInt identifier = Some (Z.of_nat (k + 1)) ->
  flow !! k = Some item ->
  exists ch,
    findChapter toLowerCase
      (build_toc toLowerCase chapterNaming metadata flow) identifier
    = Some ch /\
    id ch = flow_id item /\ order ch = Z.of_nat (k + 1) /\
    filename ch = generateChapterFilename toLowerCase chapterNaming item k.
Proof.
  intros Hparse Hitem. unfold findChapter. rewrite Hparse. simpl.
  pose proof (build_chapters_find flow 0 k) as Hfind. simpl in Hfind.
  rewrite Hfind by (by eapply lookup_lt_Some).
  rewrite (build_chapters_lookup flow 0 k item Hitem). simpl.
  eexists. split; [reflexivity|]. by repeat split.
Qed.

End FileNameFacts.

Lemma hasAudio_of_generated_witness :
  Naming.hasAudio [str "02-out-of-chaos.wav"]
    (Resolver.chapter 2 "Out of CHAOS") = true.
Proof.
  apply (hasAudio_of_generated Resolver.ascii_toLowerCase
           [str "02-out-of-chaos.wav"] (Resolver.chapter 2 "Out of CHAOS")
           (str "wav")).
  vm_compute. by left.
Defined.

Lemma hasAudio_by_prefix_witness :
  Naming.hasAudio [str "100-the-end.wav"]
    (Resolver.chapter 10 "The Beginning") = true.
Proof.
  apply (hasAudio_by_prefix Resolver.ascii_toLowerCase
           [str "100-the-end.wav"] (Resolver.chapter 10 "The Beginning")
           (Resolver.chapter 100 "The End") (str "wav")).
  - vm_compute. reflexivity.
  - vm_compute. by left.
Defined.

Lemma audioFilename_chars_witness :
  Forall (fun c => is_slug_char c = true \/ c = chr ".")
    (Naming.audioFilename Resolver.ascii_toLowerCase
       (Resolver.chapter 2 "Out of / CHAOS") (str "wav")) /\
  ~ In (chr "/")
      (Naming.audioFilename Resolver.ascii_toLowerCase
         (Resolver.chapter 2 "Out of / CHAOS") (str "wav")).
Proof.
  apply (audioFilename_chars Resolver.ascii_toLowerCase
           (Resolver.chapter 2 "Out of / CHAOS") (str "wav")).
  - simpl. lia.
  - by repeat constructor.
Defined.

Lemma findChapter_of_converted_witness :
  exists ch,
    Resolver.findChapter Resolver.ascii_toLowerCase
      (Naming.build_toc Resolver.ascii_toLowerCase Naming.both
         (Resolver.book Resolver.sample_toc) sample_flow) (str "2")
    = Some ch /\
    Resolver.id ch = str "item2" /\ Resolver.order ch = 2%Z /\
    Resolver.filename ch = str "02-chapter-2.md".
Proof.
  destruct (findChapter_of_converted Resolver.ascii_toLowerCase Naming.both
              (Resolver.book Resolver.sample_toc) sample_flow (str "2") 1
              {| Naming.flow_id := str "item2";
                 Naming.flow_title := None |})
    as (ch & Hfind & Hid & Horder & Hname).
  - vm_compute. reflexivity.
  - reflexivity.
  - exists ch. split; [exact Hfind|]. split; [exact Hid|].
    split; [exact Horder|]. rewrite Hname. vm_compute. reflexivity.
Defined.

(** ** The provider registry *)

Section RegistryFacts.

Import Config Validation.

(** The provider type has three members and the registry two: looking up
    the configuration, and with it the merge of the options, fails for
    ["elevenlabs"] and for no other provider. *)
Theorem getEffectiveOptions_unregistered
  (provider : TTSProvider) (options : ChapterAudioOptions) :
  getEffectiveOptions provider options = None <-> provider = elevenlabs.
Proof.
  unfold getEffectiveOptions, getProviderConfig, providers.
  destruct provider; simpl.
  - rewrite lookup_insert_eq. by split.
  - rewrite lookup_insert_ne by done. rewrite lookup_insert_eq. by split.
  - rewrite !lookup_insert_ne by done. by rewrite lookup_empty.
Qed.

Lemma getFullConfig_cases (provider : TTSProvider) :
  getFullConfig provider
  = match provider with
    | google => Some (googleTTSConfig, googleCatalog)
    | openai => Some (openaiTTSConfig, openaiCatalog)
    | elevenlabs => None
    end.
Proof. by destruct provider. Qed.

(** Validation passes exactly for a registered provider whose API key
    variable is set to a non-empty value: the declared default voice,
    model and format of both providers are in their catalogues, and an
    unregistered provider is reported, not thrown. *)
Theorem validateProviderConfig_valid
  (env : gmap string jsstring) (provider : TTSProvider) :
  valid (validateProviderConfig env provider) = true <->
  exists config catalog apiKey,
    getFullConfig provider = Some (config, catalog) /\
    env_key env (api_key_env catalog) = Some apiKey.
Proof.
  unfold validateProviderConfig. rewrite getFullConfig_cases.
  destruct provider; simpl.
  - destruct (env_key env "GOOGLE_API_KEY") as [k|] eqn:E; simpl.
    + split; [|done]. intros _. by exists googleTTSConfig, googleCatalog, k.
    + split; [done|]. intros (? & ? & ? & [= <- <-] & Hk).
      simpl in Hk. congruence.
  - destruct (env_key env "OPENAI_API_KEY") as [k|] eqn:E; simpl.
    + split; [|done]. intros _. by exists openaiTTSConfig, openaiCatalog, k.
    + split; [done|]. intros (? & ? & ? & [= <- <-] & Hk).
      simpl in Hk. congruence.
  - split; [done|]. by intros (? & ? & ? & [=] & _).
Qed.

Lemma env_key_Some (env : gmap string jsstring) (name : string)
  (apiKey : jsstring) :
  env_key env name = Some apiKey -> env !! name = Some apiKey.
Proof.
  unfold env_key. destruct (env !! name) as [[|c k]|]; [done| |done].
  by intros [= <-].
Qed.

(** A provider that passes validation can be used: its options merge,
    and [getAuthHeaders] returns the declared headers with the credential
    of the environment added ([x-goog-api-key] for google,
    [Authorization: Bearer] for openai). *)
Theorem validated_provider_usable
  (env : gmap string jsstring) (provider : TTSProvider)
  (options : ChapterAudioOptions) :
  valid (validateProviderConfig env provider) = true ->
  (exists eff, getEffectiveOptions provider options = Some eff) /\
  exists headers apiKey,
    getAuthHeaders env provider = Some headers /\
    headers !! "Content-Type" = Some (str "application/json") /\
    match provider with
    | google =>
      env !! "GOOGLE_API_KEY" = Some apiKey /\
      headers !! "x-goog-api-key" = Some apiKey
    | openai =>
      env !! "OPENAI_API_KEY" = Some apiKey /\
      headers !! "Authorization" = Some (str "Bearer " ++ apiKey)
    | elevenlabs => False
    end.
Proof.
  unfold validateProviderConfig, getAuthHeaders.
  rewrite getFullConfig_cases. destruct provider; simpl; [| |done].
  - destruct (env_key env "GOOGLE_API_KEY") as [apiKey|] eqn:Hkey;
      [|done].
    intros _. split; [by eexists|]. simpl.
    eexists _, apiKey. split; [reflexivity|]. split; [|split].
    + by rewrite lookup_insert_ne.
    + by apply env_key_Some.
    + by rewrite lookup_insert_eq.
  - destruct (env_key env "OPENAI_API_KEY") as [apiKey|] eqn:Hkey;
      [|done].
    intros _. split; [by eexists|]. simpl.
    eexists _, apiKey. split; [reflexivity|]. split; [|split].
    + by rewrite lookup_insert_ne.
    + by apply env_key_Some.
    + by rewrite lookup_insert_eq.
Qed.

End RegistryFacts.

Lemma validated_provider_usable_witness :
  exists headers,
    Validation.getAuthHeaders sample_env Config.openai = Some headers /\
    headers !! "Authorization" = Some (str "Bearer sk-test").
Proof.
  destruct (validated_provider_usable sample_env Config.openai
              Config.no_options)
    as (_ & headers & apiKey & Hh & _ & Hkey & Hauth).
  - vm_compute. reflexivity.
  - exists headers. split; [exact Hh|]. rewrite Hauth.
    vm_compute in Hkey. by injection Hkey as <-.
Defined.

(** ** Normalizer: the shape of the result *)

Section NormalizerShape.

Import Regex Normalizer.

Lemma rx_footnote_productive (open close : char) :
  productive (rx_footnote open close).
Proof.
  intros prev s r n. unfold rx_footnote. destruct s as [|c s]; [done|].
  destruct (ch_eqb c open); [|done].
  destruct (takeWhile is_digit s); [done|].
  destruct (dropWhile is_digit s) as [|c2 ?]; [done|].
  destruct (ch_eqb c2 close); [|done]. intros [= _ <-]. lia.
Qed.

Lemma rx_emphasis_productive (delim : jsstring) :
  productive (rx_emphasis (chr "*" :: delim)).
Proof.
  intros prev s r n. unfold rx_emphasis.
  destruct (startsWith _ s); [|done].
  destruct (lazy_dot_until _ _); simpl; [|done]. intros [= _ <-]. lia.
Qed.

Lemma rx_link_productive : productive rx_link.
Proof.
  intros prev s r n. unfold rx_link. destruct s as [|c s]; [done|].
  destruct (ch_eqb c _); [|done].
  destruct (takeWhile _ s); [done|].
  destruct (dropWhile _ s) as [|? [|c2 s2]]; [done|done|].
  destruct (ch_eqb c2 _); [|done].
  destruct (takeWhile _ s2); [done|].
  destruct (dropWhile _ s2); [done|]. intros [= _ <-]. lia.
Qed.

Lemma rx_list_marker_productive : productive rx_list_marker.
Proof.
  intros prev s r n. unfold rx_list_marker.
  destruct (at_line_start prev); [|done].
  destruct (dropWhile is_space s) as [|c s1]; [done|].
  destruct (is_list_marker c); [|done].
  destruct (takeWhile is_space s1); [done|]. intros [= _ <-]. lia.
Qed.

Lemma lazy_dot_until_prefix (delim : jsstring) (s inner : jsstring) :
  lazy_dot_until delim s = Some inner -> exists rest, s = inner ++ rest.
Proof.
  revert inner. induction s as [|c s IH]; intros inner; simpl.
  - destruct (startsWith delim []); [|done]. intros [= <-]. by exists [].
  - destruct (startsWith delim (c :: s)); [intros [= <-]; by eexists|].
    destruct (is_line_terminator c); [done|].
    destruct (lazy_dot_until delim s) as [inner'|]; simpl; [|done].
    intros [= <-]. destruct (IH inner' eq_refl) as [rest ->]. by exists rest.
Qed.

Variable R : char -> Prop.

Lemma rx_footnote_keeps open close prev s r n :
  Forall R s -> rx_footnote open close prev s = Some (r, n) -> Forall R r.
Proof.
  intros _. unfold rx_footnote. destruct s as [|c s]; [done|].
  destruct (ch_eqb c open); [|done].
  destruct (takeWhile is_digit s); [done|].
  destruct (dropWhile is_digit s) as [|c2 ?]; [done|].
  destruct (ch_eqb c2 close); [|done]. by intros [= <- _].
Qed.

Lemma rx_emphasis_keeps delim prev s r n :
  Forall R s -> rx_emphasis delim prev s = Some (r, n) -> Forall R r.
Proof.
  intros Hs. unfold rx_emphasis. destruct (startsWith delim s); [|done].
  destruct (lazy_dot_until _ _) as [inner|] eqn:E; simpl; [|done].
  intros [= <- _]. apply lazy_dot_until_prefix in E as [rest E].
  apply (Forall_drop _ (length delim)) in Hs. rewrite E in Hs.
  by apply Forall_app in Hs as [? _].
Qed.

Lemma rx_link_keeps prev s r n :
  Forall R s -> rx_link prev s = Some (r, n) -> Forall R r.
Proof.
  intros Hs. unfold rx_link. destruct s as [|c s]; [done|].
  destruct (ch_eqb c _); [|done].
  destruct (takeWhile _ s) as [|t0 text] eqn:E; [done|].
  destruct (dropWhile _ s) as [|? [|c2 s2]]; [done|done|].
  destruct (ch_eqb c2 _); [|done].
  destruct (takeWhile _ s2); [done|].
  destruct (dropWhile _ s2); [done|]. intros [= <- _].
  rewrite <- E. apply takeWhile_sub. by inversion Hs.
Qed.

Lemma rx_list_marker_keeps prev s r n :
  Forall R s -> rx_list_marker prev s = Some (r, n) -> Forall R r.
Proof.
  intros _. unfold rx_list_marker.
  destruct (at_line_start prev); [|done].
  destruct (dropWhile is_space s) as [|c s1]; [done|].
  destruct (is_list_marker c); [|done].
  destruct (takeWhile is_space s1); [done|]. by intros [= <- _].
Qed.

End NormalizerShape.

Section NormalizerResult.

Import Regex Normalizer.

Lemma single_spaced_spaces_only (s : jsstring) :
  single_spaced s -> spaces_only s.
Proof.
  induction s as [|c s IH]; [constructor|]. intros [Hc Hs].
  constructor; [|by apply IH]. intros Hsp. by destruct (Hc Hsp).
Qed.

Lemma rx_blank_lines_spaces_only prev s r n :
  spaces_only s -> rx_blank_lines prev s = Some (r, n) -> spaces_only r.
Proof.
  intros Hs. unfold rx_blank_lines.
  destruct (3 <=? _) eqn:E; [|done]. apply Nat.leb_le in E.
  destruct s as [|c s]; simpl in E; [lia|].
  destruct (is_lf c) eqn:Hc; [|simpl in E; lia].
  inversion Hs as [|? ? HR _]; subst.
  specialize (HR (is_lf_space c Hc)). apply is_lf_eq in Hc.
  rewrite Hc in HR. discriminate HR.
Qed.

Lemma rx_sentence_break_spaces_only prev s r n :
  spaces_only s -> rx_sentence_break prev s = Some (r, n) -> spaces_only r.
Proof.
  intros Hs. unfold rx_sentence_break. destruct s as [|c s]; [done|].
  destruct (is_terminator c) eqn:Hc; [|done]. destruct (existsb _ _); [|done].
  intros [= <- _]. constructor; [by inversion Hs|]. by repeat constructor.
Qed.

Lemma rx_paragraph_break_spaces_only prev s r n :
  spaces_only s -> rx_paragraph_break prev s = Some (r, n) -> spaces_only r.
Proof.
  intros _. unfold rx_paragraph_break. destruct s as [|c s]; [done|].
  destruct (is_lf c); [|done].
  destruct (through_last_lf _); simpl; [|done].
  intros [= <- _]. by repeat constructor.
Qed.

Lemma trim_Forall (R : char -> Prop) (s : jsstring) :
  Forall R s -> Forall R (trim s).
Proof.
  destruct (trim_decompose s) as (l & r & E & _). rewrite E at 1.
  rewrite !Forall_app. tauto.
Qed.

Lemma cleanup_spaces_only (s : jsstring) :
  spaces_only s -> spaces_only (cleanup s).
Proof.
  intros Hs. unfold cleanup. apply trim_Forall.
  apply replaceAll_Forall;
    [apply rx_paragraph_break_productive
    |apply rx_paragraph_break_spaces_only|].
  apply replaceAll_Forall;
    [apply rx_sentence_break_productive
    |apply rx_sentence_break_spaces_only|].
  apply replaceAll_Forall;
    [apply rx_blank_lines_productive|apply rx_blank_lines_spaces_only|].
  apply replaceAll_Forall;
    [apply rx_list_marker_productive|apply rx_list_marker_keeps|].
  apply replaceAll_Forall; [apply rx_link_productive|apply rx_link_keeps|].
  apply replaceAll_Forall;
    [apply rx_emphasis_productive|apply rx_emphasis_keeps|].
  apply replaceAll_Forall;
    [apply rx_emphasis_productive|apply rx_emphasis_keeps|].
  exact Hs.
Qed.

(** With [clean_markdown] on, the normalized text never starts or ends
    with white space; with [normalize_whitespace] on as well, its only
    white space is the space character: it has no line break and no tab,
    whatever the text was. *)
Theorem normalizeTextForTTS_result_shape
  (settings : TextProcessing) (t : jsstring) :
  clean_markdown settings = true ->
  trimmed (normalizeTextForTTS settings t) /\
  (normalize_whitespace settings = true ->
   spaces_only (normalizeTextForTTS settings t)).
Proof.
  intros Hclean. unfold normalizeTextForTTS. rewrite Hclean. simpl. split.
  - unfold cleanup. apply trim_trimmed.
  - intros ->. apply cleanup_spaces_only, single_spaced_spaces_only,
      replaceAll_spaces_single_spaced.
Qed.

Lemma normalizeTextForTTS_result_shape_witness :
  trimmed (normalizeTextForTTS globalSettings_text_processing
             (str "  - **Bold**  text (1)  ")) /\
  (normalize_whitespace globalSettings_text_processing = true ->
   spaces_only (normalizeTextForTTS globalSettings_text_processing
                  (str "  - **Bold**  text (1)  "))).
Proof.
  apply (normalizeTextForTTS_result_shape globalSettings_text_processing).
  reflexivity.
Defined.

End NormalizerResult.

(** ** One text to one audio file *)

Section PipelineFacts.

Import Pipeline.

Variable chunk_size : nat.
Variable rate_limit_delay : Z.
Variable generateSingleAudio :
  jsstring -> jsstring -> gmap (list N) (list Z)
  -> gmap (list N) (list Z) * result.
Variable chunkPath : nat -> jsstring.
Variable audio : nat -> list Z.











End PipelineFacts.

Section PipelineTheorems.

Import Pipeline.

Variable chunk_size : nat.
Variable rate_limit_delay : Z.
Variable logFile : jsstring.
Variable timestamp : jsstring.
Variable utf8 : jsstring -> list Z.
Variable generateSingleAudio :
  jsstring -> jsstring -> gmap (list N) (list Z)
  -> gmap (list N) (list Z) * result.
Variable chunkPath : nat -> jsstring.
Variable audio : nat -> list Z.



End PipelineTheorems.



(** ** Chunk files that are WAV containers *)

Section ConcatenatedWav.

Import Wav Pipeline.
Local Open Scope Z_scope.

Lemma createWavFile_bytes (pcm : list Z) (R : Z) :
  0 <= R -> 2 * R <= 4294967295 ->
  36 + Z.of_nat (length pcm) <= 4294967295 ->
  exists header,
    createWavFile pcm R = Some (header ++ pcm) /\
    length header = 44%nat /\
    take 4 header = ascii_bytes "RIFF" /\
    readUInt32LE (header ++ pcm) 4 = Some (36 + Z.of_nat (length pcm)) /\
    readUInt32LE (header ++ pcm) 40 = Some (Z.of_nat (length pcm)).
Proof.
  intros HR1 HR2 HN. unfold createWavFile.
  set (N := Z.of_nat (length pcm)) in *.
  rewrite wav_header_bytes by lia. cbn [mbind option_bind].
  eexists. split; [reflexivity|]. split; [reflexivity|].
  split; [reflexivity|].
  unfold readUInt32LE.
  cbn [lookup list_lookup Nat.add mbind option_bind app].
  rewrite !uint32_bytes by lia. done.
Qed.

(** When the chunk files are WAV containers, as for a provider that
    returns raw PCM, the concatenated file is not one container: its
    header still declares the sizes of the first chunk only, and the
    header of the second chunk sits in the data, right after the PCM
    bytes of the first. *)
Theorem concatenated_wav_declares_first_chunk
  (pcm1 pcm2 : list Z) (R : Z) (files : gmap (list N) (list Z))
  (p1 p2 out : jsstring) (w1 w2 : list Z)
  (logFile timestamp : jsstring) (utf8 : jsstring -> list Z) :
  0 <= R -> 2 * R <= 4294967295 ->
  36 + Z.of_nat (length pcm1) <= 4294967295 ->
  36 + Z.of_nat (length pcm2) <= 4294967295 ->
  createWavFile pcm1 R = Some w1 -> files !! p1 = Some w1 ->
  createWavFile pcm2 R = Some w2 -> files !! p2 = Some w2 ->
  exists w,
    concatenateAudioFiles logFile timestamp utf8 files [p1; p2] out
    = (log logFile timestamp utf8 (<[out := w]> files)
         (str "Concatenated 2 audio chunks") level_info,
       Resolved) /\
    length w = (88 + length pcm1 + length pcm2)%nat /\
    readUInt32LE w 4 = Some (36 + Z.of_nat (length pcm1)) /\
    readUInt32LE w 40 = Some (Z.of_nat (length pcm1)) /\
    tag_at w (44 + length pcm1) "RIFF".
Proof.
  intros HR1 HR2 HN1 HN2 Hw1 Hf1 Hw2 Hf2.
  destruct (createWavFile_bytes pcm1 R HR1 HR2 HN1)
    as (h1 & E1 & Hl1 & _ & Hriff1 & Hdata1).
  destruct (createWavFile_bytes pcm2 R HR1 HR2 HN2)
    as (h2 & E2 & Hl2 & Htag2 & _).
  rewrite E1 in Hw1. injection Hw1 as <-.
  rewrite E2 in Hw2. injection Hw2 as <-.
  unfold concatenateAudioFiles. simpl. rewrite Hf1, Hf2. simpl.
  eexists. split; [reflexivity|]. rewrite app_nil_r.
  assert (forall i : nat, (i < 44)%nat ->
            ((h1 ++ pcm1) ++ h2 ++ pcm2) !! i = (h1 ++ pcm1) !! i) as Hlook.
  { intros i Hi. apply lookup_app_l. rewrite length_app. lia. }
  split; [|split; [|split]].
  - rewrite !length_app. lia.
  - unfold readUInt32LE in *. by rewrite !Hlook by lia.
  - unfold readUInt32LE in *. by rewrite !Hlook by lia.
  - unfold tag_at. rewrite <- Htag2.
    rewrite <- (take_app_le h2 pcm2 4) by lia. f_equal.
    rewrite <- (drop_app_length (h1 ++ pcm1) (h2 ++ pcm2)) at 2.
    f_equal. rewrite length_app. lia.
Qed.

Lemma concatenated_wav_declares_first_chunk_witness :
  exists w,
    concatenateAudioFiles sample_logFile sample_timestamp ascii_utf8
      sample_wav_disk [str "c0"; str "c1"] (str "out")
    = (log sample_logFile sample_timestamp ascii_utf8
         (<[str "out" := w]> sample_wav_disk)
         (str "Concatenated 2 audio chunks") level_info,
       Resolved) /\
    length w = 92%nat /\
    readUInt32LE w 40 = Some 2.
Proof.
  destruct (concatenated_wav_declares_first_chunk [7; 8] [9; 10] 24000
              sample_wav_disk (str "c0") (str "c1") (str "out")
              (sample_wav [7; 8]) (sample_wav [9; 10])
              sample_logFile sample_timestamp ascii_utf8)
    as (w & Hrun & Hlen & _ & Hdata & _);
    [lia|lia|simpl; lia|simpl; lia
    |vm_compute; reflexivity|vm_compute; reflexivity
    |vm_compute; reflexivity|vm_compute; reflexivity|].
  exists w. split; [exact Hrun|]. split; [exact Hlen|exact Hdata].
Defined.

End ConcatenatedWav.

(** ** The chapter loop of a whole book *)

Section BookFacts.

Import Resolver Pipeline Book.

Variable World : Type.
Variable toLowerCase : jsstring -> jsstring.
Variable audioExtension : jsstring.
Variable rate_limit_delay : Z.
Variable sourceExists : Chapter -> World -> bool.
Variable generateChapterAudio :
  Chapter -> jsstring -> World -> World * result.

Lemma visited_app (t1 t2 : list event) :
  visited (t1 ++ t2) = visited t1 ++ visited t2.
Proof.
  induction t1 as [|[] t1 IH]; simpl; by rewrite ?IH.
Qed.

Lemma generated_app (t1 t2 : list event) :
  generated (t1 ++ t2) = generated t1 ++ generated t2.
Proof.
  induction t1 as [|[] t1 IH]; simpl; by rewrite ?IH.
Qed.

Lemma chapter_delays_app (t1 t2 : list event) :
  chapter_delays (t1 ++ t2) = chapter_delays t1 ++ chapter_delays t2.
Proof.
  induction t1 as [|[] t1 IH]; simpl; by rewrite ?IH.
Qed.

(** The loop only appends to what has been observed. *)
Lemma chapters_loop_acc (chapters : list Chapter) (w : World)
  (trace : list event) :
  chapters_loop World toLowerCase audioExtension rate_limit_delay
    sourceExists generateChapterAudio chapters w trace
  = let '(w', added, r) :=
      chapters_loop World toLowerCase audioExtension rate_limit_delay
        sourceExists generateChapterAudio chapters w [] in
    (w', trace ++ added, r).
Proof.
  revert w trace. induction chapters as [|ch rest IH]; intros w trace.
  { simpl. by rewrite app_nil_r. }
  simpl. destruct (sourceExists ch w); simpl.
  - destruct (generateChapterAudio ch _ w) as [w' [|error]].
    + rewrite IH. rewrite (IH w' [_; _]).
      destruct (chapters_loop _ _ _ _ _ _ rest w' []) as [[w2 added] r].
      by rewrite <- !app_assoc.
    + done.
  - rewrite IH. rewrite (IH w [_]).
    destruct (chapters_loop _ _ _ _ _ _ rest w []) as [[w2 added] r].
    by rewrite <- !app_assoc.
Qed.

(** A run that resolves has gone through the chapters of the table of
    contents in order, and what it did is, chapter by chapter, either the
    warning for a missing source file or the generation of the chapter
    into its audio file followed at once by the wait of
    [rate_limit_delay]: the wait comes after every generated chapter, the
    last one included, and nowhere else. *)
Theorem generateBookAudio_completes (chapters : list Chapter)
  (w w' : World) (trace : list event) :
  chapters_loop World toLowerCase audioExtension rate_limit_delay
    sourceExists generateChapterAudio chapters w []
  = (w', trace, Resolved) ->
  (exists present : list bool,
     length present = length chapters /\
     trace
     = concat (zip_with
                 (chapter_steps toLowerCase audioExtension rate_limit_delay)
                 chapters present)) /\
  visited trace = map filename chapters /\
  chapter_delays trace
  = replicate (length (generated trace)) rate_limit_delay.
Proof.
  revert w w' trace.
  induction chapters as [|ch rest IH]; intros w w' trace.
  { simpl. intros [= _ <-]. split; [by exists []|done]. }
  simpl. destruct (sourceExists ch w); simpl.
  - destruct (generateChapterAudio ch _ w) as [w1 [|error]]; [|done].
    rewrite chapters_loop_acc.
    destruct (chapters_loop _ _ _ _ _ _ rest w1 []) as [[w2 added] r] eqn:E.
    intros [= _ <- ->].
    destruct (IH _ _ _ E) as ((present & Hlen & Htrace) & IH1 & IH2).
    split; [|simpl; by rewrite IH1, IH2].
    exists (true :: present). simpl. by rewrite Hlen, <- Htrace.
  - rewrite chapters_loop_acc.
    destruct (chapters_loop _ _ _ _ _ _ rest w []) as [[w2 added] r] eqn:E.
    intros [= _ <- ->].
    destruct (IH _ _ _ E) as ((present & Hlen & Htrace) & IH1 & IH2).
    split; [|simpl; by rewrite IH1, IH2].
    exists (false :: present). simpl. by rewrite Hlen, <- Htrace.
Qed.

(** A chapter whose generation is rejected ends the run with that error:
    the rejected generation is the last thing the loop does, no wait
    follows it, and the chapters after it in the table of contents are
    neither generated nor looked at. *)
Theorem generateBookAudio_stops_at_failure (chapters : list Chapter)
  (w w' : World) (trace : list event) (error : Synthesis.Error) :
  chapters_loop World toLowerCase audioExtension rate_limit_delay
    sourceExists generateChapterAudio chapters w []
  = (w', trace, Rejected error) ->
  exists before bad after,
    chapters = before ++ bad :: after /\
    visited trace = map filename (before ++ [bad]) /\
    last trace
    = Some (GenerateChapter bad
              (Naming.audioFilename toLowerCase bad audioExtension)).
Proof.
  revert w w' trace.
  induction chapters as [|ch rest IH]; intros w w' trace; [done|].
  simpl. destruct (sourceExists ch w); simpl.
  - destruct (generateChapterAudio ch _ w) as [w1 [|e]].
    + rewrite chapters_loop_acc.
      destruct (chapters_loop _ _ _ _ _ _ rest w1 []) as [[w2 added] r] eqn:E.
      intros [= _ <- ->].
      destruct (IH _ _ _ E) as (before & bad & after & -> & Hv & Hl).
      exists (ch :: before), bad, after. split; [done|].
      simpl. rewrite Hv. split; [done|].
      by rewrite ?last_cons, Hl.
    + intros [= _ <- _]. exists [], ch, rest. done.
  - rewrite chapters_loop_acc.
    destruct (chapters_loop _ _ _ _ _ _ rest w []) as [[w2 added] r] eqn:E.
    intros [= _ <- ->].
    destruct (IH _ _ _ E) as (before & bad & after & -> & Hv & Hl).
    exists (ch :: before), bad, after. split; [done|].
    simpl. rewrite Hv. split; [done|].
    by rewrite ?last_cons, Hl.
Qed.

End BookFacts.

Lemma generateBookAudio_completes_witness :
  sample_book_run_incomplete.1.2
  = concat (zip_with
              (chapter_steps Resolver.ascii_toLowerCase (str "wav") 10000)
              (Resolver.chapters Resolver.sample_toc)
              [true; true; false; true]) /\
  Book.chapter_delays sample_book_run_incomplete.1.2
  = [10000; 10000; 10000]%Z.
Proof.
  destruct (generateBookAudio_completes unit Resolver.ascii_toLowerCase
              (str "wav") 10000
              (fun chapter _ => negb (Resolver.order chapter =? 9)%Z)
              every_chapter_succeeds
              (Resolver.chapters Resolver.sample_toc) tt tt
              sample_book_run_incomplete.1.2)
    as ((present & Hlen & Htrace) & _ & Hdelays);
    [vm_compute; reflexivity|].
  split; [|rewrite Hdelays; vm_compute; reflexivity].
  rewrite Htrace. do 2 f_equal.
  destruct present as [|[] [|[] [|[] [|[] [|]]]]]; try discriminate Hlen;
    vm_compute in Htrace; try discriminate Htrace; reflexivity.
Defined.

Lemma generateBookAudio_stops_at_failure_witness :
  exists before bad after,
    Resolver.chapters Resolver.sample_toc = before ++ bad :: after /\
    Book.visited (sample_book_run second_chapter_fails).1.2
    = map Resolver.filename (before ++ [bad]) /\
    Resolver.order bad = 2%Z.
Proof.
  destruct (generateBookAudio_stops_at_failure unit
              Resolver.ascii_toLowerCase (str "wav") 10000
              (fun _ _ => true) second_chapter_fails
              (Resolver.chapters Resolver.sample_toc) tt tt
              (sample_book_run second_chapter_fails).1.2
              Orchestrator.synthesis_failed)
    as (before & bad & after & Hc & Hv & Hl); [vm_compute; reflexivity|].
  exists before, bad, after. split; [exact Hc|]. split; [exact Hv|].
  vm_compute in Hl. by injection Hl as <- _.
Defined.

(** ** Several books *)

Section BatchFacts.

Import Regex Naming Batch.

Lemma rx_other_run_productive : productive rx_other_run.
Proof.
  intros prev s r n. unfold rx_other_run.
  destruct (takeWhile _ s); [done|]. intros [= _ <-]. simpl. lia.
Qed.

Lemma is_lower_alnum_nonhyphen (c : char) :
  is_lower_alnum c = true -> is_hyphen c = false.
Proof.
  unfold is_lower_alnum, is_hyphen, is_digit, ch_eqb, HYPHEN.
  change (chr "-") with 45%N.
  rewrite !orb_true_iff, !andb_true_iff, !N.leb_le, N.eqb_neq. lia.
Qed.

Lemma rx_other_run_none prev c s :
  rx_other_run prev (c :: s) = None -> is_lower_alnum c = true.
Proof.
  unfold rx_other_run. simpl. by destruct (is_lower_alnum c).
Qed.

Lemma rx_other_run_some prev s r n :
  rx_other_run prev s = Some (r, n) ->
  r = [HYPHEN] /\
  drop n s = dropWhile (fun c => negb (is_lower_alnum c)) s.
Proof.
  unfold rx_other_run.
  destruct (takeWhile _ s) as [|c run] eqn:E; [done|].
  intros [= <- <-]. split; [done|].
  by rewrite <- (drop_takeWhile _ s), E.
Qed.

Variable toLowerCase : jsstring -> jsstring.

(** The directory name that [processBook] derives from the name of a
    book file is made of lower-case letters, digits and hyphens only,
    with no two hyphens in a row, whatever the name of the file was; a
    leading or trailing hyphen is kept. *)
Theorem bookSlug_shape (bookName : jsstring) :
  Forall (fun c => is_book_slug_char c = true)
    (bookSlug toLowerCase bookName) /\
  single_hyphens (bookSlug toLowerCase bookName).
Proof.
  unfold bookSlug. generalize (toLowerCase bookName). intros s. split.
  - apply (replaceAll_Forall2 rx_other_run (fun _ => True));
      [apply rx_other_run_productive| | |by apply Forall_true].
    + intros prev c s' _ Hc%rx_other_run_none.
      unfold is_book_slug_char. by rewrite Hc.
    + intros prev s' r n _ [-> _]%rx_other_run_some. by repeat constructor.
  - cut (single_hyphens (replaceAll rx_other_run s) /\
         (rx_other_run None s = None ->
          starts_nonhyphen (replaceAll rx_other_run s)));
      [tauto|].
    apply (replaceAll_ind rx_other_run
      (fun s out =>
         single_hyphens out /\
         (rx_other_run None s = None -> starts_nonhyphen out)));
      [apply rx_other_run_productive|done| |].
    + intros prev c s' out Hnone%rx_other_run_none [IH1 IH2].
      apply is_lower_alnum_nonhyphen in Hnone.
      simpl. rewrite Hnone. by repeat split.
    + intros prev c s' r n out Hsome [IH1 IH2].
      pose proof Hsome as [-> Hdrop]%rx_other_run_some.
      assert (starts_nonhyphen out) as Hout.
      { apply IH2. rewrite Hdrop. unfold rx_other_run.
        destruct (dropWhile _ (c :: s')) as [|d u] eqn:Ed; [done|].
        apply dropWhile_head in Ed. simpl. by rewrite Ed. }
      simpl. split; [split; [|done]|].
      * intros _. exact Hout.
      * unfold rx_other_run in *. by destruct (takeWhile _ (c :: s')).
Qed.

End BatchFacts.

Section BatchLoops.

Import Batch.

Lemma books_loop_spec {World : Type}
  (processBook : jsstring -> World -> World * option jsstring)
  (bookPaths : list jsstring) (w : World) (tally : Tally)
  (processed : list jsstring) :
  (books_loop World processBook bookPaths w tally processed).2
  = processed ++ bookPaths /\
  successful (books_loop World processBook bookPaths w tally processed).1.2
  + failed (books_loop World processBook bookPaths w tally processed).1.2
  = successful tally + failed tally + length bookPaths.
Proof.
  revert w tally processed.
  induction bookPaths as [|bookPath rest IH]; intros w tally processed.
  { simpl. rewrite app_nil_r. split; [done|lia]. }
  simpl. destruct (processBook bookPath w) as [w' result].
  match goal with |- context [books_loop _ _ rest w' ?t ?p] =>
    destruct (IH w' t p) as [IH1 IH2] end.
  rewrite IH1, IH2, <- app_assoc. split; [done|].
  destruct result as [[|c dir]|]; simpl; lia.
Qed.

(** The sequential batch run hands every book to [processBook], in the
    order given and whatever the outcomes of the books before it are, and
    the two counts that it prints add up to the number of books. *)
Theorem processBooksSequentially_tally {World : Type}
  (processBook : jsstring -> World -> World * option jsstring)
  (bookPaths : list jsstring) (w : World) :
  (processBooksSequentially World processBook bookPaths w).2 = bookPaths /\
  successful (processBooksSequentially World processBook bookPaths w).1.2
  + failed (processBooksSequentially World processBook bookPaths w).1.2
  = length bookPaths.
Proof.
  unfold processBooksSequentially.
  destruct (books_loop_spec processBook bookPaths w
              {| successful := 0; failed := 0 |} []) as [H1 H2].
  split; [exact H1|]. rewrite H2. simpl. lia.
Qed.

Lemma batches_from_spec (bookPaths : list jsstring) (maxConcurrent : nat) :
  0 < maxConcurrent ->
  forall fuel i, length bookPaths - i <= fuel ->
    exists bs,
      batches_from fuel bookPaths maxConcurrent i = Some bs /\
      concat bs = drop i bookPaths /\
      Forall (fun batch => 0 < length batch <= maxConcurrent) bs.
Proof.
  intros Hm. induction fuel as [|fuel IH]; intros i Hfuel.
  - simpl. destruct (length bookPaths <=? i) eqn:E.
    + apply Nat.leb_le in E. exists []. rewrite drop_ge by lia. done.
    + apply Nat.leb_gt in E. lia.
  - simpl. destruct (length bookPaths <=? i) eqn:E.
    + apply Nat.leb_le in E. exists []. rewrite drop_ge by lia. done.
    + apply Nat.leb_gt in E.
      destruct (IH (i + maxConcurrent)) as (bs & -> & Hcat & Hall); [lia|].
      simpl. eexists. split; [reflexivity|]. split.
      * simpl. rewrite Hcat. unfold array_slice.
        replace (i + maxConcurrent - i) with maxConcurrent by lia.
        rewrite <- drop_drop. apply take_drop.
      * constructor; [|exact Hall]. unfold array_slice.
        rewrite length_take, length_drop. lia.
Qed.

(** With a batch size of at least one, the concurrent batch run ends, and
    its batches are the books cut into consecutive groups: together they
    are the list of books, each book once and in order, and every batch
    holds at least one and at most [maxConcurrent] books. *)
Theorem processBooksConcurrently_batches (bookPaths : list jsstring)
  (maxConcurrent : nat) :
  0 < maxConcurrent ->
  exists bs,
    batches bookPaths maxConcurrent = Some bs /\
    concat bs = bookPaths /\
    Forall (fun batch => 0 < length batch <= maxConcurrent) bs.
Proof.
  intros Hm. unfold batches.
  destruct (batches_from_spec bookPaths maxConcurrent Hm
              (length bookPaths) 0) as (bs & H1 & H2 & H3); [lia|].
  exists bs. by rewrite drop_0 in H2.
Qed.

(** With a batch size of zero and at least one book, the loop of the
    concurrent batch run never ends: the index does not advance, whatever
    the number of steps. *)
Theorem processBooksConcurrently_zero_diverges (bookPaths : list jsstring) :
  bookPaths <> [] ->
  forall fuel, batches_from fuel bookPaths 0 0 = None.
Proof.
  intros Hne. induction fuel as [|fuel IH]; simpl.
  - by destruct bookPaths.
  - destruct bookPaths as [|b bs]; [done|]. simpl in *. by rewrite IH.
Qed.

End BatchLoops.

Lemma processBooksConcurrently_batches_witness :
  exists bs,
    Batch.batches [str "a.epub"; str "b.epub"; str "c.epub"] 2 = Some bs /\
    concat bs = [str "a.epub"; str "b.epub"; str "c.epub"] /\
    Forall (fun batch => 0 < length batch <= 2) bs.
Proof.
  apply (processBooksConcurrently_batches
           [str "a.epub"; str "b.epub"; str "c.epub"] 2).
  lia.
Defined.

Lemma processBooksConcurrently_zero_diverges_witness :
  Batch.batches [str "a.epub"] 0 = None /\
  Batch.batches_from 1000 [str "a.epub"] 0 0 = None.
Proof.
  split;
    apply (processBooksConcurrently_zero_diverges [str "a.epub"]);
    discriminate.
Defined.

(** ** The generation of one chapter *)

Section SingleChapterFacts.

Import Resolver Pipeline SingleChapter.

Variable File : Type.
Variable utf8_decode : File -> jsstring.
Variable utf8_encode : jsstring -> File.
Variable toLowerCase : jsstring -> jsstring.
Variable provider : Config.TTSProvider.
Variable YAML_parse_metadata : jsstring -> Synthesis.Error + Metadata.
Variable YAML_parse_toc : jsstring -> Synthesis.Error + TableOfContents.
Variable YAML_stringify : TableOfContents -> jsstring.
Variable bookDir : jsstring.
Variable bookDirExists : bool.
Variables metadataPath tocPath backupTocPath : jsstring.
Variable chapterPath : Chapter -> jsstring.
Variable generateBookAudio :
  gmap (list N) File -> gmap (list N) File * result.

(** Whatever the call does, [toc.yml] is the same file after it as
    before: when the generator leaves the backup alone, the table of
    contents that was replaced by the one-chapter table is put back both
    when the generation resolves and when it is rejected, and no backup
    file is left behind. *)
Theorem generateChapterAudio_restores_toc
  (disk : gmap (list N) File) (chapterIdentifier : jsstring) :
  backupTocPath <> tocPath ->
  (forall d, (generateBookAudio d).1 !! backupTocPath
             = d !! backupTocPath) ->
  (generateChapterAudio File utf8_decode utf8_encode toLowerCase provider
     YAML_parse_metadata YAML_parse_toc YAML_stringify bookDir
     bookDirExists metadataPath tocPath backupTocPath chapterPath
     generateBookAudio disk chapterIdentifier).1
    !! tocPath = disk !! tocPath /\
  (disk !! backupTocPath = None ->
   (generateChapterAudio File utf8_decode utf8_encode toLowerCase provider
      YAML_parse_metadata YAML_parse_toc YAML_stringify bookDir
      bookDirExists metadataPath tocPath backupTocPath chapterPath
      generateBookAudio disk chapterIdentifier).1
     !! backupTocPath = None).
Proof.
  intros Hneq Hkeep. unfold generateChapterAudio.
  destruct (validateBook _ _ _ _ _ _); [|done].
  destruct (loadBookData _ _ _ _ _ _) as [e|[metadata toc]]; [done|].
  destruct (Config.getProviderConfig provider); [|done].
  destruct (findChapter _ _ _ _ _ _ _ _ _) as [e|[chapter|]];
    [done| |done].
  destruct (negb _); [done|].
  destruct (disk !! tocPath) as [original|] eqn:Etoc; [|done].
  match goal with |- context [generateBookAudio ?d] =>
    pose proof (Hkeep d) as Hk;
    destruct (generateBookAudio d) as [disk' generated] end.
  simpl in Hk. rewrite lookup_insert_ne, lookup_insert_eq in Hk by done.
  rewrite Hk. simpl. split.
  - by rewrite lookup_insert_eq.
  - intros _. rewrite lookup_insert_ne by done. apply lookup_delete_eq.
Qed.

(** For a valid book and an identifier that no chapter of the table of
    contents answers, the call changes no file, and its outcome depends
    on the provider only: with a registered provider it resolves, not
    rejects, and with the unregistered ["elevenlabs"] the provider line of
    the banner throws before the chapter is looked up. *)
Theorem generateChapterAudio_unknown_chapter
  (disk : gmap (list N) File) (chapterIdentifier : jsstring)
  (metadata : Metadata) (toc : TableOfContents) :
  validateBook File bookDir bookDirExists metadataPath tocPath disk
  = Resolved ->
  loadBookData File utf8_decode YAML_parse_metadata YAML_parse_toc
    metadataPath tocPath disk = inr (metadata, toc) ->
  Forall (fun chapter => ~ answers_to toLowerCase chapterIdentifier chapter)
    (chapters toc) ->
  (provider <> Config.elevenlabs ->
   generateChapterAudio File utf8_decode utf8_encode toLowerCase provider
     YAML_parse_metadata YAML_parse_toc YAML_stringify bookDir
     bookDirExists metadataPath tocPath backupTocPath chapterPath
     generateBookAudio disk chapterIdentifier
   = (disk, Resolved)) /\
  (provider = Config.elevenlabs ->
   generateChapterAudio File utf8_decode utf8_encode toLowerCase provider
     YAML_parse_metadata YAML_parse_toc YAML_stringify bookDir
     bookDirExists metadataPath tocPath backupTocPath chapterPath
     generateBookAudio disk chapterIdentifier
   = (disk, Rejected (provider_not_found Config.elevenlabs))).
Proof.
  intros Hvalid Hload Hnone. unfold generateChapterAudio, findChapter.
  rewrite Hvalid, Hload. split.
  - intros Hreg.
    assert (exists config, Config.getProviderConfig provider = Some config)
      as [config ->] by (destruct provider; [by eexists..|done]).
    by rewrite (findChapter_unanswered toLowerCase toc chapterIdentifier).
  - by intros ->.
Qed.

End SingleChapterFacts.

Lemma generateChapterAudio_restores_toc_witness :
  (sample_generateChapterAudio Config.google sample_book_disk (str "2")).1
    !! str "/b/toc.yml"
  = sample_book_disk !! str "/b/toc.yml" /\
  (sample_book_disk !! str "/b/.toc-backup-1.yml" = None ->
   (sample_generateChapterAudio Config.google sample_book_disk
      (str "2")).1
     !! str "/b/.toc-backup-1.yml" = None).
Proof.
  unfold sample_generateChapterAudio.
  apply generateChapterAudio_restores_toc.
  - intros E. vm_compute in E. discriminate.
  - intros d. reflexivity.
Defined.

Lemma generateChapterAudio_unknown_chapter_witness :
  sample_generateChapterAudio Config.google sample_book_disk (str "zzz")
  = (sample_book_disk, Pipeline.Resolved) /\
  sample_generateChapterAudio Config.elevenlabs sample_book_disk
    (str "zzz")
  = (sample_book_disk,
     Pipeline.Rejected
       (SingleChapter.thrown
          (str "Provider 'elevenlabs' not found. Available providers: google, openai"))).
Proof.
  assert (forall s p : jsstring, includes s p = false -> ~ contains s p)
    as Hnot.
  { intros s p E H. apply includes_contains in H. congruence. }
  assert (Forall (fun chapter =>
                    ~ answers_to Resolver.ascii_toLowerCase (str "zzz")
                        chapter)
            (Resolver.chapters Resolver.sample_toc)) as Hnone.
  { repeat constructor; apply Hnot; vm_compute; reflexivity. }
  unfold sample_generateChapterAudio. split.
  - apply (generateChapterAudio_unknown_chapter _ _ _ _ Config.google
             _ _ _ _ _ _ _ _ _ _ _ _
             {| SingleChapter.metadata_title := str "Mythos";
                SingleChapter.metadata_author := str "S. Fry" |}
             Resolver.sample_toc);
      [vm_compute; reflexivity|vm_compute; reflexivity|exact Hnone
      |discriminate].
  - apply (generateChapterAudio_unknown_chapter _ _ _ _ Config.elevenlabs
             _ _ _ _ _ _ _ _ _ _ _ _
             {| SingleChapter.metadata_title := str "Mythos";
                SingleChapter.metadata_author := str "S. Fry" |}
             Resolver.sample_toc);
      [vm_compute; reflexivity|vm_compute; reflexivity|exact Hnone
      |reflexivity].
Defined.
